(** * video2qiniu: the upload, cache and configuration logic of
      [video_slice_uploader.py], embedded in Rocq.

    The Python program is a Tk application; what is modelled here is the
    part of class [VideoSliceUploader] that decides what is uploaded,
    how often a transfer is retried, what the upload functions return,
    when the local job directory is deleted, which directories the cache
    scan lists, how the default cache path is chosen and how a saved
    configuration is loaded.  Widgets and log lines are left out. *)

From Stdlib Require Import String Ascii List Arith Bool Lia.
From stdpp Require Import base option strings gmap.
Import ListNotations.

Local Open Scope string_scope.
Local Open Scope list_scope.
Local Open Scope nat_scope.

(** ** Python string operations used by the program *)

Module PyStr.

(** [s.endswith(suffix)] *)
Fixpoint endswith (s suffix : string) : bool :=
  if String.eqb s suffix then true
  else match s with
       | EmptyString => false
       | String _ s' => endswith s' suffix
       end.

(** [s.startswith(p)] *)
Definition startswith (s p : string) : bool := String.prefix p s.

(** [sub in s] *)
Fixpoint str_in (sub s : string) : bool :=
  if String.prefix sub s then true
  else match s with
       | EmptyString => false
       | String _ s' => str_in sub s'
       end.

Definition is_slash (c : ascii) : bool := Ascii.eqb c "/"%char.

(** [s.lstrip('/')] *)
Fixpoint lstrip_slash (s : string) : string :=
  match s with
  | String c s' => if is_slash c then lstrip_slash s' else s
  | EmptyString => EmptyString
  end.

(** [s.rstrip('/')] *)
Fixpoint rstrip_slash (s : string) : string :=
  match s with
  | EmptyString => EmptyString
  | String c s' =>
      match rstrip_slash s' with
      | EmptyString => if is_slash c then EmptyString else String c EmptyString
      | r => String c r
      end
  end.

(** [s.strip('/')] *)
Definition strip_slash (s : string) : string := rstrip_slash (lstrip_slash s).

(** [s.split('/')]: never empty, [''.split('/') == ['']]. *)
Fixpoint split_slash (s : string) : list string :=
  match s with
  | EmptyString => [EmptyString]
  | String c s' =>
      if is_slash c then EmptyString :: split_slash s'
      else match split_slash s' with
           | h :: t => String c h :: t
           | [] => [String c EmptyString]
           end
  end.

(** ['/'.join(parts)] *)
Fixpoint join_slash (parts : list string) : string :=
  match parts with
  | [] => EmptyString
  | [p] => p
  | p :: rest => p +:+ "/" +:+ join_slash rest
  end.

(** [s.rsplit('/', 1)[0]]: the text before the last ['/'], the whole
    string when there is none. *)
Definition rsplit_head (s : string) : string :=
  match rev (split_slash s) with
  | _ :: (_ :: _) as before => join_slash (rev before)
  | _ => s
  end.

(** [os.path.basename(p)], with ['/'] as the separator: the text after
    the last ['/']. *)
Definition basename (p : string) : string :=
  match rev (split_slash p) with
  | last :: _ => last
  | [] => p
  end.

(** [os.path.join(a, b)] for a relative [b], with ['/'] as the
    separator. *)
Definition path_join (a b : string) : string :=
  if String.eqb a EmptyString then b
  else if endswith a "/" then a +:+ b
  else a +:+ "/" +:+ b.

(** Truthiness of a Python string. *)
Definition nonempty (s : string) : bool := negb (String.eqb s EmptyString).

(** [x in l] for a list of strings. *)
Definition mem (x : string) (l : list string) : bool :=
  existsb (String.eqb x) l.

End PyStr.

(** ** The local cache directory *)

Module LocalFs.
Import PyStr.

(** What an entry of a job directory is.  A regular file carries whether
    [os.remove] succeeds on it. *)
Inductive entry_kind : Type :=
| RegularFile (removable : bool)
| SubDirectory.

(** A job directory, in [os.listdir] order. *)
Definition listing : Type := list (string * entry_kind).

(** What an entry of the cache root is.  A directory carries whether
    [os.rmdir] succeeds on it once it is empty, and its content; a
    directory whose content is [None] cannot be listed ([os.listdir]
    raises). *)
Inductive root_item : Type :=
| PlainFile
| Directory (removable : bool) (content : option listing).

Definition cache_root : Type := list (string * root_item).

Definition names (l : listing) : list string := map fst l.

(** [[f for f in os.listdir(d) if f.endswith('.ts')]] *)
Definition ts_files (l : list string) : list string :=
  List.filter (fun f => endswith f ".ts") l.

(** [[f for f in os.listdir(d) if f.endswith('.m3u8')]] *)
Definition m3u8_files (l : list string) : list string :=
  List.filter (fun f => endswith f ".m3u8") l.

(** [f.endswith(('.ts', '.m3u8'))] *)
Definition eligible (f : string) : bool :=
  endswith f ".ts" || endswith f ".m3u8".

(** Truthiness of a Python list. *)
Definition truthy {A} (l : list A) : bool :=
  match l with [] => false | _ => true end.

Record cache_entry : Type := CacheEntry {
  dir : string;
  ts_count : nat;
  m3u8_count : nat
}.

(** The loop of [update_cache_status] that collects [cache_files]: an
    item is kept when it is a directory whose listing has a [.ts] name
    and a [.m3u8] name; a directory that cannot be listed is skipped. *)
Fixpoint scan (root : cache_root) : list cache_entry :=
  match root with
  | [] => []
  | (item, PlainFile) :: rest => scan rest
  | (item, Directory _ None) :: rest => scan rest
  | (item, Directory _ (Some l)) :: rest =>
      let ts := ts_files (names l) in
      let m3u8 := m3u8_files (names l) in
      if truthy ts && truthy m3u8
      then CacheEntry item (length ts) (length m3u8) :: scan rest
      else scan rest
  end.

Definition scanned (root : cache_root) : list string := map dir (scan root).

(** [validate_cache_directory(directory)]: the argument is what the
    path names, [None] when nothing is there.  [Some true] / [Some
    false] is the returned boolean, [None] an exception of
    [os.listdir]. *)
Definition validate_cache_directory (d : option root_item) : option bool :=
  match d with
  | None => Some false
  | Some PlainFile => Some false
  | Some (Directory _ None) => None
  | Some (Directory _ (Some l)) =>
      Some ((0 <? length (ts_files (names l)))
            && (0 <? length (m3u8_files (names l))))
  end.

(** The [for] loop of [cleanup_local_files]: regular files are removed
    in listing order; the first [os.remove] that fails raises and ends
    the loop.  Returns what is left and whether it raised. *)
Fixpoint remove_files (l : listing) : listing * bool :=
  match l with
  | [] => ([], false)
  | (n, SubDirectory) :: rest =>
      let '(kept, raised) := remove_files rest in
      ((n, SubDirectory) :: kept, raised)
  | (n, RegularFile true) :: rest => remove_files rest
  | (n, RegularFile false) :: rest => ((n, RegularFile false) :: rest, true)
  end.

Definition lookup_item (root : cache_root) (item : string) : option root_item :=
  match List.find (fun e => String.eqb (fst e) item) root with
  | Some e => Some (snd e)
  | None => None
  end.

Definition remove_item (root : cache_root) (item : string) : cache_root :=
  List.filter (fun e => negb (String.eqb (fst e) item)) root.

Definition replace_item (root : cache_root) (item : string)
    (removable : bool) (l : listing) : cache_root :=
  map (fun e => if String.eqb (fst e) item
                then (fst e, Directory removable (Some l)) else e) root.

(** [cleanup_local_files(output_dir)], for the job directory [item] of
    the cache root.  The boolean tells whether the [except] branch ran
    (a warning is logged and nothing is raised). *)
Definition cleanup_local_files (root : cache_root) (item : string)
  : cache_root * bool :=
  match lookup_item root item with
  | Some (Directory removable (Some l)) =>
      let '(kept, raised) := remove_files l in
      if raised then (replace_item root item removable kept, true)
      else
        (* os.rmdir(output_dir) *)
        match kept with
        | [] => if removable then (remove_item root item, false)
                else (replace_item root item removable [], true)
        | _ => (replace_item root item removable kept, true)   (* not empty *)
        end
  | _ => (root, true)
  end.

End LocalFs.

(** ** The Tk variables that hold the settings *)

Module Settings.

Record App : Type := mkApp {
  segment_duration : string;
  quality_crf : string;
  server_ip : string;
  server_port : string;
  username : string;
  password : string;
  upload_path : string;
  use_ssl : bool;
  qiniu_access_key : string;
  qiniu_secret_key : string;
  qiniu_bucket_name : string;
  qiniu_domain : string;
  use_qiniu : bool;
  cache_path : string
}.

End Settings.

(** ** Uploading a job directory *)

Module Upload.
Import PyStr LocalFs Settings.

(** A Python exception: whether it is an [ftplib.error_perm], and
    [str(e)]. *)
Record exn : Type := Exn { error_perm : bool; text : string }.

Definition outcome (W A : Type) : Type := (exn + A) * W.

(** Everything outside the program that an upload talks to: the qiniu
    SDK, the FTP session, the local files and the clock.  A call may
    change the world and may raise; a reading ([getsize], [time_time],
    [path_exists]) leaves the world as it is.
    - [getsize local_file] is [os.path.getsize(local_file)].
    - [time_time] is the reading [time.time()] gives in this world, in
      ticks of the clock; the calls below may advance it.
    - [put_file_v2 key local_file] stands for
      [q.upload_token(bucket_name, key, 3600)] followed by
      [put_file_v2(token, key, local_file)]; it returns [ret['key']]
      when [ret] is truthy.
    - [ftp_login] stands for the creation of the session object,
      [int(port)], [connect], [login] and [set_pasv].
    - [ftp_stor remote_file local_file] stands for
      [open(local_file, 'rb')] followed by
      [ftp.storbinary('STOR ' + remote_file, f, 8192)]. *)
Record Remote : Type := mkRemote {
  World : Type;
  QINIU_AVAILABLE : bool;
  getsize : string -> World -> exn + nat;
  time_time : World -> nat;
  put_file_v2 : string -> string -> World -> outcome World (option string);
  ftp_login : string -> string -> string -> string -> bool ->
              World -> outcome World unit;
  ftp_prot_p : World -> outcome World unit;
  ftp_cwd : string -> World -> outcome World unit;
  ftp_mkd : string -> World -> outcome World unit;
  ftp_pwd : World -> outcome World string;
  ftp_stor : string -> string -> World -> outcome World unit;
  ftp_quit : World -> outcome World unit;
  path_exists : string -> World -> bool
}.

(** What a run leaves behind, in order.  [EvPut] and [EvStor] are the
    attempts of the two retry loops: the key or remote file name, the
    number of the attempt, and whether the attempt ended with
    [upload_success = True]. *)
Inductive Event : Type :=
| EvPut (key : string) (attempt : nat) (stored : bool)
| EvStor (remote_file : string) (attempt : nat) (stored : bool)
| EvSleep (seconds : nat)
| EvKeepAliveStarted
| EvQuit
| EvCleanup (output_dir : string).

Definition is_transfer (e : Event) : bool :=
  match e with EvPut _ _ _ | EvStor _ _ _ => true | _ => false end.

Definition is_first_attempt (e : Event) : bool :=
  match e with
  | EvPut _ n _ | EvStor _ n _ => Nat.eqb n 1
  | _ => false
  end.

Definition is_stored (e : Event) : bool :=
  match e with EvPut _ _ b | EvStor _ _ b => b | _ => false end.

Definition is_cleanup (e : Event) : bool :=
  match e with EvCleanup _ => true | _ => false end.

(** The transfers of a trace, the files it attempted and the files it
    stored. *)
Definition transfers (tr : list Event) : list Event := List.filter is_transfer tr.
Definition attempted (tr : list Event) : nat := length (List.filter is_first_attempt tr).
Definition succeeded (tr : list Event) : nat := length (List.filter is_stored tr).

Definition max_retries : nat := 3.

(** An event of the qiniu attempts on [key]. *)
Definition about_key (key : string) (e : Event) : Prop :=
  (exists n b, e = EvPut key n b) \/ e = EvSleep 2.

(** An event of the FTP attempts on [remote_file]. *)
Definition about_remote_file (remote_file : string) (e : Event) : Prop :=
  (exists n b, e = EvStor remote_file n b) \/ e = EvSleep 5.

(** An event of a qiniu upload of the listing [names]: it is about the
    key [<job name>/<file name>] of an eligible name. *)
Definition qiniu_event (output_dir : string) (names : list string)
    (e : Event) : Prop :=
  exists f, In f names /\ LocalFs.eligible f = true
            /\ about_key (PyStr.basename output_dir +:+ "/" +:+ f) e.

(** An event of the FTP file loop on the listing [names]: it is about
    an eligible name, stored under its bare name or under
    [remote_dir/<file name>]. *)
Definition ftp_file_event (remote_dir : string) (names : list string)
    (e : Event) : Prop :=
  exists f, In f names /\ LocalFs.eligible f = true
            /\ (about_remote_file f e
                \/ about_remote_file (remote_dir +:+ "/" +:+ f) e).

(** An event of an FTP upload. *)
Definition ftp_event (remote_dir : string) (names : list string)
    (e : Event) : Prop :=
  e = EvKeepAliveStarted \/ e = EvQuit \/ ftp_file_event remote_dir names e.

(** The traces the attempts on one key can leave in [upload_to_qiniu],
    each with the [upload_success] the retry loop ends with: an attempt
    that succeeds ends the loop, a failed one is followed by a wait of
    two seconds unless it was the third. *)
Definition qiniu_file_traces (key : string) : list (list Event * bool) :=
  [([EvPut key 1 true], true);
   ([EvPut key 1 false; EvSleep 2; EvPut key 2 true], true);
   ([EvPut key 1 false; EvSleep 2; EvPut key 2 false; EvSleep 2;
     EvPut key 3 true], true);
   ([EvPut key 1 false; EvSleep 2; EvPut key 2 false; EvSleep 2;
     EvPut key 3 false], false)].

(** The traces the attempts on one remote file can leave in
    [upload_to_ftp]: an attempt that succeeds ends the loop, one that
    fails is followed by a wait of five seconds and the next attempt
    (the wait also follows the third) or ends the loop at once. *)
Definition ftp_file_traces (remote_file : string) : list (list Event * bool) :=
  [([EvStor remote_file 1 true], true);
   ([EvStor remote_file 1 false], false);
   ([EvStor remote_file 1 false; EvSleep 5; EvStor remote_file 2 true], true);
   ([EvStor remote_file 1 false; EvSleep 5; EvStor remote_file 2 false], false);
   ([EvStor remote_file 1 false; EvSleep 5; EvStor remote_file 2 false;
     EvSleep 5; EvStor remote_file 3 true], true);
   ([EvStor remote_file 1 false; EvSleep 5; EvStor remote_file 2 false;
     EvSleep 5; EvStor remote_file 3 false], false);
   ([EvStor remote_file 1 false; EvSleep 5; EvStor remote_file 2 false;
     EvSleep 5; EvStor remote_file 3 false; EvSleep 5], false)].

(** [speed = file_size / upload_time / 1024 / 1024], computed when
    [file_size > 0], with [upload_time = end_time - start_time]: the
    division raises [ZeroDivisionError] exactly when the two readings
    of the clock are equal. *)
Definition speed_raises (file_size start_time end_time : nat) : bool :=
  (0 <? file_size) && (end_time =? start_time).

Definition ZeroDivisionError : exn := Exn false "float division by zero".

Section Orchestrator.
Variable R : Remote.

Record St : Type := mkSt { world : World R; events : list Event }.

(** Computations that change the state and may raise. *)
Definition M (A : Type) : Type := St -> (exn + A) * St.

Definition ret {A} (a : A) : M A := fun s => (inr a, s).
Definition raise {A} (e : exn) : M A := fun s => (inl e, s).
Definition bind {A B} (m : M A) (k : A -> M B) : M B :=
  fun s => match m s with
           | (inr a, s') => k a s'
           | (inl e, s') => (inl e, s')
           end.
(** [try: m except Exception as e: h e] *)
Definition catch {A} (m : M A) (h : exn -> M A) : M A :=
  fun s => match m s with
           | (inl e, s') => h e s'
           | (inr a, s') => (inr a, s')
           end.
Definition attempt_ {A} (m : M A) : M (exn + A) :=
  fun s => let '(r, s') := m s in (inr r, s').
Definition emit (e : Event) : M unit :=
  fun s => (inr tt, mkSt (world s) (events s ++ [e])).
Definition call {A} (op : World R -> outcome (World R) A) : M A :=
  fun s => let '(r, w) := op (world s) in (r, mkSt w (events s)).
Definition ask {A} (q : World R -> A) : M A :=
  fun s => (inr (q (world s)), s).
Definition sleep (seconds : nat) : M unit := emit (EvSleep seconds).
Definition pass : M unit := ret tt.

Notation "'let*' x ':=' m 'in' k" := (bind m (fun x => k))
  (at level 10, x name, m at level 100, k at level 200).
Notation "m1 ';;;' m2" := (bind m1 (fun _ => m2))
  (at level 100, m2 at level 200, right associativity).

(** [m] appends no event (it may raise). *)
Definition silent {A} (m : M A) : Prop :=
  forall s, events (snd (m s)) = events s.

(** [m] appends no event and does not raise. *)
Definition quiet {A} (m : M A) : Prop :=
  forall s, exists a w, m s = (inr a, mkSt w (events s)).

(** [os.listdir(output_dir)]; [None] is a directory that cannot be
    listed.  The two calls an upload makes (for [total_files] and for
    the loop) see the same listing. *)
Definition listdir (files : option (list string)) : M (list string) :=
  match files with
  | Some l => ret l
  | None => raise (Exn false "listdir")
  end.

(** *** qiniu *)

(** [all([access_key, secret_key, bucket_name])] *)
Definition qiniu_configured (app : App) : bool :=
  nonempty (qiniu_access_key app) && nonempty (qiniu_secret_key app)
  && nonempty (qiniu_bucket_name app).

(** The body of the [try] of one qiniu attempt, from
    [os.path.getsize] to [upload_success = True]: [inr true] when the
    end of the success branch is reached, [inr false] when the [else]
    branch is taken, [inl] when the body raises.  The success branch
    computes the speed when the file is not empty, which raises when
    [upload_time] is zero. *)
Definition qiniu_attempt (key local_file : string) (w : World R)
  : outcome (World R) bool :=
  match getsize R local_file w with
  | inl e => (inl e, w)
  | inr file_size =>
      let start_time := time_time R w in
      match put_file_v2 R key local_file w with
      | (inl e, w') => (inl e, w')
      | (inr ret, w') =>
          let end_time := time_time R w' in
          match ret with
          | Some k =>
              if String.eqb k key then
                if speed_raises file_size start_time end_time
                then (inl ZeroDivisionError, w')
                else (inr true, w')
              else (inr false, w')
          | None => (inr false, w')
          end
      end
  end.

(** [for attempt in range(1, max_retries + 1)] of [upload_to_qiniu];
    the result is [upload_success]. *)
Fixpoint qiniu_retry_loop (key local_file : string) (attempts : list nat)
  : M bool :=
  match attempts with
  | [] => ret false
  | attempt :: rest =>
      let* r := attempt_ (call (qiniu_attempt key local_file)) in
      let upload_success := match r with
                            | inr true => true
                            | _ => false
                            end in
      emit (EvPut key attempt upload_success);;;
      if upload_success then ret true
      else
        (if attempt <? max_retries then sleep 2 else pass);;;
        qiniu_retry_loop key local_file rest
  end.

(** [for filename in os.listdir(output_dir)] of [upload_to_qiniu];
    the result is [files_uploaded]. *)
Fixpoint qiniu_file_loop (video_name output_dir : string)
    (files : list string) (files_uploaded : nat) : M nat :=
  match files with
  | [] => ret files_uploaded
  | filename :: rest =>
      if eligible filename then
        let local_file := path_join output_dir filename in
        let key := video_name +:+ "/" +:+ filename in
        let* upload_success :=
          qiniu_retry_loop key local_file (seq 1 max_retries) in
        qiniu_file_loop video_name output_dir rest
          (if upload_success then S files_uploaded else files_uploaded)
      else qiniu_file_loop video_name output_dir rest files_uploaded
  end.

Definition upload_to_qiniu (app : App) (output_dir : string)
    (files : option (list string)) : M bool :=
  catch
    (if negb (QINIU_AVAILABLE R) then ret false
     else if negb (qiniu_configured app) then ret false
     else
       let video_name := basename output_dir in
       let* names := listdir files in
       let total_files := length (List.filter eligible names) in
       let* files_uploaded := qiniu_file_loop video_name output_dir names 0 in
       if files_uploaded =? total_files then ret true
       else ret (0 <? files_uploaded))
    (fun _ => ret false).

(** *** FTP *)

(** The [for i, part in enumerate(parts)] loop of
    [create_remote_directory]. *)
Fixpoint create_parts (parts : list string) (i : nat) (all : list string)
  : M unit :=
  match parts with
  | [] => pass
  | part :: rest =>
      (if nonempty part then
         let full_path := "/" +:+ join_slash (firstn (S i) all) in
         catch (call (ftp_mkd R full_path))
               (fun e => if error_perm e then pass else raise e);;;
         catch (call (ftp_cwd R full_path))
               (fun e => if error_perm e
                         then catch (call (ftp_cwd R part)) (fun _ => pass)
                         else raise e)
       else pass);;;
      create_parts rest (S i) all
  end.

Definition create_remote_directory (remote_dir : string) : M bool :=
  catch
    (let normalized_dir := strip_slash remote_dir in
     catch (call (ftp_cwd R "/")) (fun _ => pass);;;
     let parts := split_slash normalized_dir in
     create_parts parts 0 parts;;;
     catch (call (ftp_cwd R ("/" +:+ normalized_dir));;;
            let* current_pwd := call (ftp_pwd R) in
            ret true)
           (fun e => if error_perm e then ret false else raise e))
    (fun _ => ret false).

(** [connect_ftp]: [true] stands for the returned session, [false]
    for [None]. *)
Definition connect_ftp (app : App) : M bool :=
  catch
    (call (ftp_login R (server_ip app) (server_port app)
             (username app) (password app) (use_ssl app));;;
     emit EvKeepAliveStarted;;;
     (if use_ssl app then call (ftp_prot_p R) else pass);;;
     catch (call (ftp_cwd R (upload_path app)))
           (fun _ => let* created := create_remote_directory (upload_path app) in
                     pass);;;
     ret true)
    (fun _ => ret false).

(** The first diagnosis of the 553 branch. *)
Definition diagnose_553 (remote_dir : string) : M unit :=
  catch
    (let* current_dir := call (ftp_pwd R) in
     let target_dir :=
       if str_in "/" remote_dir then rsplit_head remote_dir else "" in
     if nonempty target_dir then
       catch (call (ftp_cwd R target_dir);;; call (ftp_cwd R "/"))
             (fun _ => pass)
     else pass)
    (fun _ => pass).

(** [for dir_name in dirs] of the 553 branch. *)
Fixpoint rebuild_dirs (dirs : list string) (current_path : string) : M unit :=
  match dirs with
  | [] => pass
  | dir_name :: rest =>
      let current_path := current_path +:+ "/" +:+ dir_name in
      catch (call (ftp_cwd R current_path))
            (fun _ => call (ftp_mkd R current_path);;;
                      call (ftp_cwd R current_path));;;
      rebuild_dirs rest current_path
  end.

(** The directory rebuild of the 553 branch. *)
Definition rebuild_553 (remote_dir local_file : string) : M unit :=
  let* there := ask (path_exists R local_file) in
  if (there : bool) then
    catch
      (call (ftp_cwd R "/");;;
       let* current_dir := call (ftp_pwd R) in
       rebuild_dirs (split_slash (strip_slash remote_dir)) "";;;
       let* final_dir := call (ftp_pwd R) in
       let work_dir := rsplit_head remote_dir in
       if negb (String.eqb final_dir work_dir) then
         let work_dir :=
           if startswith work_dir "/" then work_dir else "/" +:+ work_dir in
         catch (call (ftp_cwd R work_dir);;;
                let* final_dir' := call (ftp_pwd R) in
                pass)
               (fun _ => call (ftp_cwd R final_dir))
       else pass)
      (fun _ => pass)
  else pass.

(** The body of the [try] of one FTP attempt, from [os.path.getsize]
    to [upload_success = True]; the speed is computed as in
    [qiniu_attempt]. *)
Definition ftp_attempt (remote_file local_file : string) (w : World R)
  : outcome (World R) unit :=
  match getsize R local_file w with
  | inl e => (inl e, w)
  | inr file_size =>
      let start_time := time_time R w in
      match ftp_stor R remote_file local_file w with
      | (inl e, w') => (inl e, w')
      | (inr _, w') =>
          let end_time := time_time R w' in
          if speed_raises file_size start_time end_time
          then (inl ZeroDivisionError, w')
          else (inr tt, w')
      end
  end.

(** [for attempt in range(1, max_retries + 1)] of [upload_to_ftp];
    the result is [upload_success]. *)
Fixpoint ftp_retry_loop (remote_dir remote_file local_file : string)
    (attempts : list nat) : M bool :=
  match attempts with
  | [] => ret false
  | attempt :: rest =>
      let* r := attempt_ (call (ftp_attempt remote_file local_file)) in
      match r with
      | inr _ => emit (EvStor remote_file attempt true);;; ret true
      | inl upload_error =>
          emit (EvStor remote_file attempt false);;;
          let error_msg := text upload_error in
          if str_in "10060" error_msg then
            sleep 5;;;
            ftp_retry_loop remote_dir remote_file local_file rest
          else if str_in "553" error_msg then
            diagnose_553 remote_dir;;;
            rebuild_553 remote_dir local_file;;;
            ret false
          else ret false
      end
  end.

(** The name a file is stored under, [remote_file] in
    [upload_to_ftp]: the bare file name when the session already is
    in the remote directory. *)
Definition choose_remote_file (remote_dir filename : string) : M string :=
  catch (let* current_ftp_dir := call (ftp_pwd R) in
         if String.eqb (rstrip_slash current_ftp_dir)
                       (rstrip_slash remote_dir)
         then ret filename
         else ret (remote_dir +:+ "/" +:+ filename))
        (fun _ => ret (remote_dir +:+ "/" +:+ filename)).

(** [for filename in os.listdir(output_dir)] of [upload_to_ftp]; the
    result is [files_uploaded]. *)
Fixpoint ftp_file_loop (output_dir remote_dir : string)
    (files : list string) (files_uploaded : nat) : M nat :=
  match files with
  | [] => ret files_uploaded
  | filename :: rest =>
      if eligible filename then
        let local_file := path_join output_dir filename in
        let* remote_file := choose_remote_file remote_dir filename in
        let* upload_success :=
          ftp_retry_loop remote_dir remote_file local_file
                         (seq 1 max_retries) in
        ftp_file_loop output_dir remote_dir rest
          (if upload_success then S files_uploaded else files_uploaded)
      else ftp_file_loop output_dir remote_dir rest files_uploaded
  end.

(** The remote directory of a job, [remote_dir] in [upload_to_ftp]. *)
Definition ftp_remote_dir (configured_path video_name : string) : string :=
  let upload_path := strip_slash configured_path in
  if mem upload_path [""; "."; "v"] then video_name
  else upload_path +:+ "/" +:+ video_name.

(** The key of a file of a job, [key] in [upload_to_qiniu]. *)
Definition qiniu_key (output_dir filename : string) : string :=
  basename output_dir +:+ "/" +:+ filename.

Definition upload_to_ftp (app : App) (output_dir : string)
    (files : option (list string)) : M bool :=
  catch
    (let* ftp := connect_ftp app in
     if negb ftp then ret false
     else
       let video_name := basename output_dir in
       let remote_dir := ftp_remote_dir (upload_path app) video_name in
       let* created := create_remote_directory remote_dir in
       if negb created then ret false
       else
         let* names := listdir files in
         let total_files := length (List.filter eligible names) in
         let* files_uploaded := ftp_file_loop output_dir remote_dir names 0 in
         call (ftp_quit R);;;
         emit EvQuit;;;
         ret true)
    (fun _ => ret false).

Definition upload_to_server (app : App) (output_dir : string)
    (files : option (list string)) : M bool :=
  catch
    (if use_qiniu app then upload_to_qiniu app output_dir files
     else upload_to_ftp app output_dir files)
    (fun _ => ret false).

(** A qiniu attempt that does not end with [upload_success = True]:
    its body raised, or [ret and ret['key'] == key] was false. *)
Definition put_failed (r : exn + bool) : bool :=
  match r with
  | inr true => false
  | _ => true
  end.

(** Each of the next [n] qiniu attempts on [key] fails. *)
Fixpoint all_puts_fail (key local_file : string) (n : nat) (w : World R)
  : bool :=
  match n with
  | 0 => true
  | S n' =>
      let '(r, w') := qiniu_attempt key local_file w in
      put_failed r && all_puts_fail key local_file n' w'
  end.

(** Each of the next [n] STOR attempts on [remote_file] raises with
    the connection-timeout signature, ["10060"] in [str(e)]. *)
Fixpoint all_timeouts (remote_file local_file : string) (n : nat)
    (w : World R) : bool :=
  match n with
  | 0 => true
  | S n' =>
      match ftp_attempt remote_file local_file w with
      | (inl e, w') =>
          str_in "10060" (text e) && all_timeouts remote_file local_file n' w'
      | (inr _, _) => false
      end
  end.

(** The names [os.listdir] gives for the job directory [item]. *)
Definition job_files (root : cache_root) (item : string)
  : option (list string) :=
  match lookup_item root item with
  | Some (Directory _ (Some l)) => Some (names l)
  | _ => None
  end.

(** [process_video], from the return of [execute_ffmpeg] on:
    [ffmpeg_ok] is that return value, [root] the cache directory with
    the job directory [item] as ffmpeg left it.  The result is the
    cache directory afterwards. *)
Definition process_video (app : App) (root : cache_root) (item : string)
    (ffmpeg_ok : bool) : St -> cache_root * St :=
  fun s =>
    if ffmpeg_ok then
      let output_dir := path_join (cache_path app) item in
      match upload_to_server app output_dir (job_files root item) s with
      | (inr true, s1) =>
          (fst (cleanup_local_files root item),
           mkSt (world s1) (events s1 ++ [EvCleanup output_dir]))
      | (_, s1) => (root, s1)
      end
    else (root, s).

End Orchestrator.

Arguments world {R} _.
Arguments events {R} _.
Arguments mkSt {R} _ _.

End Upload.

(** ** The job-level result as the specification words it *)

Module Spec.

Inductive UploadResult : Type := Success | PartialFailure | Failure.

(** Success when every attempted file succeeded and there was at least
    one; Failure when none succeeded; PartialFailure otherwise. *)
Definition spec_aggregate_status (attempted succeeded : nat) : UploadResult :=
  if (succeeded =? attempted) && (0 <? attempted) then Success
  else if succeeded =? 0 then Failure
  else PartialFailure.

(** A job directory is eligible when it has at least one segment file
    and exactly one manifest file. *)
Definition spec_eligible (ts_count m3u8_count : nat) : bool :=
  (1 <=? ts_count) && (m3u8_count =? 1).

End Spec.

(** ** The default cache path *)

Module CachePath.
Import PyStr.

(** What [set_default_cache_path] sees of the operating system:
    [home] is [os.path.expanduser("~")], [exists_] is [os.path.exists],
    [makedirs p] tells whether [os.makedirs(p, exist_ok=True)] returns
    ([false]: it raises), [getcwd] is [None] when [os.getcwd()]
    raises. *)
Record Os : Type := mkOs {
  home : string;
  exists_ : string -> bool;
  makedirs : string -> bool;
  getcwd : option string
}.

(** [PathSet p]: [self.cache_path.set(p)] ran and the method returned;
    [Raised]: an exception left the method. *)
Inductive result : Type :=
| PathSet (p : string)
| Raised.

Definition user_cache_dir (os : Os) : string :=
  path_join (path_join (path_join (path_join (home os) "AppData") "Local")
               "VideoSliceUploader") "Cache".

(** [if not os.path.exists(d): os.makedirs(d, exist_ok=True)]; [true]
    when no exception is raised. *)
Definition ensure_dir (os : Os) (d : string) : bool :=
  if negb (exists_ os d) then makedirs os d else true.

Definition set_default_cache_path (os : Os) : result :=
  let cache_dir := user_cache_dir os in
  if ensure_dir os cache_dir then PathSet cache_dir
  else
    (* except: *)
    match getcwd os with
    | None => Raised
    | Some cwd =>
        let cache_dir := path_join cwd "cache" in
        if ensure_dir os cache_dir then PathSet cache_dir else Raised
    end.

End CachePath.

(** ** The FTP keep-alive thread *)

Module KeepAlive.

(** [connect_ftp] starts a daemon thread that runs
    [while True: time.sleep(30); keep_alive()], where [keep_alive]
    calls [ftp.voidcmd('NOOP')] and swallows every exception.  The
    thread and the main thread are interleaved by a schedule. *)
Inductive Action : Type :=
| Wake      (* the thread returns from [time.sleep(30)] and calls [keep_alive()] *)
| Quit.     (* the main thread ends the session, [ftp.quit()] *)

Inductive Activity : Type :=
| NoopSent          (* [voidcmd('NOOP')] went out on the open session *)
| NoopSwallowed.    (* [voidcmd('NOOP')] raised, [except: pass] *)

Record State : Type := mkState {
  session_open : bool;
  slept : nat;                          (* seconds the thread has slept *)
  activity : list (nat * Activity)      (* what the thread did, and when *)
}.

(** The state when the thread is started: the session is open. *)
Definition started : State := mkState true 0 [].

Definition keep_alive (s : State) : State :=
  let t := slept s in
  if session_open s
  then mkState (session_open s) t (activity s ++ [(t, NoopSent)])
  else mkState (session_open s) t (activity s ++ [(t, NoopSwallowed)]).

(** One turn of [while True]: sleep 30 seconds, then [keep_alive()]. *)
Definition ftp_keep_alive_turn (s : State) : State :=
  keep_alive (mkState (session_open s) (slept s + 30) (activity s)).

Definition step (s : State) (a : Action) : State :=
  match a with
  | Wake => ftp_keep_alive_turn s
  | Quit => mkState false (slept s) (activity s)
  end.

Definition run (schedule : list Action) (s : State) : State :=
  fold_left step schedule s.

Definition wakes (schedule : list Action) : nat :=
  length (List.filter (fun a => match a with Wake => true | Quit => false end)
            schedule).

End KeepAlive.

(** ** Loading the saved configuration *)

Module Config.
Import Settings.

(** A value as [json.load] returns it; a number is kept as its
    literal. *)
#[local] Unset Elimination Schemes.
Inductive Json : Type :=
| JNull
| JBool (b : bool)
| JNumber (literal : string)
| JString (s : string)
| JArray (items : list Json)
| JObject (members : list (string * Json)).
#[local] Set Elimination Schemes.

(** The dictionary [json.load] returns for a JSON object. *)
Definition Document : Type := gmap string Json.

(** What [load_config] finds at [self.config_file]. *)
Inductive ConfigFile : Type :=
| Missing                    (* [os.path.exists] is false, or [open] raises [FileNotFoundError] *)
| Unreadable                 (* [open] or the decoding raises another exception *)
| Malformed                  (* [json.load] raises [JSONDecodeError] *)
| NotAnObject                (* valid JSON that is not an object: [config_data.get] raises *)
| Parsed (d : Document).

(** The message box that ends [load_config]. *)
Inductive Report : Type :=
| ShowInfoLoaded
| ShowWarningMissing
| ShowErrorFormat
| ShowErrorOther.

Section Loading.
(** What Tk makes of a value that is not a text when a [StringVar] is
    set to it: the text [get()] returns afterwards. *)
Variable tk_string : Json -> string.
(** [getboolean(value)] of Tk, which [BooleanVar.set] calls, for a value
    that is not a boolean; [None] when it raises. *)
Variable tk_boolean : Json -> option bool.

(** [var.set(value)] for a [StringVar]: the text the variable holds
    afterwards. *)
Definition set_string (value : Json) : string :=
  match value with
  | JString s => s
  | _ => tk_string value
  end.

(** [var.set(value)] for a [BooleanVar]: the boolean the variable holds
    afterwards, [None] when [set] raises. *)
Definition set_boolean (value : Json) : option bool :=
  match value with
  | JBool b => Some b
  | _ => tk_boolean value
  end.

(** [if key in config_data: var.set(config_data[key])] for a
    [StringVar]. *)
Definition apply_key (o : option Json) (old : string) : string :=
  match o with Some v => set_string v | None => old end.

(** [storage_type == "qiniu"] *)
Definition is_qiniu (storage_type : Json) : bool :=
  match storage_type with
  | JString s => String.eqb s "qiniu"
  | _ => false
  end.

(** [value[:10]] returns for a text and for a list, and raises for
    every other value. *)
Definition sliceable (value : Json) : bool :=
  match value with
  | JString _ | JArray _ => true
  | _ => false
  end.

(** [load_config]: the settings afterwards and the message box shown.
    The settings are overwritten one by one, so an exception leaves
    those already overwritten as they are: [self.use_ssl.set] raises
    for a value Tk cannot read as a boolean, and the text of the
    success box slices [config_data.get('qiniu_access_key', '')]. *)
Definition load_config (file : ConfigFile) (app : App) : App * Report :=
  match file with
  | Missing => (app, ShowWarningMissing)
  | Unreadable => (app, ShowErrorOther)
  | Malformed => (app, ShowErrorFormat)
  | NotAnObject => (app, ShowErrorOther)
  | Parsed d =>
      let get := fun key : string => d !! key in
      let storage_type := default (JString "ftp") (get "storage_type") in
      let qiniu := is_qiniu storage_type in
      let ftp_key (o : option Json) (old : string) : string :=
        if negb qiniu then apply_key o old else old in
      let qiniu_key (o : option Json) (old : string) : string :=
        if qiniu then apply_key o old else old in
      let applied (ssl : bool) : App :=
        {| segment_duration := apply_key (get "segment_duration") (segment_duration app);
           quality_crf := apply_key (get "quality_crf") (quality_crf app);
           server_ip := ftp_key (get "server_ip") (server_ip app);
           server_port := ftp_key (get "server_port") (server_port app);
           username := ftp_key (get "username") (username app);
           password := ftp_key (get "password") (password app);
           upload_path := ftp_key (get "upload_path") (upload_path app);
           use_ssl := ssl;
           qiniu_access_key := qiniu_key (get "qiniu_access_key") (qiniu_access_key app);
           qiniu_secret_key := qiniu_key (get "qiniu_secret_key") (qiniu_secret_key app);
           qiniu_bucket_name := qiniu_key (get "qiniu_bucket_name") (qiniu_bucket_name app);
           qiniu_domain := qiniu_key (get "qiniu_domain") (qiniu_domain app);
           use_qiniu := qiniu;
           cache_path := apply_key (get "cache_path") (cache_path app) |} in
      if qiniu then
        (applied (use_ssl app),
         if sliceable (default (JString "") (get "qiniu_access_key"))
         then ShowInfoLoaded else ShowErrorOther)
      else
        match get "use_ssl" with
        | None => (applied (use_ssl app), ShowInfoLoaded)
        | Some v =>
            match set_boolean v with
            | Some b => (applied b, ShowInfoLoaded)
            | None => (applied (use_ssl app), ShowErrorOther)
            end
        end
  end.

End Loading.

(** The settings as [load_config] addresses them: a field, the key of
    the document that feeds it, and its value. *)
Inductive Field : Type :=
| FSegmentDuration | FQualityCrf | FServerIp | FServerPort | FUsername
| FPassword | FUploadPath | FUseSsl | FQiniuAccessKey | FQiniuSecretKey
| FQiniuBucketName | FQiniuDomain | FUseQiniu | FCachePath.

Inductive Value : Type :=
| VString (s : string)
| VBool (b : bool).

Definition key_of (f : Field) : string :=
  match f with
  | FSegmentDuration => "segment_duration"
  | FQualityCrf => "quality_crf"
  | FServerIp => "server_ip"
  | FServerPort => "server_port"
  | FUsername => "username"
  | FPassword => "password"
  | FUploadPath => "upload_path"
  | FUseSsl => "use_ssl"
  | FQiniuAccessKey => "qiniu_access_key"
  | FQiniuSecretKey => "qiniu_secret_key"
  | FQiniuBucketName => "qiniu_bucket_name"
  | FQiniuDomain => "qiniu_domain"
  | FUseQiniu => "storage_type"
  | FCachePath => "cache_path"
  end.

Definition value_of (f : Field) (app : App) : Value :=
  match f with
  | FSegmentDuration => VString (segment_duration app)
  | FQualityCrf => VString (quality_crf app)
  | FServerIp => VString (server_ip app)
  | FServerPort => VString (server_port app)
  | FUsername => VString (username app)
  | FPassword => VString (password app)
  | FUploadPath => VString (upload_path app)
  | FUseSsl => VBool (use_ssl app)
  | FQiniuAccessKey => VString (qiniu_access_key app)
  | FQiniuSecretKey => VString (qiniu_secret_key app)
  | FQiniuBucketName => VString (qiniu_bucket_name app)
  | FQiniuDomain => VString (qiniu_domain app)
  | FUseQiniu => VBool (use_qiniu app)
  | FCachePath => VString (cache_path app)
  end.

(** The block of [load_config] that overwrites a field: the basic
    settings are overwritten for both storage types, the others only
    when their storage type is the selected one. *)
Definition overwritten_for (f : Field) (qiniu : bool) : bool :=
  match f with
  | FSegmentDuration | FQualityCrf | FCachePath | FUseQiniu => true
  | FServerIp | FServerPort | FUsername | FPassword | FUploadPath | FUseSsl =>
      negb qiniu
  | FQiniuAccessKey | FQiniuSecretKey | FQiniuBucketName | FQiniuDomain =>
      qiniu
  end.

(** [key in config_data] *)
Definition has_key (d : Document) (key : string) : bool :=
  bool_decide (is_Some (d !! key)).

(** The value a variable takes from the document for a field. *)
Definition document_value (tk_string : Json -> string)
    (tk_boolean : Json -> option bool) (d : Document) (f : Field)
  : option Value :=
  match f with
  | FUseSsl =>
      match d !! "use_ssl" with
      | Some v => VBool <$> set_boolean tk_boolean v
      | None => None
      end
  | FUseQiniu => (fun v => VBool (is_qiniu v)) <$> (d !! "storage_type")
  | _ => (fun v => VString (set_string tk_string v)) <$> (d !! key_of f)
  end.

End Config.

(** ** Concrete runs *)

Module Scenario.
Import PyStr LocalFs Settings Upload.

(** A remote side that counts the calls made to it, and whose clock
    shows that count.  Every local file has 4096 bytes.  [put] and
    [stor] give the answer of the qiniu SDK for a key and of [STOR] for
    a remote file; the session is in ["/"] and every other FTP command
    succeeds when [login_ok]. *)
Definition scripted (available login_ok : bool)
    (put : string -> exn + option string) (stor : string -> exn + unit)
  : Remote :=
  {| World := nat;
     QINIU_AVAILABLE := available;
     getsize := fun _ _ => inr 4096;
     time_time := fun w => w;
     put_file_v2 := fun key _ w => (put key, S w);
     ftp_login := fun _ _ _ _ _ w =>
       (if login_ok then inr tt else inl (Exn false "timed out"), S w);
     ftp_prot_p := fun w => (inr tt, S w);
     ftp_cwd := fun _ w => (inr tt, S w);
     ftp_mkd := fun _ w => (inr tt, S w);
     ftp_pwd := fun w => (inr "/", S w);
     ftp_stor := fun remote_file _ w => (stor remote_file, S w);
     ftp_quit := fun w => (inr tt, S w);
     path_exists := fun _ _ => true |}.

Definition job : string := "movie_20240101_120000".

(** The job directory of the examples: two segments and the playlist. *)
Definition movie_dir : listing :=
  [("segment_000.ts", RegularFile true);
   ("segment_001.ts", RegularFile true);
   ("playlist.m3u8", RegularFile true)].

Definition movie_root : cache_root := [(job, Directory true (Some movie_dir))].

(** A job directory without any [.ts] or [.m3u8] name. *)
Definition notes_root : cache_root :=
  [(job, Directory true (Some [("notes.txt", RegularFile true)]))].

(** A directory with one segment and two playlists. *)
Definition two_playlists : listing :=
  [("segment_000.ts", RegularFile true);
   ("playlist.m3u8", RegularFile true);
   ("backup.m3u8", RegularFile true)].

Definition qiniu_app : App :=
  {| segment_duration := "3"; quality_crf := "23";
     server_ip := ""; server_port := "21"; username := ""; password := "";
     upload_path := ""; use_ssl := false;
     qiniu_access_key := "ak"; qiniu_secret_key := "sk";
     qiniu_bucket_name := "videos"; qiniu_domain := "";
     use_qiniu := true; cache_path := "cache" |}.

Definition ftp_app : App :=
  {| segment_duration := "3"; quality_crf := "23";
     server_ip := "192.0.2.1"; server_port := "21";
     username := "u"; password := "p";
     upload_path := "/www/videos"; use_ssl := false;
     qiniu_access_key := ""; qiniu_secret_key := "";
     qiniu_bucket_name := ""; qiniu_domain := "";
     use_qiniu := false; cache_path := "cache" |}.

(** qiniu stores everything but [segment_001.ts], which it rejects on
    every attempt. *)
Definition rejects_segment_001 : Remote :=
  scripted true true
    (fun key => if String.eqb key (job +:+ "/segment_001.ts")
                then inr None else inr (Some key))
    (fun _ => inr tt).

(** Every transfer runs into the connection timeout. *)
Definition always_timeout : Remote :=
  scripted true true
    (fun _ => inl (Exn false "timed out"))
    (fun _ => inl (Exn false "[WinError 10060] connection attempt failed")).

(** The server refuses every [STOR] with a 553 answer. *)
Definition always_553 : Remote :=
  scripted true true
    (fun _ => inr None)
    (fun _ => inl (Exn true "553 Could not create file.")).

(** No server answers, and the qiniu SDK is not installed. *)
Definition unreachable : Remote :=
  scripted false false (fun _ => inr None) (fun _ => inr tt).

Definition start (R : Remote) (w : World R) : St R := mkSt w [].

(** A machine on which no directory exists and none can be created. *)
Definition read_only_os : CachePath.Os :=
  {| CachePath.home := "/home/me";
     CachePath.exists_ := fun _ => false;
     CachePath.makedirs := fun _ => false;
     CachePath.getcwd := Some "/opt/app" |}.

(** A saved configuration without a single key, [{}]. *)
Definition empty_document : Config.Document := ∅.

(** A saved configuration that only names the bucket. *)
Definition bucket_document : Config.Document :=
  <["storage_type" := Config.JString "qiniu"]>
  (<["qiniu_bucket_name" := Config.JString "clips"]> ∅).

(** A document written by hand, with a [use_ssl] that is no boolean:
    [{"storage_type": "ftp", "server_ip": "198.51.100.7",
      "use_ssl": "maybe"}]. *)
Definition handwritten_document : Config.Document :=
  <["storage_type" := Config.JString "ftp"]>
  (<["server_ip" := Config.JString "198.51.100.7"]>
  (<["use_ssl" := Config.JString "maybe"]> ∅)).

(** A Tk that shows a number by its literal and a boolean as [1] or
    [0], and that reads the texts [1], [true], [yes], [on] and [0],
    [false], [no], [off] as booleans. *)
Definition sample_tk_string (v : Config.Json) : string :=
  match v with
  | Config.JNumber literal => literal
  | Config.JBool true => "1"
  | Config.JBool false => "0"
  | Config.JString s => s
  | _ => ""
  end.

Definition sample_tk_boolean (v : Config.Json) : option bool :=
  match v with
  | Config.JBool b => Some b
  | Config.JString s =>
      if PyStr.mem s ["1"; "true"; "yes"; "on"] then Some true
      else if PyStr.mem s ["0"; "false"; "no"; "off"] then Some false
      else None
  | _ => None
  end.

End Scenario.

(** ** Re-uploading from the cache *)

Module Reupload.
Import PyStr LocalFs Settings Upload.

(** [all([server_ip, username, password, upload_path])] *)
Definition ftp_configured (app : App) : bool :=
  nonempty (server_ip app) && nonempty (username app)
  && nonempty (password app) && nonempty (upload_path app).

(** How a button handler ends: the worker thread is started, or a
    message box is shown and the handler returns, or an exception
    leaves the handler. *)
Inductive Launch : Type :=
| Launched
| WarnProcessing
| ErrNoVideo
| ErrNoCache
| ErrIncompleteSettings
| DialogCancelled
| ErrInvalidDirectory
| HandlerRaised.

(** [start_process]; [video_ok] is
    [video_path and os.path.exists(video_path)]. *)
Definition start_process (app : App) (is_processing video_ok : bool) : Launch :=
  if is_processing then WarnProcessing
  else if negb video_ok then ErrNoVideo
  else if use_qiniu app then
    if negb (qiniu_configured app) then ErrIncompleteSettings else Launched
  else
    if negb (ftp_configured app) then ErrIncompleteSettings else Launched.

(** [reupload_from_cache] *)
Definition reupload_from_cache (app : App) (is_processing has_cache_files : bool)
  : Launch :=
  if is_processing then WarnProcessing
  else if negb has_cache_files then ErrNoCache
  else if negb (ftp_configured app) then ErrIncompleteSettings
  else Launched.

(** [load_specified_cache]; [directory] is what the dialog returns (empty
    when it is cancelled) and [d] what that path names. *)
Definition load_specified_cache (app : App) (is_processing : bool)
    (directory : string) (d : option root_item) : Launch :=
  if is_processing then WarnProcessing
  else if negb (ftp_configured app) then ErrIncompleteSettings
  else if negb (nonempty directory) then DialogCancelled
  else match validate_cache_directory d with
       | None => HandlerRaised
       | Some false => ErrInvalidDirectory
       | Some true => Launched
       end.

(** The first loop of [process_reupload]: the directories with a [.ts]
    and a [.m3u8] name, with their listings.  [None] when a directory
    cannot be listed: this loop has no [try] of its own. *)
Fixpoint cache_dirs (root : cache_root) : option (list (string * listing)) :=
  match root with
  | [] => Some []
  | (item, PlainFile) :: rest => cache_dirs rest
  | (item, Directory _ None) :: rest => None
  | (item, Directory _ (Some l)) :: rest =>
      match cache_dirs rest with
      | None => None
      | Some dirs =>
          if truthy (ts_files (names l)) && truthy (m3u8_files (names l))
          then Some ((item, l) :: dirs)
          else Some dirs
      end
  end.

(** [os.path.exists(os.path.join(cache_dir, "playlist.m3u8"))] *)
Definition has_playlist (l : listing) : bool := mem "playlist.m3u8" (names l).

Section Reuploading.
Variable R : Remote.

Notation "'let*' x ':=' m 'in' k" := (bind R m (fun x => k))
  (at level 10, x name, m at level 100, k at level 200).
Notation "m1 ';;;' m2" := (bind R m1 (fun _ => m2))
  (at level 100, m2 at level 200, right associativity).

Definition upload_directory_to_server (app : App) (directory : string)
    (files : option (list string)) : M R bool :=
  catch R
    (if use_qiniu app then upload_to_qiniu R app directory files
     else upload_to_ftp R app directory files)
    (fun _ => ret R false).

(** [for i, cache_dir in enumerate(cache_dirs)] of [process_reupload]. *)
Fixpoint reupload_loop (app : App) (dirs : list (string * listing)) : M R unit :=
  match dirs with
  | [] => pass R
  | (item, l) :: rest =>
      let cache_dir := path_join (cache_path app) item in
      (if has_playlist l then
         let* uploaded :=
           upload_directory_to_server app cache_dir (Some (names l)) in
         pass R
       else pass R);;;
      reupload_loop app rest
  end.

(** [process_reupload], on a cache directory that can be listed. *)
Definition process_reupload (app : App) (root : cache_root) : M R unit :=
  catch R
    (match cache_dirs root with
     | None => raise R (Exn false "listdir")
     | Some [] => pass R
     | Some dirs => reupload_loop app dirs
     end)
    (fun _ => pass R).

(** [_upload_specified_directory(directory)]; [d] is what the path
    names. *)
Definition _upload_specified_directory (app : App) (directory : string)
    (d : option root_item) : M R unit :=
  catch R
    (let files := match d with
                  | Some (Directory _ (Some l)) => Some (names l)
                  | _ => None
                  end in
     let* uploaded := upload_directory_to_server app directory files in
     pass R)
    (fun _ => pass R).

End Reuploading.

End Reupload.

(** ** Saving the configuration *)

Module ConfigSave.
Import PyStr Settings Config.

Section Saving.
(** [str.strip()], whatever characters it takes for white space. *)
Variable strip : string -> string.

(** The keys every saved document has. *)
Definition basic_keys (now : string) (storage_type : string) (app : App)
  : Document :=
  <["storage_type" := JString storage_type]>
  (<["segment_duration" := JString (strip (segment_duration app))]>
  (<["quality_crf" := JString (strip (quality_crf app))]>
  (<["cache_path" := JString (strip (cache_path app))]>
  (<["saved_time" := JString now]> ∅)))).

(** [save_config]: the document handed to [json.dump], [None] when the
    validation shows its error box and nothing is written.  [now] is
    [time.strftime('%Y-%m-%d %H:%M:%S')]. *)
Definition save_config (now : string) (app : App) : option Document :=
  if use_qiniu app then
    if negb (nonempty (strip (qiniu_access_key app))
             && nonempty (strip (qiniu_secret_key app))
             && nonempty (strip (qiniu_bucket_name app)))
    then None
    else Some
      (<["qiniu_access_key" := JString (strip (qiniu_access_key app))]>
      (<["qiniu_secret_key" := JString (strip (qiniu_secret_key app))]>
      (<["qiniu_bucket_name" := JString (strip (qiniu_bucket_name app))]>
      (<["qiniu_domain" := JString (strip (qiniu_domain app))]>
      (basic_keys now "qiniu" app)))))
  else
    if negb (nonempty (strip (server_ip app))
             && nonempty (strip (username app))
             && nonempty (strip (password app))
             && nonempty (strip (upload_path app)))
    then None
    else Some
      (<["server_ip" := JString (strip (server_ip app))]>
      (<["server_port" := JString (strip (server_port app))]>
      (<["username" := JString (strip (username app))]>
      (<["password" := JString (strip (password app))]>
      (<["upload_path" := JString (strip (upload_path app))]>
      (<["use_ssl" := JBool (use_ssl app)]>
      (basic_keys now "ftp" app))))))).

(** Every text setting is as [strip] leaves it. *)
Definition trimmed (app : App) : Prop :=
  strip (segment_duration app) = segment_duration app
  /\ strip (quality_crf app) = quality_crf app
  /\ strip (cache_path app) = cache_path app
  /\ strip (server_ip app) = server_ip app
  /\ strip (server_port app) = server_port app
  /\ strip (username app) = username app
  /\ strip (password app) = password app
  /\ strip (upload_path app) = upload_path app
  /\ strip (qiniu_access_key app) = qiniu_access_key app
  /\ strip (qiniu_secret_key app) = qiniu_secret_key app
  /\ strip (qiniu_bucket_name app) = qiniu_bucket_name app
  /\ strip (qiniu_domain app) = qiniu_domain app.

End Saving.

End ConfigSave.

(** ** Uploading other files *)

Module OtherFiles.
Import PyStr Settings Upload.

(** An entry of the chosen folder: a regular file with its size, or
    something else. *)
Inductive FolderEntry : Type :=
| FFile (size : nat)
| FOther.

Definition folder : Type := list (string * FolderEntry).

(** An element of [self.selected_files]: the dictionary
    [load_files_from_folder] builds (without its [size_mb]), or the
    tuple [refresh_files_list] builds. *)
Inductive FileInfo : Type :=
| InfoDict (name path : string) (size : nat)
| InfoTuple (file : string) (size : nat) (filepath : string).

(** [load_files_from_folder(folder_path)]: the new [selected_files]. *)
Fixpoint load_files_from_folder (folder_path : string) (entries : folder)
  : list FileInfo :=
  match entries with
  | [] => []
  | (item, FFile size) :: rest =>
      InfoDict item (path_join folder_path item) size
      :: load_files_from_folder folder_path rest
  | (item, FOther) :: rest => load_files_from_folder folder_path rest
  end.

Definition tuple_name (f : FileInfo) : string :=
  match f with InfoDict n _ _ => n | InfoTuple n _ _ => n end.

Definition is_dict (f : FileInfo) : bool :=
  match f with InfoDict _ _ _ => true | InfoTuple _ _ _ => false end.

(** [files.sort(key=lambda x: x[0])], a stable sort by name. *)
Fixpoint insert_by_name (f : FileInfo) (sorted : list FileInfo) : list FileInfo :=
  match sorted with
  | [] => [f]
  | g :: rest =>
      if String.leb (tuple_name f) (tuple_name g) then f :: g :: rest
      else g :: insert_by_name f rest
  end.

Definition sort_by_name (files : list FileInfo) : list FileInfo :=
  fold_right insert_by_name [] files.

(** The [for file in os.listdir(folder)] loop of [refresh_files_list]. *)
Fixpoint folder_tuples (folder_path : string) (entries : folder) : list FileInfo :=
  match entries with
  | [] => []
  | (file, FFile size) :: rest =>
      InfoTuple file size (path_join folder_path file)
      :: folder_tuples folder_path rest
  | (file, FOther) :: rest => folder_tuples folder_path rest
  end.

(** [refresh_files_list]: the new [selected_files]; [d] is the listing of
    [other_files_path] when that path is a directory. *)
Definition refresh_files_list (other_files_path : string) (d : option folder)
  : list FileInfo :=
  if nonempty other_files_path then
    match d with
    | Some entries => sort_by_name (folder_tuples other_files_path entries)
    | None => []
    end
  else [].

(** A value held by a dictionary of [self.uploaded_urls]. *)
Inductive PyValue : Type :=
| PyStr (s : string)
| PyInt (n : nat).

(** An element of [self.uploaded_urls] as the upload builds it: a
    dictionary with the keys [filename], [url] and [key]. *)
Definition url_info (filename url key : string) : gmap string PyValue :=
  <["filename" := PyStr filename]>
  (<["url" := PyStr url]> (<["key" := PyStr key]> ∅)).

(** The address of an uploaded file, and the value of [cdn_domain]
    afterwards. *)
Definition file_url (cdn_domain bucket_name key : string) : string * string :=
  if nonempty cdn_domain then
    let cdn_domain :=
      if negb (startswith cdn_domain "http") then "https://" +:+ cdn_domain
      else cdn_domain in
    (cdn_domain +:+ "/" +:+ key, cdn_domain)
  else
    ("https://" +:+ bucket_name +:+ ".s3-cn-north-1.qiniucs.com/" +:+ key,
     cdn_domain).

(** How [upload_other_files] ends. *)
Inductive Ending : Type :=
| WarnNothingSelected
| WarnSwitchedToQiniu
| ErrNotConfigured
| SdkMissing
| LoopAborted       (* an exception left the loop: the list is not shown *)
| Finished.         (* [_show_uploaded_urls] was reached *)

Record Result : Type := mkResult {
  ending : Ending;
  settings : App;
  uploaded_urls : list (gmap string PyValue)
}.

Section Uploading.
Variable R : Remote.
Variable strip : string -> string.

Notation "'let*' x ':=' m 'in' k" := (bind R m (fun x => k))
  (at level 10, x name, m at level 100, k at level 200).
Notation "m1 ';;;' m2" := (bind R m1 (fun _ => m2))
  (at level 100, m2 at level 200, right associativity).

(** [for i, file_info in enumerate(self.selected_files)] of
    [_upload_other_files_thread].  [filename] is the local variable of
    that name, unbound at first; the result is [uploaded_urls] and
    whether the loop ran to its end.  A tuple makes
    [file_info['name']] raise, and the handler then formats [filename]:
    when that is still unbound the handler itself raises and the loop
    is left. *)
Fixpoint other_files_loop (bucket_name : string) (selected : list FileInfo)
    (filename : option string) (cdn_domain : string)
    (urls : list (gmap string PyValue))
  : M R (list (gmap string PyValue) * bool) :=
  match selected with
  | [] => ret R (urls, true)
  | InfoTuple _ _ _ :: rest =>
      match filename with
      | None => ret R (urls, false)
      | Some _ => other_files_loop bucket_name rest filename cdn_domain urls
      end
  | InfoDict name local_file file_size :: rest =>
      let key := "uploads/" +:+ name in
      let* r := attempt_ R (call R (put_file_v2 R key local_file)) in
      let stored := match r with
                    | inr (Some k) => String.eqb k key
                    | _ => false
                    end in
      emit R (EvPut key 1 stored);;;
      if stored then
        let '(url, cdn_domain) := file_url cdn_domain bucket_name key in
        other_files_loop bucket_name rest (Some name) cdn_domain
          (urls ++ [url_info name url key])
      else other_files_loop bucket_name rest (Some name) cdn_domain urls
  end.

(** [upload_other_files] followed by the thread it starts,
    [_upload_other_files_thread]. *)
Definition upload_other_files (app : App) (selected : list FileInfo)
    (old_urls : list (gmap string PyValue)) : M R Result :=
  match selected with
  | [] => ret R (mkResult WarnNothingSelected app old_urls)
  | _ =>
      if negb (use_qiniu app) then
        ret R (mkResult WarnSwitchedToQiniu
                 {| segment_duration := segment_duration app;
                    quality_crf := quality_crf app;
                    server_ip := server_ip app;
                    server_port := server_port app;
                    username := username app;
                    password := password app;
                    upload_path := upload_path app;
                    use_ssl := use_ssl app;
                    qiniu_access_key := qiniu_access_key app;
                    qiniu_secret_key := qiniu_secret_key app;
                    qiniu_bucket_name := qiniu_bucket_name app;
                    qiniu_domain := qiniu_domain app;
                    use_qiniu := true;
                    cache_path := cache_path app |}
                 old_urls)
      else if negb (qiniu_configured app) then
        ret R (mkResult ErrNotConfigured app old_urls)
      else if negb (QINIU_AVAILABLE R) then
        ret R (mkResult SdkMissing app [])
      else
        let* r := other_files_loop (qiniu_bucket_name app) selected None
                    (strip (qiniu_domain app)) [] in
        ret R (mkResult (if snd r then Finished else LoopAborted) app (fst r))
  end.

End Uploading.

(** [view_uploaded_urls]: the rows of the table (file name, size in
    bytes, address), or the exception that building a row raises:
    [KeyError] for a missing key, [TypeError] when [item['size']] is a
    text and cannot be divided. *)
Inductive View : Type :=
| InfoNoLinks
| Rows (rows : list (PyValue * nat * PyValue))
| RowRaised (error : string).

Fixpoint url_rows (urls : list (gmap string PyValue))
  : string + list (PyValue * nat * PyValue) :=
  match urls with
  | [] => inr []
  | item :: rest =>
      match item !! "size" with
      | None => inl "KeyError"
      | Some (PyStr _) => inl "TypeError"
      | Some (PyInt size) =>
          match item !! "filename", item !! "url" with
          | Some filename, Some url =>
              match url_rows rest with
              | inl error => inl error
              | inr rows => inr ((filename, size, url) :: rows)
              end
          | _, _ => inl "KeyError"
          end
      end
  end.

Definition view_uploaded_urls (urls : list (gmap string PyValue)) : View :=
  match urls with
  | [] => InfoNoLinks
  | _ => match url_rows urls with
         | inl error => RowRaised error
         | inr rows => Rows rows
         end
  end.

End OtherFiles.

(** ** The job directory of a video *)

Module OutputDir.
Import PyStr.

(** The text before the last dot and the text from it on; [None] when
    there is no dot. *)
Fixpoint last_dot_split (s : string) : option (string * string) :=
  match s with
  | EmptyString => None
  | String c s' =>
      match last_dot_split s' with
      | Some (root, ext) => Some (String c root, ext)
      | None => if Ascii.eqb c "."%char then Some (EmptyString, s) else None
      end
  end.

Fixpoint all_dots (s : string) : bool :=
  match s with
  | EmptyString => true
  | String c s' => Ascii.eqb c "."%char && all_dots s'
  end.

(** [os.path.splitext(name)[0]] for a name without a separator: the
    extension starts at the last dot, unless only dots come before
    it. *)
Definition splitext_root (name : string) : string :=
  match last_dot_split name with
  | Some (root, ext) => if all_dots root then name else root
  | None => name
  end.

(** [create_output_directory(video_file)]: the path it returns;
    [timestamp] is [time.strftime("%Y%m%d_%H%M%S")]. *)
Definition create_output_directory (cache_path video_file timestamp : string)
  : string :=
  let video_name := splitext_root (basename video_file) in
  path_join cache_path (video_name +:+ "_" +:+ timestamp).

End OutputDir.

(** ** More concrete runs *)

Module MoreRuns.
Import PyStr LocalFs Settings Upload.

(** A remote side on which the first [fail_before] calls of a transfer
    time out and the later ones succeed; the world counts the calls. *)
Definition flaky (fail_before : nat) : Remote :=
  {| World := nat;
     QINIU_AVAILABLE := true;
     getsize := fun _ _ => inr 4096;
     time_time := fun w => w;
     put_file_v2 := fun key _ w =>
       (if w <? fail_before then inl (Exn false "timed out")
        else inr (Some key), S w);
     ftp_login := fun _ _ _ _ _ w => (inr tt, S w);
     ftp_prot_p := fun w => (inr tt, S w);
     ftp_cwd := fun _ w => (inr tt, S w);
     ftp_mkd := fun _ w => (inl (Exn true "550 File exists"), S w);
     ftp_pwd := fun w => (inr "/", S w);
     ftp_stor := fun _ _ w =>
       (if w <? fail_before
        then inl (Exn false "[WinError 10060] connection attempt failed")
        else inr tt, S w);
     ftp_quit := fun w => (inr tt, S w);
     path_exists := fun _ _ => true |}.

(** A server that drops the connection on every [mkd]. *)
Definition drops_on_mkd : Remote :=
  {| World := nat;
     QINIU_AVAILABLE := true;
     getsize := fun _ _ => inr 4096;
     time_time := fun w => w;
     put_file_v2 := fun key _ w => (inr (Some key), S w);
     ftp_login := fun _ _ _ _ _ w => (inr tt, S w);
     ftp_prot_p := fun w => (inr tt, S w);
     ftp_cwd := fun _ w => (inr tt, S w);
     ftp_mkd := fun _ w => (inl (Exn false "timed out"), S w);
     ftp_pwd := fun w => (inr "/", S w);
     ftp_stor := fun _ _ w => (inr tt, S w);
     ftp_quit := fun w => (inr tt, S w);
     path_exists := fun _ _ => true |}.

(** A remote side that accepts every transfer, seen through a clock so
    coarse that its reading never changes. *)
Definition frozen_clock : Remote :=
  {| World := nat;
     QINIU_AVAILABLE := true;
     getsize := fun _ _ => inr 4096;
     time_time := fun _ => 0;
     put_file_v2 := fun key _ w => (inr (Some key), S w);
     ftp_login := fun _ _ _ _ _ w => (inr tt, S w);
     ftp_prot_p := fun w => (inr tt, S w);
     ftp_cwd := fun _ w => (inr tt, S w);
     ftp_mkd := fun _ w => (inr tt, S w);
     ftp_pwd := fun w => (inr "/", S w);
     ftp_stor := fun _ _ w => (inr tt, S w);
     ftp_quit := fun w => (inr tt, S w);
     path_exists := fun _ _ => true |}.

(** A cached video whose playlist is not named [playlist.m3u8]. *)
Definition index_root : cache_root :=
  [("clip", Directory true (Some [("segment_000.ts", RegularFile true);
                                  ("index.m3u8", RegularFile true)]))].

(** Settings with surrounding white space in the bucket name. *)
Definition padded_app : App :=
  {| segment_duration := "3"; quality_crf := "23";
     server_ip := ""; server_port := "21"; username := ""; password := "";
     upload_path := ""; use_ssl := false;
     qiniu_access_key := "ak"; qiniu_secret_key := "sk";
     qiniu_bucket_name := " videos"; qiniu_domain := "cdn.example.com";
     use_qiniu := true; cache_path := "cache" |}.

(** A [strip] that removes leading blanks. *)
Fixpoint lstrip_blank (s : string) : string :=
  match s with
  | String c s' => if Ascii.eqb c " "%char then lstrip_blank s' else s
  | EmptyString => EmptyString
  end.

Definition other_folder : OtherFiles.folder :=
  [("b.png", OtherFiles.FFile 20); ("sub", OtherFiles.FOther);
   ("a.png", OtherFiles.FFile 10)].

End MoreRuns.

(** * Properties *)

(** ** Strings *)

Module PyStrFacts.
Import PyStr.

Lemma endswith_refl s : endswith s s = true.
Proof. destruct s; cbn [endswith]; rewrite String.eqb_refl; reflexivity. Qed.

(** [endswith] is the suffix relation. *)
Lemma endswith_spec s suffix :
  endswith s suffix = true <-> exists pre, s = pre +:+ suffix.
Proof.
  split.
  - induction s as [|c s IH]; cbn [endswith].
    + destruct (String.eqb_spec "" suffix) as [<-|]; [|discriminate].
      intros _. exists "". reflexivity.
    + destruct (String.eqb_spec (String c s) suffix) as [<-|_].
      * intros _. exists "". reflexivity.
      * intros H. destruct (IH H) as [pre ->].
        exists (String c pre). reflexivity.
  - intros [pre ->]. induction pre as [|c pre IH].
    + apply endswith_refl.
    + change (String c pre +:+ suffix) with (String c (pre +:+ suffix)).
      cbn [endswith].
      destruct (String.eqb (String c (pre +:+ suffix)) suffix); auto.
Qed.

Lemma is_slash_true c : is_slash c = true -> c = "/"%char.
Proof. unfold is_slash. intros H. apply Ascii.eqb_eq. exact H. Qed.

(** A string without a leading or trailing separator is left alone by
    [strip('/')]. *)
Lemma rstrip_slash_id s :
  endswith s "/" = false -> rstrip_slash s = s.
Proof.
  induction s as [|c s IH]; cbn [endswith rstrip_slash]; [reflexivity|].
  destruct (String.eqb_spec (String c s) "/") as [E|NE]; [discriminate|].
  intros H. rewrite (IH H).
  destruct s as [|d s']; [|reflexivity].
  destruct (is_slash c) eqn:Ec; [|reflexivity].
  apply is_slash_true in Ec. subst c. contradiction NE. reflexivity.
Qed.

Lemma lstrip_slash_id s :
  startswith s "/" = false -> lstrip_slash s = s.
Proof.
  destruct s as [|c s]; simpl; [reflexivity|].
  unfold startswith, is_slash. simpl.
  destruct (Ascii.ascii_dec "/" c) as [<-|NE].
  - destruct s; discriminate.
  - intros _. destruct (Ascii.eqb_spec c "/"); [congruence|reflexivity].
Qed.

Lemma strip_slash_id s :
  startswith s "/" = false -> endswith s "/" = false -> strip_slash s = s.
Proof.
  intros H1 H2. unfold strip_slash.
  rewrite (lstrip_slash_id _ H1). apply rstrip_slash_id, H2.
Qed.

End PyStrFacts.

(** ** The cache scan and the cleanup *)

Module LocalFsFacts.
Import PyStr LocalFs.

Lemma truthy_length {A} (l : list A) : truthy l = true <-> 1 <= length l.
Proof. destruct l; simpl; split; intros H; try discriminate; try lia; auto. Qed.

Lemma scanned_cons item it rest :
  scanned ((item, it) :: rest) =
  match it with
  | Directory _ (Some l) =>
      if truthy (ts_files (names l)) && truthy (m3u8_files (names l))
      then item :: scanned rest else scanned rest
  | _ => scanned rest
  end.
Proof.
  unfold scanned. simpl. destruct it as [|r [l|]]; try reflexivity.
  destruct (truthy (ts_files (names l)) && truthy (m3u8_files (names l)));
    reflexivity.
Qed.

Lemma scanned_spec root item :
  In item (scanned root) <->
  exists r l, In (item, Directory r (Some l)) root
              /\ 1 <= length (ts_files (names l))
              /\ 1 <= length (m3u8_files (names l)).
Proof.
  induction root as [|[i it] rest IH].
  - simpl. split; [intros []|intros (r & l & [] & _)].
  - rewrite scanned_cons. split.
    + intros H.
      assert (Hrest : In item (scanned rest) ->
                      exists r l,
                        In (item, Directory r (Some l)) ((i, it) :: rest)
                        /\ 1 <= length (ts_files (names l))
                        /\ 1 <= length (m3u8_files (names l))).
      { intros Hin. apply IH in Hin as (r & l & Hl & Hts & Hm).
        exists r, l. split; [right; exact Hl|auto]. }
      destruct it as [|r [l|]]; auto.
      destruct (truthy (ts_files (names l))) eqn:Ets;
        destruct (truthy (m3u8_files (names l))) eqn:Em; simpl in H; auto.
      destruct H as [<-|H]; auto.
      exists r, l. split; [left; reflexivity|].
      split; apply truthy_length; assumption.
    + intros (r & l & [Heq|Hin] & Hts & Hm).
      * injection Heq as -> ->.
        apply truthy_length in Hts, Hm. rewrite Hts, Hm. left. reflexivity.
      * assert (Hrest : In item (scanned rest)).
        { apply IH. exists r, l. auto. }
        destruct it as [|r' [l'|]]; auto.
        destruct (truthy (ts_files (names l')) && truthy (m3u8_files (names l')));
          [right|]; exact Hrest.
Qed.

Lemma validate_spec r l :
  validate_cache_directory (Some (Directory r (Some l))) = Some true <->
  1 <= length (ts_files (names l)) /\ 1 <= length (m3u8_files (names l)).
Proof.
  simpl. split.
  - intros H. injection H as H. apply andb_true_iff in H as [H1 H2].
    apply Nat.ltb_lt in H1, H2. lia.
  - intros [H1 H2]. f_equal. apply andb_true_iff.
    split; apply Nat.ltb_lt; lia.
Qed.

Lemma scanned_in_root root item :
  In item (scanned root) -> In item (map fst root).
Proof.
  intros H. apply scanned_spec in H as (r & l & Hl & _).
  apply in_map_iff. exists (item, Directory r (Some l)). auto.
Qed.

Lemma remove_item_gone root item : ~ In item (map fst (remove_item root item)).
Proof.
  unfold remove_item. intros H. apply in_map_iff in H as ([i it] & Hi & Hin).
  apply filter_In in Hin as [_ Hne]. simpl in *. subst i.
  rewrite String.eqb_refl in Hne. discriminate.
Qed.

(** Removing one job directory leaves the scan of the others as it was. *)
Lemma scanned_remove_item root item :
  scanned (remove_item root item) =
  List.filter (fun d => negb (String.eqb d item)) (scanned root).
Proof.
  induction root as [|[i it] rest IH]; [reflexivity|].
  rewrite scanned_cons. unfold remove_item in *. cbn [List.filter fst].
  destruct (String.eqb i item) eqn:E; cbn [negb].
  - rewrite IH. destruct it as [|r [l|]]; try reflexivity.
    destruct (truthy (ts_files (names l)) && truthy (m3u8_files (names l)));
      [|reflexivity].
    cbn [List.filter]. rewrite E. reflexivity.
  - rewrite scanned_cons, IH. destruct it as [|r [l|]]; try reflexivity.
    destruct (truthy (ts_files (names l)) && truthy (m3u8_files (names l)));
      [|reflexivity].
    cbn [List.filter]. rewrite E. reflexivity.
Qed.

(** A cleanup that ends without the warning has removed the directory. *)
Lemma cleanup_without_warning root item :
  snd (cleanup_local_files root item) = false ->
  fst (cleanup_local_files root item) = remove_item root item.
Proof.
  unfold cleanup_local_files.
  destruct (lookup_item root item) as [[|r [l|]]|]; try discriminate.
  destruct (remove_files l) as [kept raised].
  destruct raised; [discriminate|].
  destruct kept; [|discriminate].
  destruct r; [reflexivity|discriminate].
Qed.

Lemma remove_files_all_regular l :
  Forall (fun e => snd e = RegularFile true) l -> remove_files l = ([], false).
Proof.
  induction 1 as [|[n k] rest Hk _ IH]; [reflexivity|].
  simpl in Hk. subst k. exact IH.
Qed.

(** The cleanup of a job directory that can be removed and holds only
    regular files that can be removed ends without the warning. *)
Lemma cleanup_all_regular root item l :
  lookup_item root item = Some (Directory true (Some l)) ->
  Forall (fun e => snd e = RegularFile true) l ->
  cleanup_local_files root item = (remove_item root item, false).
Proof.
  intros Hl Hall. unfold cleanup_local_files.
  rewrite Hl, (remove_files_all_regular _ Hall). reflexivity.
Qed.

Lemma not_scanned_after_cleanup root item :
  snd (cleanup_local_files root item) = false ->
  ~ In item (scanned (fst (cleanup_local_files root item))).
Proof.
  intros H Hin. rewrite (cleanup_without_warning _ _ H) in Hin.
  apply scanned_in_root in Hin. exact (remove_item_gone _ _ Hin).
Qed.

End LocalFsFacts.

(** ** The upload monad *)

Module UploadFacts.
Import PyStr LocalFs Settings Upload.

Create HintDb upload discriminated.

Section Facts.
Variable R : Remote.

Lemma attempted_app tr1 tr2 :
  attempted (tr1 ++ tr2) = attempted tr1 + attempted tr2.
Proof. unfold attempted. rewrite List.filter_app, length_app. reflexivity. Qed.

Lemma succeeded_app tr1 tr2 :
  succeeded (tr1 ++ tr2) = succeeded tr1 + succeeded tr2.
Proof. unfold succeeded. rewrite List.filter_app, length_app. reflexivity. Qed.

Lemma transfers_app tr1 tr2 :
  transfers (tr1 ++ tr2) = transfers tr1 ++ transfers tr2.
Proof. unfold transfers. apply List.filter_app. Qed.

Lemma St_eta (s : St R) : mkSt (world s) (events s) = s.
Proof. destruct s; reflexivity. Qed.

(** *** Computations that append nothing *)

Lemma silent_ret {A} (a : A) : silent R (ret R a).
Proof. intros s. reflexivity. Qed.

Lemma silent_raise {A} e : silent R (@raise R A e).
Proof. intros s. reflexivity. Qed.

Lemma silent_call {A} (op : World R -> outcome (World R) A) :
  silent R (call R op).
Proof. intros s. unfold call. destruct (op (world s)). reflexivity. Qed.

Lemma silent_ask {A} (q : World R -> A) : silent R (ask R q).
Proof. intros s. reflexivity. Qed.

Lemma silent_bind {A B} (m : M R A) (k : A -> M R B) :
  silent R m -> (forall a, silent R (k a)) -> silent R (bind R m k).
Proof.
  intros Hm Hk s. unfold bind. specialize (Hm s).
  destruct (m s) as [[e|a] s']; simpl in *; [exact Hm|].
  rewrite Hk. exact Hm.
Qed.

Lemma silent_catch {A} (m : M R A) (h : exn -> M R A) :
  silent R m -> (forall e, silent R (h e)) -> silent R (catch R m h).
Proof.
  intros Hm Hh s. unfold catch. specialize (Hm s).
  destruct (m s) as [[e|a] s']; simpl in *; [|exact Hm].
  rewrite Hh. exact Hm.
Qed.

Lemma silent_if {A} (b : bool) (m1 m2 : M R A) :
  silent R m1 -> silent R m2 -> silent R (if b then m1 else m2).
Proof. destruct b; auto. Qed.

Hint Resolve silent_ret silent_raise silent_call silent_ask : upload.
Hint Resolve silent_bind silent_catch silent_if : upload.

(** A silent computation whose handler does not raise is quiet. *)
Lemma quiet_catch {A} (m : M R A) (h : exn -> M R A) :
  silent R m -> (forall e, quiet R (h e)) -> quiet R (catch R m h).
Proof.
  intros Hm Hh s. unfold catch. specialize (Hm s).
  destruct (m s) as [[e|a] s']; simpl in *.
  - destruct (Hh e s') as (a & w & ->). rewrite Hm. eauto.
  - exists a, (world s'). rewrite <- Hm, St_eta. reflexivity.
Qed.

Lemma quiet_ret {A} (a : A) : quiet R (ret R a).
Proof. intros s. exists a, (world s). rewrite St_eta. reflexivity. Qed.

Lemma quiet_silent {A} (m : M R A) : quiet R m -> silent R m.
Proof. intros H s. destruct (H s) as (a & w & ->). reflexivity. Qed.

Lemma quiet_bind {A B} (m : M R A) (k : A -> M R B) :
  quiet R m -> (forall a, quiet R (k a)) -> quiet R (bind R m k).
Proof.
  intros Hm Hk s. unfold bind. destruct (Hm s) as (a & w & ->).
  destruct (Hk a (mkSt w (events s))) as (b & w' & ->). simpl. eauto.
Qed.

Hint Resolve quiet_ret quiet_catch quiet_silent quiet_bind : upload.

(** *** The FTP helpers append nothing *)

Lemma silent_create_parts parts i all : silent R (create_parts R parts i all).
Proof.
  revert i. induction parts as [|part rest IH]; intros i; cbn [create_parts].
  - apply silent_ret.
  - apply silent_bind; [|intros _; apply IH].
    destruct (nonempty part); [|apply silent_ret].
    apply silent_bind.
    + apply silent_catch; [apply silent_call|].
      intros e. destruct (error_perm e); auto with upload.
      apply silent_ret.
    + intros _. apply silent_catch; [apply silent_call|].
      intros e. destruct (error_perm e); auto with upload.
      apply silent_catch; [apply silent_call|intros; apply silent_ret].
Qed.

Lemma quiet_create_remote_directory remote_dir :
  quiet R (create_remote_directory R remote_dir).
Proof.
  unfold create_remote_directory.
  apply quiet_catch; [|intros; apply quiet_ret].
  apply silent_bind.
  - apply silent_catch; [apply silent_call|intros; apply silent_ret].
  - intros _. apply silent_bind; [apply silent_create_parts|].
    intros _. apply silent_catch.
    + repeat (apply silent_bind; [apply silent_call|intros]).
      apply silent_ret.
    + intros e. destruct (error_perm e); auto with upload.
Qed.

Lemma quiet_diagnose_553 remote_dir : quiet R (diagnose_553 R remote_dir).
Proof.
  unfold diagnose_553. apply quiet_catch; [|intros; apply quiet_ret].
  apply silent_bind; [apply silent_call|]. intros _.
  apply silent_if; [|apply silent_ret].
  apply silent_catch; [|intros; apply silent_ret].
  apply silent_bind; [apply silent_call|intros; apply silent_call].
Qed.

Lemma silent_rebuild_dirs dirs current_path :
  silent R (rebuild_dirs R dirs current_path).
Proof.
  revert current_path.
  induction dirs as [|d rest IH]; intros current_path; cbn [rebuild_dirs].
  - apply silent_ret.
  - apply silent_bind; [|intros _; apply IH].
    apply silent_catch; [apply silent_call|]. intros _.
    apply silent_bind; [apply silent_call|intros; apply silent_call].
Qed.

Lemma quiet_rebuild_553 remote_dir local_file :
  quiet R (rebuild_553 R remote_dir local_file).
Proof.
  unfold rebuild_553. intros s. unfold bind at 1, ask.
  destruct (path_exists R local_file (world s)); [|apply quiet_ret].
  revert s. apply quiet_catch; [|intros; apply quiet_ret].
  apply silent_bind; [apply silent_call|]. intros _.
  apply silent_bind; [apply silent_call|]. intros _.
  apply silent_bind; [apply silent_rebuild_dirs|]. intros _.
  apply silent_bind; [apply silent_call|]. intros final_dir.
  apply silent_if; [|apply silent_ret].
  apply silent_catch; [|intros; apply silent_call].
  apply silent_bind; [apply silent_call|]. intros _.
  apply silent_bind; [apply silent_call|intros; apply silent_ret].
Qed.

Lemma quiet_choose_remote_file remote_dir filename :
  quiet R (choose_remote_file R remote_dir filename).
Proof.
  unfold choose_remote_file. apply quiet_catch; [|intros; apply quiet_ret].
  apply silent_bind; [apply silent_call|]. intros cur.
  apply silent_if; apply silent_ret.
Qed.

(** The stored name is the bare file name or the full remote path. *)
Lemma choose_remote_file_cases remote_dir filename s :
  exists w,
    choose_remote_file R remote_dir filename s = (inr filename, mkSt w (events s))
    \/ choose_remote_file R remote_dir filename s
       = (inr (remote_dir +:+ "/" +:+ filename), mkSt w (events s)).
Proof.
  unfold choose_remote_file, catch, bind, call, ret.
  destruct (ftp_pwd R (world s)) as [[e|cur] w]; exists w; simpl; auto.
  destruct (String.eqb (rstrip_slash cur) (rstrip_slash remote_dir)); auto.
Qed.

(** *** The qiniu loops *)

(** One turn of the retry loop: the attempt ends the loop when it
    succeeded, and is followed by the wait and the next turn
    otherwise. *)
Lemma qiniu_retry_step key local_file attempt rest s :
  qiniu_retry_loop R key local_file (attempt :: rest) s =
  let '(r, w) := qiniu_attempt R key local_file (world s) in
  if put_failed r then
    qiniu_retry_loop R key local_file rest
      (mkSt w (events s ++ EvPut key attempt false ::
                 (if attempt <? max_retries then [EvSleep 2] else [])))
  else (inr true, mkSt w (events s ++ [EvPut key attempt true])).
Proof.
  cbn [qiniu_retry_loop]. unfold bind, attempt_, call, emit, sleep, pass, ret.
  destruct (qiniu_attempt R key local_file (world s)) as [[e|[|]] w]; simpl.
  - destruct (attempt <? max_retries); simpl;
      rewrite <- ?app_assoc; reflexivity.
  - reflexivity.
  - destruct (attempt <? max_retries); simpl;
      rewrite <- ?app_assoc; reflexivity.
Qed.

Lemma qiniu_retry_nil key local_file s :
  qiniu_retry_loop R key local_file [] s = (inr false, s).
Proof. reflexivity. Qed.

Ltac each_event :=
  repeat (apply List.Forall_cons; [solve [auto]|]); apply List.Forall_nil.

(** One file: the loop does not raise, makes one first attempt, and
    stores the file exactly when it returns [true]. *)
Lemma qiniu_retry_counts key local_file s :
  exists (b : bool) w tr,
    qiniu_retry_loop R key local_file (seq 1 max_retries) s
      = (inr b, mkSt w (events s ++ tr))
    /\ attempted tr = 1
    /\ succeeded tr = (if b then 1 else 0)
    /\ 1 <= length (transfers tr) <= max_retries
    /\ Forall (about_key key) tr.
Proof.
  unfold max_retries. cbn [seq].
  assert (HP : forall n b, about_key key (EvPut key n b))
    by (intros; left; eauto).
  assert (HS : about_key key (EvSleep 2)) by (right; reflexivity).
  rewrite qiniu_retry_step.
  destruct (qiniu_attempt R key local_file (world s)) as [r1 w1].
  assert (H1 : forall s1, events s1 = events s ++ [EvPut key 1 false; EvSleep 2] ->
    exists (b : bool) w tr,
      qiniu_retry_loop R key local_file [2; 3] s1 = (inr b, mkSt w (events s ++ tr))
      /\ attempted tr = 1 /\ succeeded tr = (if b then 1 else 0)
      /\ 1 <= length (transfers tr) <= 3 /\ Forall (about_key key) tr).
  { intros s1 E1. rewrite qiniu_retry_step.
    destruct (qiniu_attempt R key local_file (world s1)) as [r2 w2].
    assert (H2 : forall s2,
      events s2 = events s ++ [EvPut key 1 false; EvSleep 2;
                               EvPut key 2 false; EvSleep 2] ->
      exists (b : bool) w tr,
        qiniu_retry_loop R key local_file [3] s2 = (inr b, mkSt w (events s ++ tr))
        /\ attempted tr = 1 /\ succeeded tr = (if b then 1 else 0)
        /\ 1 <= length (transfers tr) <= 3 /\ Forall (about_key key) tr).
    { intros s2 E2. rewrite qiniu_retry_step.
      destruct (qiniu_attempt R key local_file (world s2)) as [r3 w3].
      rewrite qiniu_retry_nil, E2. cbn -[qiniu_retry_loop]. rewrite <- !app_assoc. cbn -[qiniu_retry_loop].
      destruct r3 as [e|[|]]; cbn [put_failed];
        eexists _, _, _; (split; [reflexivity|]);
        cbn; repeat split; try lia; each_event. }
    rewrite E1. cbn -[qiniu_retry_loop]. rewrite <- !app_assoc. cbn -[qiniu_retry_loop].
    destruct r2 as [e|[|]]; cbn [put_failed];
      try (apply H2; reflexivity).
    eexists _, _, _; (split; [reflexivity|]);
      cbn; repeat split; try lia; each_event. }
  cbn -[qiniu_retry_loop].
  destruct r1 as [e|[|]]; cbn [put_failed];
    try (apply H1; reflexivity).
  eexists _, _, _; (split; [reflexivity|]);
    cbn; repeat split; try lia; each_event.
Qed.

(** The file loop: it does not raise, attempts every eligible name of
    the listing once, and counts in [files_uploaded] the files it
    stored. *)
Lemma qiniu_file_loop_counts video_name output_dir names n s :
  exists n' w tr,
    qiniu_file_loop R video_name output_dir names n s
      = (inr n', mkSt w (events s ++ tr))
    /\ n' = n + succeeded tr
    /\ attempted tr = length (List.filter eligible names)
    /\ succeeded tr <= attempted tr
    /\ length (transfers tr) <= max_retries * attempted tr
    /\ Forall (fun e => exists f, In f names /\ eligible f = true
                          /\ about_key (video_name +:+ "/" +:+ f) e) tr.
Proof.
  revert n s. induction names as [|f rest IH]; intros n s.
  - exists n, (world s), []. rewrite app_nil_r, St_eta.
    repeat split; auto; simpl; lia.
  - cbn [qiniu_file_loop List.filter]. destruct (eligible f) eqn:Ef.
    + unfold bind.
      destruct (qiniu_retry_counts (video_name +:+ "/" +:+ f)
                  (path_join output_dir f) s)
        as (b & w1 & tr1 & -> & Ha1 & Hs1 & Ht1 & Hk1).
      destruct (IH (if b then S n else n) (mkSt w1 (events s ++ tr1)))
        as (n' & w2 & tr2 & -> & Hn & Ha2 & Hs2 & Ht2 & Hk2).
      exists n', w2, (tr1 ++ tr2). cbn [events]. rewrite app_assoc.
      split; [reflexivity|].
      rewrite attempted_app, succeeded_app, transfers_app, length_app.
      cbn [length]. repeat split.
      * destruct b; lia.
      * lia.
      * destruct b; lia.
      * unfold max_retries in *. lia.
      * apply Forall_app. split.
        -- eapply List.Forall_impl; [|exact Hk1]. intros e He.
           exists f. split; [left; reflexivity|]. auto.
        -- eapply List.Forall_impl; [|exact Hk2].
           intros e (g & Hg & Hge & He). exists g. split; [right|]; auto.
    + destruct (IH n s) as (n' & w2 & tr2 & -> & Hn & Ha2 & Hs2 & Ht2 & Hk2).
      exists n', w2, tr2. repeat split; auto.
      eapply List.Forall_impl; [|exact Hk2].
      intros e (g & Hg & Hge & He). exists g. split; [right|]; auto.
Qed.

(** [upload_to_qiniu] with the SDK present and the settings filled
    in, on a directory that can be listed. *)
Lemma upload_to_qiniu_run app output_dir names s :
  QINIU_AVAILABLE R = true -> qiniu_configured app = true ->
  exists (b : bool) w tr,
    upload_to_qiniu R app output_dir (Some names) s
      = (inr b, mkSt w (events s ++ tr))
    /\ b = ((succeeded tr =? attempted tr) || (0 <? succeeded tr))
    /\ attempted tr = length (List.filter eligible names)
    /\ succeeded tr <= attempted tr
    /\ length (transfers tr) <= max_retries * attempted tr
    /\ Forall (fun e => exists f, In f names /\ eligible f = true
                          /\ about_key (qiniu_key output_dir f) e) tr.
Proof.
  intros Hav Hcfg. unfold upload_to_qiniu, catch.
  rewrite Hav, Hcfg. cbn [negb listdir]. unfold bind at 1, ret at 1.
  unfold bind.
  destruct (qiniu_file_loop_counts (basename output_dir) output_dir names 0 s)
    as (n' & w & tr & -> & Hn & Ha & Hs & Ht & Hk).
  simpl in Hn. subst n'. rewrite <- Ha.
  destruct (succeeded tr =? attempted tr) eqn:E; unfold ret;
    eexists _, w, tr; (split; [reflexivity|]);
    rewrite E; cbn [orb]; repeat split; auto.
Qed.

(** Without the SDK, or with a setting missing, nothing is done. *)
Lemma upload_to_qiniu_not_connected app output_dir files s :
  QINIU_AVAILABLE R = false \/ qiniu_configured app = false ->
  upload_to_qiniu R app output_dir files s = (inr false, s).
Proof.
  intros [H|H]; unfold upload_to_qiniu, catch; rewrite H; cbn [negb].
  - reflexivity.
  - destruct (QINIU_AVAILABLE R); reflexivity.
Qed.

(** When every attempt fails the file is tried three times, two
    seconds apart, and the loop returns [False]. *)
Lemma qiniu_all_fail key local_file s :
  all_puts_fail R key local_file max_retries (world s) = true ->
  exists w,
    qiniu_retry_loop R key local_file (seq 1 max_retries) s
    = (inr false, mkSt w (events s ++
         [EvPut key 1 false; EvSleep 2; EvPut key 2 false; EvSleep 2;
          EvPut key 3 false])).
Proof.
  unfold max_retries. cbn [seq all_puts_fail]. intros H.
  rewrite qiniu_retry_step.
  destruct (qiniu_attempt R key local_file (world s)) as [r1 w1].
  apply andb_true_iff in H as [-> H].
  rewrite qiniu_retry_step. cbn [world events].
  destruct (qiniu_attempt R key local_file w1) as [r2 w2].
  apply andb_true_iff in H as [-> H].
  rewrite qiniu_retry_step. cbn [world events].
  destruct (qiniu_attempt R key local_file w2) as [r3 w3].
  apply andb_true_iff in H as [-> _].
  exists w3. cbn -[String.append]. rewrite <- !app_assoc. reflexivity.
Qed.

(** What one attempt gives, from what the file, the SDK and the clock
    give. *)
Lemma qiniu_attempt_accepted key local_file w size w' :
  getsize R local_file w = inr size ->
  put_file_v2 R key local_file w = (inr (Some key), w') ->
  speed_raises size (time_time R w) (time_time R w') = false ->
  qiniu_attempt R key local_file w = (inr true, w').
Proof.
  intros Hs Hp Hz. unfold qiniu_attempt. rewrite Hs, Hp, String.eqb_refl, Hz.
  reflexivity.
Qed.

Lemma qiniu_attempt_zero_time key local_file w size w' :
  getsize R local_file w = inr size ->
  put_file_v2 R key local_file w = (inr (Some key), w') ->
  speed_raises size (time_time R w) (time_time R w') = true ->
  qiniu_attempt R key local_file w = (inl ZeroDivisionError, w').
Proof.
  intros Hs Hp Hz. unfold qiniu_attempt. rewrite Hs, Hp, String.eqb_refl, Hz.
  reflexivity.
Qed.

(** The traces of one file. *)
Lemma qiniu_retry_traces key local_file s :
  exists (b : bool) w tr,
    qiniu_retry_loop R key local_file (seq 1 max_retries) s
      = (inr b, mkSt w (events s ++ tr))
    /\ In (tr, b) (qiniu_file_traces key).
Proof.
  unfold max_retries. cbn [seq]. unfold qiniu_file_traces.
  rewrite qiniu_retry_step.
  destruct (qiniu_attempt R key local_file (world s)) as [r1 w1].
  destruct (put_failed r1).
  2:{ eexists _, _, _. split; [reflexivity|]. left. reflexivity. }
  rewrite qiniu_retry_step. cbn [world events].
  destruct (qiniu_attempt R key local_file w1) as [r2 w2].
  destruct (put_failed r2).
  2:{ eexists _, _, _. cbn -[String.append]. rewrite <- app_assoc.
      split; [reflexivity|]. right. left. reflexivity. }
  rewrite qiniu_retry_step. cbn [world events].
  destruct (qiniu_attempt R key local_file w2) as [r3 w3].
  destruct (put_failed r3).
  - eexists _, _, _. cbn -[String.append]. rewrite <- !app_assoc.
    split; [reflexivity|]. do 3 right. left. reflexivity.
  - eexists _, _, _. cbn -[String.append]. rewrite <- !app_assoc.
    split; [reflexivity|]. do 2 right. left. reflexivity.
Qed.

Lemma qiniu_file_loop_traces video_name output_dir names n s :
  exists w blocks,
    qiniu_file_loop R video_name output_dir names n s
      = (inr (n + length (List.filter snd blocks)),
         mkSt w (events s ++ concat (map fst blocks)))
    /\ Forall2 (fun f block =>
                  In block (qiniu_file_traces (video_name +:+ "/" +:+ f)))
         (List.filter eligible names) blocks.
Proof.
  revert n s. induction names as [|f rest IH]; intros n s.
  - exists (world s), []. cbn. rewrite app_nil_r, Nat.add_0_r, St_eta.
    split; [reflexivity|constructor].
  - cbn [qiniu_file_loop List.filter]. destruct (eligible f).
    + unfold bind at 1.
      destruct (qiniu_retry_traces (video_name +:+ "/" +:+ f)
                  (path_join output_dir f) s) as (b & w1 & tr & -> & Hin).
      destruct (IH (if b then S n else n) (mkSt w1 (events s ++ tr)))
        as (w2 & blocks & -> & Hall).
      exists w2, ((tr, b) :: blocks). split.
      * cbn [events map fst concat List.filter snd]. rewrite <- app_assoc.
        destruct b; cbn [length]; rewrite ?Nat.add_succ_r; reflexivity.
      * constructor; assumption.
    + apply IH.
Qed.

(** *** The FTP loops *)

Lemma silent_run {A} (m : M R A) s :
  silent R m -> exists r w, m s = (r, mkSt w (events s)).
Proof.
  intros H. specialize (H s). destruct (m s) as [r [w ev]].
  simpl in H. subst ev. eauto.
Qed.

(** What follows a 553 answer: diagnosis and rebuild, then the file
    is given up. *)
Lemma after_553 remote_dir local_file s :
  exists w,
    bind R (diagnose_553 R remote_dir)
      (fun _ => bind R (rebuild_553 R remote_dir local_file)
                  (fun _ => ret R false)) s
    = (inr false, mkSt w (events s)).
Proof.
  unfold bind.
  destruct (quiet_diagnose_553 remote_dir s) as ([] & w1 & ->).
  destruct (quiet_rebuild_553 remote_dir local_file (mkSt w1 (events s)))
    as ([] & w2 & ->).
  exists w2. reflexivity.
Qed.

Lemma ftp_retry_step remote_dir remote_file local_file attempt rest s :
  ftp_retry_loop R remote_dir remote_file local_file (attempt :: rest) s =
  let '(r, w) := ftp_attempt R remote_file local_file (world s) in
  match r with
  | inr _ => (inr true, mkSt w (events s ++ [EvStor remote_file attempt true]))
  | inl e =>
      let s1 := mkSt w (events s ++ [EvStor remote_file attempt false]) in
      if str_in "10060" (text e) then
        ftp_retry_loop R remote_dir remote_file local_file rest
          (mkSt w (events s ++ [EvStor remote_file attempt false; EvSleep 5]))
      else if str_in "553" (text e) then
        bind R (diagnose_553 R remote_dir)
          (fun _ => bind R (rebuild_553 R remote_dir local_file)
                      (fun _ => ret R false)) s1
      else (inr false, s1)
  end.
Proof.
  cbn [ftp_retry_loop]. unfold bind at 1, attempt_, call.
  destruct (ftp_attempt R remote_file local_file (world s)) as [[e|[]] w].
  - cbn [events world]. unfold bind at 1, emit. cbn [events world].
    destruct (str_in "10060" (text e)).
    + unfold bind at 1, sleep, emit. cbn [events world].
      rewrite <- app_assoc. reflexivity.
    + destruct (str_in "553" (text e)); reflexivity.
  - reflexivity.
Qed.

(** A first attempt that raises without the timeout signature ends
    the retries: one attempt, file not stored. *)
Lemma ftp_permanent_once remote_dir remote_file local_file attempt rest s e w :
  ftp_attempt R remote_file local_file (world s) = (inl e, w) ->
  str_in "10060" (text e) = false ->
  exists w',
    ftp_retry_loop R remote_dir remote_file local_file (attempt :: rest) s
    = (inr false, mkSt w' (events s ++ [EvStor remote_file attempt false])).
Proof.
  intros Hs Ht. rewrite ftp_retry_step, Hs. cbn zeta. rewrite Ht.
  destruct (str_in "553" (text e)).
  - destruct (after_553 remote_dir local_file
                (mkSt w (events s ++ [EvStor remote_file attempt false])))
      as (w' & ->).
    exists w'. reflexivity.
  - exists w. reflexivity.
Qed.

(** Timeouts on every attempt: three attempts, a five second wait
    after each, file not stored. *)
Lemma ftp_all_timeouts remote_dir remote_file local_file s :
  all_timeouts R remote_file local_file max_retries (world s) = true ->
  exists w,
    ftp_retry_loop R remote_dir remote_file local_file (seq 1 max_retries) s
    = (inr false, mkSt w (events s ++
         [EvStor remote_file 1 false; EvSleep 5;
          EvStor remote_file 2 false; EvSleep 5;
          EvStor remote_file 3 false; EvSleep 5])).
Proof.
  unfold max_retries. cbn [seq all_timeouts]. intros H.
  rewrite ftp_retry_step.
  destruct (ftp_attempt R remote_file local_file (world s)) as [[e1|[]] w1];
    [|discriminate].
  apply andb_true_iff in H as [-> H].
  rewrite ftp_retry_step. cbn [world events].
  destruct (ftp_attempt R remote_file local_file w1) as [[e2|[]] w2];
    [|discriminate].
  apply andb_true_iff in H as [-> H].
  rewrite ftp_retry_step. cbn [world events].
  destruct (ftp_attempt R remote_file local_file w2) as [[e3|[]] w3];
    [|discriminate].
  apply andb_true_iff in H as [-> _].
  exists w3. cbn [ftp_retry_loop]. unfold ret.
  rewrite <- !app_assoc. reflexivity.
Qed.

(** The retry loop does not raise and only leaves events about the
    file it stores. *)
Lemma ftp_retry_events remote_dir remote_file local_file attempts s :
  exists (b : bool) w tr,
    ftp_retry_loop R remote_dir remote_file local_file attempts s
      = (inr b, mkSt w (events s ++ tr))
    /\ Forall (about_remote_file remote_file) tr.
Proof.
  assert (HP : forall n b, about_remote_file remote_file (EvStor remote_file n b))
    by (intros; left; eauto).
  assert (HS : about_remote_file remote_file (EvSleep 5)) by (right; reflexivity).
  revert s. induction attempts as [|attempt rest IH]; intros s.
  - exists false, (world s), []. rewrite app_nil_r, St_eta.
    split; [reflexivity|apply List.Forall_nil].
  - rewrite ftp_retry_step.
    destruct (ftp_attempt R remote_file local_file (world s)) as [[e|[]] w].
    + cbn zeta. destruct (str_in "10060" (text e)).
      * destruct (IH (mkSt w (events s ++ [EvStor remote_file attempt false;
                                           EvSleep 5])))
          as (b & w' & tr & -> & Htr).
        exists b, w', ([EvStor remote_file attempt false; EvSleep 5] ++ tr).
        cbn [events]. rewrite <- app_assoc. split; [reflexivity|].
        apply Forall_app. split; [each_event|exact Htr].
      * destruct (str_in "553" (text e)).
        -- destruct (after_553 remote_dir local_file
             (mkSt w (events s ++ [EvStor remote_file attempt false])))
             as (w' & ->).
           exists false, w', [EvStor remote_file attempt false].
           split; [reflexivity|each_event].
        -- exists false, w, [EvStor remote_file attempt false].
           split; [reflexivity|each_event].
    + exists true, w, [EvStor remote_file attempt true].
      split; [reflexivity|each_event].
Qed.

(** One turn of the FTP retry loop ends it, with or without success,
    or is followed by the wait and the next turn. *)
Lemma ftp_retry_turn remote_dir remote_file local_file attempt rest s :
  (exists w,
      ftp_retry_loop R remote_dir remote_file local_file (attempt :: rest) s
      = (inr true, mkSt w (events s ++ [EvStor remote_file attempt true])))
  \/ (exists w,
        ftp_retry_loop R remote_dir remote_file local_file (attempt :: rest) s
        = (inr false, mkSt w (events s ++ [EvStor remote_file attempt false])))
  \/ (exists w,
        ftp_retry_loop R remote_dir remote_file local_file (attempt :: rest) s
        = ftp_retry_loop R remote_dir remote_file local_file rest
            (mkSt w (events s ++ [EvStor remote_file attempt false; EvSleep 5]))).
Proof.
  rewrite ftp_retry_step.
  destruct (ftp_attempt R remote_file local_file (world s)) as [[e|[]] w].
  - cbn zeta. destruct (str_in "10060" (text e)).
    + right. right. exists w. reflexivity.
    + right. left. destruct (str_in "553" (text e)).
      * destruct (after_553 remote_dir local_file
                    (mkSt w (events s ++ [EvStor remote_file attempt false])))
          as (w' & ->).
        exists w'. reflexivity.
      * exists w. reflexivity.
  - left. exists w. reflexivity.
Qed.

(** The traces of one file. *)
Lemma ftp_retry_traces remote_dir remote_file local_file s :
  exists (b : bool) w tr,
    ftp_retry_loop R remote_dir remote_file local_file (seq 1 max_retries) s
      = (inr b, mkSt w (events s ++ tr))
    /\ In (tr, b) (ftp_file_traces remote_file).
Proof.
  unfold max_retries. cbn [seq]. unfold ftp_file_traces.
  destruct (ftp_retry_turn remote_dir remote_file local_file 1 [2; 3] s)
    as [(w1 & ->)|[(w1 & ->)|(w1 & ->)]].
  { eexists _, _, _. split; [reflexivity|]. left. reflexivity. }
  { eexists _, _, _. split; [reflexivity|]. right. left. reflexivity. }
  destruct (ftp_retry_turn remote_dir remote_file local_file 2 [3]
              (mkSt w1 (events s ++ [EvStor remote_file 1 false; EvSleep 5])))
    as [(w2 & ->)|[(w2 & ->)|(w2 & ->)]]; cbn [events];
    rewrite <- app_assoc; cbn [List.app].
  { eexists _, _, _. split; [reflexivity|]. do 2 right. left. reflexivity. }
  { eexists _, _, _. split; [reflexivity|]. do 3 right. left. reflexivity. }
  destruct (ftp_retry_turn remote_dir remote_file local_file 3 []
              (mkSt w2 (events s ++ [EvStor remote_file 1 false; EvSleep 5;
                                     EvStor remote_file 2 false; EvSleep 5])))
    as [(w3 & ->)|[(w3 & ->)|(w3 & ->)]]; cbn [events];
    rewrite <- app_assoc; cbn [List.app].
  { eexists _, _, _. split; [reflexivity|]. do 4 right. left. reflexivity. }
  { eexists _, _, _. split; [reflexivity|]. do 5 right. left. reflexivity. }
  eexists _, _, _. split; [reflexivity|]. do 6 right. left. reflexivity.
Qed.

Lemma ftp_file_loop_traces output_dir remote_dir names n s :
  exists w blocks,
    ftp_file_loop R output_dir remote_dir names n s
      = (inr (n + length (List.filter snd blocks)),
         mkSt w (events s ++ concat (map fst blocks)))
    /\ Forall2 (fun f block =>
                  In block (ftp_file_traces f)
                  \/ In block (ftp_file_traces (remote_dir +:+ "/" +:+ f)))
         (List.filter eligible names) blocks.
Proof.
  revert n s. induction names as [|f rest IH]; intros n s.
  - exists (world s), []. cbn. rewrite app_nil_r, Nat.add_0_r, St_eta.
    split; [reflexivity|constructor].
  - cbn [ftp_file_loop List.filter]. destruct (eligible f).
    + unfold bind at 1.
      assert (Hone : forall rf w0,
                In rf [f; remote_dir +:+ "/" +:+ f] ->
                exists w blocks,
                  bind R (ftp_retry_loop R remote_dir rf (path_join output_dir f)
                            (seq 1 max_retries))
                    (fun upload_success =>
                       ftp_file_loop R output_dir remote_dir rest
                         (if upload_success then S n else n))
                    (mkSt w0 (events s))
                  = (inr (n + length (List.filter snd blocks)),
                     mkSt w (events s ++ concat (map fst blocks)))
                  /\ Forall2 (fun f block =>
                                In block (ftp_file_traces f)
                                \/ In block (ftp_file_traces
                                               (remote_dir +:+ "/" +:+ f)))
                       (f :: List.filter eligible rest) blocks).
      { intros rf w0 Hrf. unfold bind at 1.
        destruct (ftp_retry_traces remote_dir rf (path_join output_dir f)
                    (mkSt w0 (events s))) as (b & w1 & tr & -> & Hin).
        cbn [events].
        destruct (IH (if b then S n else n) (mkSt w1 (events s ++ tr)))
          as (w2 & blocks & -> & Hall).
        exists w2, ((tr, b) :: blocks). split.
        - cbn [events map fst concat List.filter snd]. rewrite <- app_assoc.
          destruct b; cbn [length]; rewrite ?Nat.add_succ_r; reflexivity.
        - constructor; [|exact Hall].
          destruct Hrf as [<-|[<-|[]]]; auto. }
      destruct (choose_remote_file_cases remote_dir f s) as (w0 & [-> | ->]);
        apply Hone; cbn; auto.
    + apply IH.
Qed.

Lemma ftp_file_loop_events output_dir remote_dir names n s :
  exists n' w tr,
    ftp_file_loop R output_dir remote_dir names n s
      = (inr n', mkSt w (events s ++ tr))
    /\ Forall (ftp_file_event remote_dir names) tr.
Proof.
  revert n s. induction names as [|f rest IH]; intros n s.
  - exists n, (world s), []. rewrite app_nil_r, St_eta.
    split; [reflexivity|apply List.Forall_nil].
  - assert (Hrest : forall e, ftp_file_event remote_dir rest e ->
                              ftp_file_event remote_dir (f :: rest) e).
    { intros e (g & Hg & Hge & He). exists g. split; [right|]; auto. }
    cbn [ftp_file_loop]. destruct (eligible f) eqn:Ef.
    + unfold bind.
      destruct (choose_remote_file_cases remote_dir f s) as (w0 & [-> | ->]).
      * destruct (ftp_retry_events remote_dir f (path_join output_dir f)
                    (seq 1 max_retries) (mkSt w0 (events s)))
          as (b & w1 & tr1 & -> & H1).
        cbn [events].
        destruct (IH (if b then S n else n) (mkSt w1 (events s ++ tr1)))
          as (n' & w2 & tr2 & -> & H2).
        exists n', w2, (tr1 ++ tr2). cbn [events]. rewrite app_assoc.
        split; [reflexivity|]. apply Forall_app. split.
        -- eapply List.Forall_impl; [|exact H1]. intros e He.
           exists f. split; [left; reflexivity|]. auto.
        -- eapply List.Forall_impl; [|exact H2]. exact Hrest.
      * destruct (ftp_retry_events remote_dir (remote_dir +:+ "/" +:+ f)
                    (path_join output_dir f)
                    (seq 1 max_retries) (mkSt w0 (events s)))
          as (b & w1 & tr1 & -> & H1).
        cbn [events].
        destruct (IH (if b then S n else n) (mkSt w1 (events s ++ tr1)))
          as (n' & w2 & tr2 & -> & H2).
        exists n', w2, (tr1 ++ tr2). cbn [events]. rewrite app_assoc.
        split; [reflexivity|]. apply Forall_app. split.
        -- eapply List.Forall_impl; [|exact H1]. intros e He.
           exists f. split; [left; reflexivity|]. auto.
        -- eapply List.Forall_impl; [|exact H2]. exact Hrest.
    + destruct (IH n s) as (n' & w2 & tr2 & -> & H2).
      exists n', w2, tr2. split; [reflexivity|].
      eapply List.Forall_impl; [|exact H2]. exact Hrest.
Qed.

(** [connect_ftp] does not raise; the only event it can leave is the
    start of the keep-alive thread. *)
Lemma connect_ftp_events app s :
  exists (b : bool) w tr,
    connect_ftp R app s = (inr b, mkSt w (events s ++ tr))
    /\ (tr = [] \/ tr = [EvKeepAliveStarted]).
Proof.
  unfold connect_ftp, catch. unfold bind at 1, call at 1.
  destruct (ftp_login R (server_ip app) (server_port app) (username app)
              (password app) (use_ssl app) (world s)) as [[e|[]] w1].
  - exists false, w1, []. rewrite app_nil_r. auto.
  - unfold bind at 1, emit. cbn [world events].
    match goal with
    | |- context [bind R ?m ?k ?st] =>
        assert (Hs : silent R (bind R m k)); [|destruct (silent_run (bind R m k) st Hs) as (r & w2 & ->)]
    end.
    { apply silent_bind.
      - destruct (use_ssl app); [apply silent_call|apply silent_ret].
      - intros _. apply silent_bind; [|intros; apply silent_ret].
        apply silent_catch; [apply silent_call|]. intros _.
        apply silent_bind; [|intros; apply silent_ret].
        apply quiet_silent, quiet_create_remote_directory. }
    cbn [events]. destruct r as [e|b]; eexists _, w2, _; eauto.
Qed.

(** *** The upload functions *)

(** No session, no upload: [upload_to_ftp] returns [False] right
    after [connect_ftp]. *)
Lemma upload_to_ftp_connect_failed app output_dir files s s1 :
  connect_ftp R app s = (inr false, s1) ->
  upload_to_ftp R app output_dir files s = (inr false, s1).
Proof.
  intros H. unfold upload_to_ftp, catch. unfold bind at 1.
  rewrite H. reflexivity.
Qed.

(** Once the file loop is reached, the return value is [True] as soon
    as [quit] returns, whatever [files_uploaded] is. *)
Lemma upload_to_ftp_reaches_quit app output_dir names s s1 s2 n s3 w4 :
  connect_ftp R app s = (inr true, s1) ->
  create_remote_directory R
    (ftp_remote_dir (upload_path app) (basename output_dir)) s1
    = (inr true, s2) ->
  ftp_file_loop R output_dir
    (ftp_remote_dir (upload_path app) (basename output_dir)) names 0 s2
    = (inr n, s3) ->
  ftp_quit R (world s3) = (inr tt, w4) ->
  upload_to_ftp R app output_dir (Some names) s
  = (inr true, mkSt w4 (events s3 ++ [EvQuit])).
Proof.
  intros Hc Hd Hl Hq. unfold upload_to_ftp, catch. unfold bind at 1.
  rewrite Hc. cbn [negb]. unfold bind at 1. rewrite Hd. cbn [negb listdir].
  unfold bind at 1, ret at 1. unfold bind at 1. rewrite Hl.
  unfold bind at 1, call at 1. rewrite Hq.
  reflexivity.
Qed.

Lemma upload_to_ftp_events app output_dir files s :
  exists (b : bool) w tr,
    upload_to_ftp R app output_dir files s = (inr b, mkSt w (events s ++ tr))
    /\ Forall (ftp_event
                 (ftp_remote_dir (upload_path app) (basename output_dir))
                 (default [] files)) tr.
Proof.
  set (rd := ftp_remote_dir (upload_path app) (basename output_dir)).
  assert (HK : forall tr, tr = [] \/ tr = [EvKeepAliveStarted] ->
             Forall (ftp_event rd (default [] files)) tr).
  { intros tr [-> | ->]; [apply List.Forall_nil|].
    apply List.Forall_cons; [left; reflexivity|apply List.Forall_nil]. }
  unfold upload_to_ftp, catch. unfold bind at 1.
  destruct (connect_ftp_events app s) as (c & w1 & tr1 & -> & Htr1).
  destruct c; cbn [negb]; [|exists false, w1, tr1; split; auto].
  fold rd. unfold bind at 1.
  destruct (quiet_create_remote_directory rd (mkSt w1 (events s ++ tr1)))
    as (d & w2 & ->).
  cbn [events].
  destruct d; cbn [negb]; [|exists false, w2, tr1; split; auto].
  destruct files as [names|]; cbn [listdir].
  2:{ exists false, w2, tr1. split; auto. }
  unfold bind at 1, ret at 1. unfold bind at 1.
  destruct (ftp_file_loop_events output_dir rd names 0
              (mkSt w2 (events s ++ tr1)))
    as (n & w3 & tr3 & -> & Htr3).
  cbn [events]. unfold bind at 1, call at 1. cbn [world events].
  assert (H13 : Forall (ftp_event rd (default [] (Some names))) (tr1 ++ tr3)).
  { apply Forall_app. split; [auto|].
    eapply List.Forall_impl; [|exact Htr3]. intros e He. right. right. exact He. }
  destruct (ftp_quit R w3) as [[e|[]] w4].
  - exists false, w4, (tr1 ++ tr3). rewrite app_assoc. split; auto.
  - exists true, w4, ((tr1 ++ tr3) ++ [EvQuit]).
    unfold bind, emit, ret. cbn [world events]. rewrite !app_assoc.
    split; [reflexivity|]. apply Forall_app. split; [exact H13|].
    apply List.Forall_cons; [right; left; reflexivity|apply List.Forall_nil].
Qed.

Lemma upload_to_qiniu_events app output_dir files s :
  exists (b : bool) w tr,
    upload_to_qiniu R app output_dir files s = (inr b, mkSt w (events s ++ tr))
    /\ Forall (qiniu_event output_dir (default [] files)) tr.
Proof.
  destruct (QINIU_AVAILABLE R) eqn:Hav.
  2:{ exists false, (world s), [].
      rewrite upload_to_qiniu_not_connected, app_nil_r, St_eta by auto.
      split; [reflexivity|apply List.Forall_nil]. }
  destruct (qiniu_configured app) eqn:Hcfg.
  2:{ exists false, (world s), [].
      rewrite upload_to_qiniu_not_connected, app_nil_r, St_eta by auto.
      split; [reflexivity|apply List.Forall_nil]. }
  destruct files as [names|].
  - destruct (upload_to_qiniu_run app output_dir names s Hav Hcfg)
      as (b & w & tr & -> & _ & _ & _ & _ & Hk).
    exists b, w, tr. split; [reflexivity|exact Hk].
  - exists false, (world s), []. rewrite app_nil_r, St_eta.
    unfold upload_to_qiniu, catch. rewrite Hav, Hcfg.
    split; [reflexivity|apply List.Forall_nil].
Qed.

Lemma about_key_not_cleanup key e : about_key key e -> is_cleanup e = false.
Proof. intros [(n & b & ->)| ->]; reflexivity. Qed.

Lemma about_remote_file_not_cleanup rf e :
  about_remote_file rf e -> is_cleanup e = false.
Proof. intros [(n & b & ->)| ->]; reflexivity. Qed.

(** [upload_to_server] does not raise and never deletes anything. *)
Lemma upload_to_server_events app output_dir files s :
  exists (b : bool) w tr,
    upload_to_server R app output_dir files s
      = (inr b, mkSt w (events s ++ tr))
    /\ Forall (fun e => is_cleanup e = false) tr.
Proof.
  unfold upload_to_server, catch. destruct (use_qiniu app).
  - destruct (upload_to_qiniu_events app output_dir files s)
      as (b & w & tr & -> & Hk).
    exists b, w, tr. split; [reflexivity|].
    eapply List.Forall_impl; [|exact Hk].
    intros e (f & _ & _ & He). exact (about_key_not_cleanup _ _ He).
  - destruct (upload_to_ftp_events app output_dir files s)
      as (b & w & tr & -> & Hk).
    exists b, w, tr. split; [reflexivity|].
    eapply List.Forall_impl; [|exact Hk].
    intros e [-> | [-> | (f & _ & _ & [He|He])]];
      try reflexivity; exact (about_remote_file_not_cleanup _ _ He).
Qed.

Lemma no_cleanup_in tr :
  Forall (fun e => is_cleanup e = false) tr -> existsb is_cleanup tr = false.
Proof.
  induction 1 as [|e tr He _ IH]; [reflexivity|].
  simpl. rewrite He, IH. reflexivity.
Qed.

End Facts.
End UploadFacts.

(** * The claims *)

Import PyStr LocalFs Settings Upload Spec Scenario.
Import PyStrFacts LocalFsFacts UploadFacts.

(** The three-way law of the specification, on its own definition. *)
Lemma spec_aggregate_status_law attempted succeeded :
  (spec_aggregate_status attempted succeeded = Success
   <-> succeeded = attempted /\ 0 < attempted)
  /\ (spec_aggregate_status attempted succeeded = Failure <-> succeeded = 0)
  /\ (spec_aggregate_status attempted succeeded = PartialFailure
      <-> succeeded <> 0 /\ ~ (succeeded = attempted /\ 0 < attempted)).
Proof.
  unfold spec_aggregate_status.
  destruct (Nat.eqb_spec succeeded attempted) as [E|E];
    destruct (Nat.ltb_spec 0 attempted) as [L|L];
    destruct (Nat.eqb_spec succeeded 0) as [Z|Z]; cbn [andb];
    repeat split; intros; try discriminate; try lia; try tauto.
Qed.

(** C1, amended.  [upload_to_qiniu], with the SDK present, the settings
    filled in and a job directory that can be listed, does not raise,
    attempts every eligible file once (with its retries), and returns
    [True] exactly when the specification's status is not Failure or
    when there was no eligible file at all: it returns [True] on
    Success, but also on PartialFailure and on an empty job, and [False]
    exactly when at least one file was attempted and none succeeded. *)
Theorem upload_to_qiniu_truthy_law (R : Remote) app output_dir names s :
  QINIU_AVAILABLE R = true -> qiniu_configured app = true ->
  exists (b : bool) w tr,
    upload_to_qiniu R app output_dir (Some names) s
      = (inr b, mkSt w (events s ++ tr))
    /\ attempted tr = length (List.filter eligible names)
    /\ succeeded tr <= attempted tr
    /\ (b = true <->
        spec_aggregate_status (attempted tr) (succeeded tr) <> Failure
        \/ attempted tr = 0)
    /\ (b = false <-> 0 < attempted tr /\ succeeded tr = 0)
    /\ (spec_aggregate_status (attempted tr) (succeeded tr) = Success
        -> b = true).
Proof.
  intros Hav Hcfg.
  destruct (upload_to_qiniu_run R app output_dir names s Hav Hcfg)
    as (b & w & tr & Hrun & Hb & Ha & Hs & _).
  exists b, w, tr. split; [exact Hrun|]. split; [exact Ha|]. split; [exact Hs|].
  destruct (spec_aggregate_status_law (attempted tr) (succeeded tr))
    as (HS & HF & _).
  assert (Hb' : b = true <-> succeeded tr = attempted tr \/ 0 < succeeded tr).
  { rewrite Hb, orb_true_iff, Nat.eqb_eq, Nat.ltb_lt. reflexivity. }
  repeat split.
  - intros Ht. apply Hb' in Ht. rewrite HF. lia.
  - intros H. apply Hb'. rewrite HF in H. lia.
  - destruct b; [discriminate|]. destruct Hb' as [_ Hb'].
    destruct (Nat.eq_dec (attempted tr) 0); [|lia].
    assert (true = false) by (symmetry; apply Hb'; lia). discriminate.
  - destruct b; [discriminate|]. destruct Hb' as [_ Hb'].
    destruct (Nat.eq_dec (succeeded tr) 0); [assumption|].
    assert (true = false) by (symmetry; apply Hb'; lia). discriminate.
  - intros [H1 H2]. destruct b; [|reflexivity].
    destruct Hb' as [Hb' _]. specialize (Hb' eq_refl). lia.
  - intros H. apply Hb'. apply HS in H. lia.
Qed.

(** The law at the run in which qiniu rejects [segment_001.ts]. *)
Lemma upload_to_qiniu_truthy_law_witness :
  exists (b : bool) w tr,
    upload_to_qiniu rejects_segment_001 qiniu_app ("cache/" +:+ job)
      (Some (names movie_dir)) (start rejects_segment_001 0)
      = (inr b, mkSt w ([] ++ tr))
    /\ attempted tr = 3
    /\ succeeded tr <= attempted tr
    /\ (b = true <->
        spec_aggregate_status (attempted tr) (succeeded tr) <> Failure
        \/ attempted tr = 0)
    /\ (b = false <-> 0 < attempted tr /\ succeeded tr = 0)
    /\ (spec_aggregate_status (attempted tr) (succeeded tr) = Success
        -> b = true).
Proof.
  exact (upload_to_qiniu_truthy_law rejects_segment_001 qiniu_app
           ("cache/" +:+ job) (names movie_dir) (start rejects_segment_001 0)
           eq_refl eq_refl).
Defined.

(** C1 as stated fails: with [segment_001.ts] rejected on every attempt,
    two of three files succeed, and [upload_to_qiniu] still returns
    [True]. *)
Lemma upload_to_qiniu_true_on_partial_failure :
  let run := upload_to_qiniu rejects_segment_001 qiniu_app ("cache/" +:+ job)
               (Some (names movie_dir)) (start rejects_segment_001 0) in
  ~ (fst run = inr true ->
     spec_aggregate_status (attempted (events (snd run)))
                           (succeeded (events (snd run))) = Success).
Proof.
  intros run H.
  assert (E : fst run = inr true) by (vm_compute; reflexivity).
  apply H in E. vm_compute in E. discriminate.
Qed.

(** C2, amended.  [process_video] calls [cleanup_local_files] exactly
    when ffmpeg succeeded and [upload_to_server] returned [True] (which
    is not the same as Success, see C1); in every other case the cache
    directory is left as it was.  When the cleanup ends without its
    warning the job directory is gone, and a scan does not list it. *)
Theorem cleanup_follows_return_value (R : Remote) app root item ffmpeg_ok s :
  let output_dir := path_join (cache_path app) item in
  let up := upload_to_server R app output_dir (job_files root item) s in
  let pv := process_video R app root item ffmpeg_ok s in
  exists tr,
    events (snd pv) = events s ++ tr
    /\ (existsb is_cleanup tr = true <-> ffmpeg_ok = true /\ fst up = inr true)
    /\ (In (EvCleanup output_dir) tr <-> ffmpeg_ok = true /\ fst up = inr true)
    /\ (~ (ffmpeg_ok = true /\ fst up = inr true) -> fst pv = root)
    /\ (ffmpeg_ok = true /\ fst up = inr true ->
        fst pv = fst (cleanup_local_files root item)
        /\ (snd (cleanup_local_files root item) = false ->
            ~ In item (scanned (fst pv)))).
Proof.
  intros output_dir up pv. subst pv. unfold process_video. fold output_dir.
  destruct ffmpeg_ok.
  2:{ exists []. rewrite app_nil_r. cbn [fst snd existsb In].
      refine (conj eq_refl (conj _ (conj _ (conj _ _)))).
      - split; [discriminate|intros [? _]; discriminate].
      - split; [intros []|intros [? _]; discriminate].
      - reflexivity.
      - intros [? _]; discriminate. }
  fold up.
  destruct (upload_to_server_events R app output_dir (job_files root item) s)
    as (b & w & tr & Hup & Hno).
  fold up in Hup. rewrite Hup. cbn [fst].
  assert (Hnone : existsb is_cleanup tr = false) by (apply no_cleanup_in, Hno).
  assert (Hnotin : ~ In (EvCleanup output_dir) tr).
  { intros Hin. rewrite List.Forall_forall in Hno. apply Hno in Hin. discriminate. }
  destruct b.
  - exists (tr ++ [EvCleanup output_dir]). cbn [snd fst events].
    rewrite app_assoc. split; [reflexivity|].
    rewrite existsb_app, Hnone. cbn [existsb is_cleanup orb].
    refine (conj _ (conj _ (conj _ _))).
    + split; auto.
    + split; [auto|]. intros _. apply in_or_app. right. left. reflexivity.
    + intros H. contradiction H. auto.
    + intros _. split; [reflexivity|]. apply not_scanned_after_cleanup.
  - exists tr. cbn [snd fst events]. split; [reflexivity|]. rewrite Hnone.
    refine (conj _ (conj _ (conj _ _))).
    + split; [discriminate|intros [_ ?]; discriminate].
    + split; [intros ?; contradiction|intros [_ ?]; discriminate].
    + reflexivity.
    + intros [_ ?]; discriminate.
Qed.

(** The cleanup at the run in which every file is stored. *)
Lemma cleanup_follows_return_value_witness :
  let R := scripted true true (fun key => inr (Some key)) (fun _ => inr tt) in
  let pv := process_video R qiniu_app movie_root job true (start R 0) in
  fst pv = [] /\ ~ In job (scanned (fst pv)).
Proof.
  intros R pv.
  destruct (cleanup_follows_return_value R qiniu_app movie_root job true
              (start R 0)) as (tr & _ & _ & _ & _ & H).
  destruct (H (conj eq_refl eq_refl)) as [Hfst Hscan].
  split; [exact Hfst|]. apply Hscan. reflexivity.
Defined.

(** C2 as stated fails: with [segment_001.ts] rejected on every attempt
    the result is a partial failure, and [process_video] still deletes
    the job directory. *)
Lemma cleanup_on_partial_failure :
  let pv := process_video rejects_segment_001 qiniu_app movie_root job true
              (start rejects_segment_001 0) in
  ~ (existsb is_cleanup (events (snd pv)) = true <->
     spec_aggregate_status (attempted (events (snd pv)))
                           (succeeded (events (snd pv))) = Success).
Proof.
  intros pv [H _].
  assert (E : existsb is_cleanup (events (snd pv)) = true)
    by (vm_compute; reflexivity).
  apply H in E. vm_compute in E. discriminate.
Qed.

(** C3.  A file whose attempts all fail with a retry-worthy error is
    attempted exactly three times and not counted as uploaded, and the
    loop goes on with the next file: for qiniu every failure is
    retry-worthy (the body of the attempt raises, or the answer is
    rejected), for FTP the retry-worthy failures are those with the
    timeout signature ["10060"].  An FTP file whose first attempt fails with any other
    error is attempted exactly once and not counted. *)
Theorem retry_bound (R : Remote) video_name output_dir remote_dir filename
    rest n s :
  eligible filename = true ->
  let key := video_name +:+ "/" +:+ filename in
  let local_file := path_join output_dir filename in
  (all_puts_fail R key local_file max_retries (world s) = true ->
   exists w,
     qiniu_file_loop R video_name output_dir (filename :: rest) n s
     = qiniu_file_loop R video_name output_dir rest n
         (mkSt w (events s ++
            [EvPut key 1 false; EvSleep 2; EvPut key 2 false; EvSleep 2;
             EvPut key 3 false])))
  /\ (forall remote_file s1,
        choose_remote_file R remote_dir filename s = (inr remote_file, s1) ->
        all_timeouts R remote_file local_file max_retries (world s1) = true ->
        exists w,
          ftp_file_loop R output_dir remote_dir (filename :: rest) n s
          = ftp_file_loop R output_dir remote_dir rest n
              (mkSt w (events s ++
                 [EvStor remote_file 1 false; EvSleep 5;
                  EvStor remote_file 2 false; EvSleep 5;
                  EvStor remote_file 3 false; EvSleep 5])))
  /\ (forall remote_file s1 e w1,
        choose_remote_file R remote_dir filename s = (inr remote_file, s1) ->
        ftp_attempt R remote_file local_file (world s1) = (inl e, w1) ->
        str_in "10060" (text e) = false ->
        exists w,
          ftp_file_loop R output_dir remote_dir (filename :: rest) n s
          = ftp_file_loop R output_dir remote_dir rest n
              (mkSt w (events s ++ [EvStor remote_file 1 false]))).
Proof.
  intros Ef key local_file.
  assert (Hsame : forall remote_file s1,
            choose_remote_file R remote_dir filename s = (inr remote_file, s1) ->
            events s1 = events s).
  { intros rf s1 H.
    pose proof (quiet_silent R _ (quiet_choose_remote_file R remote_dir filename) s)
      as Hq.
    rewrite H in Hq. exact Hq. }
  refine (conj _ (conj _ _)).
  - intros Hall. cbn [qiniu_file_loop]. rewrite Ef. unfold bind at 1.
    fold key local_file.
    destruct (qiniu_all_fail R key local_file s Hall) as (w & ->).
    exists w. reflexivity.
  - intros rf s1 Hc Hall. cbn [ftp_file_loop]. rewrite Ef.
    unfold bind at 1. rewrite Hc. unfold bind at 1. fold local_file.
    destruct (ftp_all_timeouts R remote_dir rf local_file s1 Hall) as (w & ->).
    exists w. rewrite (Hsame _ _ Hc). reflexivity.
  - intros rf s1 e w1 Hc Hstor Hperm. cbn [ftp_file_loop]. rewrite Ef.
    unfold bind at 1. rewrite Hc. unfold bind at 1. fold local_file.
    unfold max_retries. cbn [seq].
    destruct (ftp_permanent_once R remote_dir rf local_file 1 [2; 3] s1 e w1
                Hstor Hperm) as (w & ->).
    exists w. rewrite (Hsame _ _ Hc). reflexivity.
Qed.

(** The bound at a remote side that always times out and at a server
    that answers 553. *)
Lemma retry_bound_witness :
  (exists w,
     qiniu_file_loop always_timeout job ("cache/" +:+ job) ["segment_000.ts"] 0
       (start always_timeout 0)
     = (inr 0, mkSt w [EvPut (job +:+ "/segment_000.ts") 1 false; EvSleep 2;
                       EvPut (job +:+ "/segment_000.ts") 2 false; EvSleep 2;
                       EvPut (job +:+ "/segment_000.ts") 3 false]))
  /\ (exists w,
        ftp_file_loop always_timeout ("cache/" +:+ job) ("videos/" +:+ job)
          ["segment_000.ts"] 0 (start always_timeout 0)
        = (inr 0, mkSt w
             [EvStor ("videos/" +:+ job +:+ "/segment_000.ts") 1 false; EvSleep 5;
              EvStor ("videos/" +:+ job +:+ "/segment_000.ts") 2 false; EvSleep 5;
              EvStor ("videos/" +:+ job +:+ "/segment_000.ts") 3 false; EvSleep 5]))
  /\ (exists w,
        ftp_file_loop always_553 ("cache/" +:+ job) ("videos/" +:+ job)
          ["segment_000.ts"] 0 (start always_553 0)
        = (inr 0, mkSt w
             [EvStor ("videos/" +:+ job +:+ "/segment_000.ts") 1 false])).
Proof.
  destruct (retry_bound always_timeout job ("cache/" +:+ job) ("videos/" +:+ job)
              "segment_000.ts" [] 0 (start always_timeout 0) eq_refl)
    as (Hq & Ht & _).
  destruct (retry_bound always_553 job ("cache/" +:+ job) ("videos/" +:+ job)
              "segment_000.ts" [] 0 (start always_553 0) eq_refl)
    as (_ & _ & Hp).
  refine (conj (Hq eq_refl) (conj _ _)).
  - exact (Ht ("videos/" +:+ job +:+ "/segment_000.ts")
              (mkSt (1 : World always_timeout) []) eq_refl eq_refl).
  - exact (Hp ("videos/" +:+ job +:+ "/segment_000.ts")
              (mkSt (1 : World always_553) [])
              (Exn true "553 Could not create file.") 2 eq_refl eq_refl eq_refl).
Defined.

(** C5.  When the connection cannot be set up nothing is transferred and
    the upload returns [False]: [upload_to_qiniu] without the SDK or
    with an incomplete configuration leaves the state as it is;
    [upload_to_ftp] stops right after a failed [connect_ftp] (which
    fails whenever the login raises), with no transfer added to the
    trace. *)
Theorem connect_failure_aborts (R : Remote) app output_dir files s :
  (QINIU_AVAILABLE R = false \/ qiniu_configured app = false ->
   upload_to_qiniu R app output_dir files s = (inr false, s))
  /\ (forall s1,
        connect_ftp R app s = (inr false, s1) ->
        upload_to_ftp R app output_dir files s = (inr false, s1)
        /\ transfers (events s1) = transfers (events s))
  /\ (forall e w,
        ftp_login R (server_ip app) (server_port app) (username app)
          (password app) (use_ssl app) (world s) = (inl e, w) ->
        upload_to_ftp R app output_dir files s = (inr false, mkSt w (events s))).
Proof.
  refine (conj _ (conj _ _)).
  - apply upload_to_qiniu_not_connected.
  - intros s1 Hc. split; [apply upload_to_ftp_connect_failed, Hc|].
    destruct (connect_ftp_events R app s) as (b & w & tr & Hrun & Htr).
    rewrite Hc in Hrun. injection Hrun as _ ->. cbn [events].
    rewrite transfers_app.
    destruct Htr as [-> | ->]; cbn; rewrite app_nil_r; reflexivity.
  - intros e w Hlogin. apply upload_to_ftp_connect_failed.
    unfold connect_ftp, catch. unfold bind at 1, call at 1.
    rewrite Hlogin. reflexivity.
Qed.

(** The abort at a remote side that cannot be reached. *)
Lemma connect_failure_aborts_witness :
  upload_to_qiniu unreachable qiniu_app ("cache/" +:+ job)
    (Some (names movie_dir)) (start unreachable 0)
  = (inr false, start unreachable 0)
  /\ upload_to_ftp unreachable ftp_app ("cache/" +:+ job)
       (Some (names movie_dir)) (start unreachable 0)
     = (inr false, mkSt (1 : World unreachable) [])
  /\ transfers (events (mkSt (1 : World unreachable) [])) = [].
Proof.
  destruct (connect_failure_aborts unreachable qiniu_app ("cache/" +:+ job)
              (Some (names movie_dir)) (start unreachable 0)) as (Hq & _ & _).
  destruct (connect_failure_aborts unreachable ftp_app ("cache/" +:+ job)
              (Some (names movie_dir)) (start unreachable 0)) as (_ & Hf & _).
  destruct (Hf (mkSt (1 : World unreachable) []) eq_refl) as [H1 H2].
  exact (conj (Hq (or_introl eq_refl)) (conj H1 H2)).
Defined.

(** C10.  For a job directory without a [.ts] or [.m3u8] name,
    [upload_to_qiniu] makes no transfer and returns [True], and
    [process_video] goes on to [cleanup_local_files]. *)
Theorem empty_job_counts_as_uploaded (R : Remote) app root item names s :
  QINIU_AVAILABLE R = true -> qiniu_configured app = true ->
  use_qiniu app = true ->
  job_files root item = Some names ->
  List.filter eligible names = [] ->
  upload_to_qiniu R app (path_join (cache_path app) item) (Some names) s
  = (inr true, s)
  /\ process_video R app root item true s
     = (fst (cleanup_local_files root item),
        mkSt (world s)
             (events s ++ [EvCleanup (path_join (cache_path app) item)])).
Proof.
  intros Hav Hcfg Hq Hfiles Hnone.
  assert (Hloop : forall vn od n st,
            qiniu_file_loop R vn od names n st = (inr n, st)).
  { intros vn od. revert Hnone. clear. induction names as [|f rest IH]; intros Hnone n st.
    - reflexivity.
    - cbn [qiniu_file_loop]. cbn [List.filter] in Hnone.
      destruct (eligible f); [discriminate|]. apply IH, Hnone. }
  assert (Hup : upload_to_qiniu R app (path_join (cache_path app) item)
                  (Some names) s = (inr true, s)).
  { unfold upload_to_qiniu, catch. rewrite Hav, Hcfg. cbn [negb listdir].
    unfold bind at 1, ret at 1. unfold bind at 1. rewrite Hloop, Hnone.
    reflexivity. }
  split; [exact Hup|].
  unfold process_video, upload_to_server, catch. rewrite Hq, Hfiles, Hup.
  reflexivity.
Qed.

(** The empty job at a directory that holds only [notes.txt]. *)
Lemma empty_job_counts_as_uploaded_witness :
  upload_to_qiniu always_timeout qiniu_app ("cache/" +:+ job)
    (Some ["notes.txt"]) (start always_timeout 0)
  = (inr true, start always_timeout 0)
  /\ process_video always_timeout qiniu_app notes_root job true
       (start always_timeout 0)
     = ([], mkSt (0 : World always_timeout) [EvCleanup ("cache/" +:+ job)]).
Proof.
  exact (empty_job_counts_as_uploaded always_timeout qiniu_app notes_root job
           ["notes.txt"] (start always_timeout 0)
           eq_refl eq_refl eq_refl eq_refl eq_refl).
Defined.

(** C4, amended.  The cache scan lists a directory, and
    [validate_cache_directory] accepts it, exactly when its listing has at
    least one [.ts] name and at least one [.m3u8] name; the number of
    playlists is not limited to one. *)
Theorem cache_scan_needs_ts_and_m3u8 (root : cache_root) (item : string) :
  (In item (scanned root) <->
   exists r l, In (item, Directory r (Some l)) root
               /\ 1 <= length (ts_files (names l))
               /\ 1 <= length (m3u8_files (names l)))
  /\ (forall r l,
        validate_cache_directory (Some (Directory r (Some l))) = Some true <->
        1 <= length (ts_files (names l)) /\ 1 <= length (m3u8_files (names l))).
Proof.
  split; [apply scanned_spec|apply validate_spec].
Qed.

(** C4 as stated fails: a directory with one segment and two playlists
    is listed by the scan and accepted by the validation. *)
Lemma scan_accepts_two_playlists :
  let ts := length (ts_files (names two_playlists)) in
  let m3u8 := length (m3u8_files (names two_playlists)) in
  ~ (In job (scanned [(job, Directory true (Some two_playlists))]) <->
     spec_eligible ts m3u8 = true)
  /\ ~ (validate_cache_directory (Some (Directory true (Some two_playlists)))
        = Some true <-> spec_eligible ts m3u8 = true).
Proof.
  intros ts m3u8. split; intros [H _].
  - assert (E : spec_eligible ts m3u8 = true)
      by (apply H; left; reflexivity).
    vm_compute in E. discriminate.
  - assert (E : spec_eligible ts m3u8 = true) by (apply H; reflexivity).
    vm_compute in E. discriminate.
Qed.

Lemma mem_placeholder base :
  mem base [""; "."; "v"] = true <-> base = "" \/ base = "." \/ base = "v".
Proof.
  unfold mem. cbn [existsb]. rewrite !orb_true_iff, !String.eqb_eq.
  intuition discriminate.
Qed.

(** C6, amended.  With [job] the base name of the job directory and
    [base] the configured upload path stripped of leading and trailing
    slashes, the FTP target is [job] when [base] is empty, ["."] or
    ["v"], and [base/job] otherwise (which is the configured path itself
    followed by [/job] when that path has no slash at either end); every
    FTP transfer stores an eligible file under its bare name or under
    [target/<file name>], and every qiniu transfer stores an eligible
    file under the key [job/<file name>]. *)
Theorem remote_target (R : Remote) app output_dir files s :
  let job := basename output_dir in
  let base := strip_slash (upload_path app) in
  let remote_dir := ftp_remote_dir (upload_path app) job in
  (base = "" \/ base = "." \/ base = "v" <-> remote_dir = job)
  /\ (~ (base = "" \/ base = "." \/ base = "v") <->
      remote_dir = base +:+ "/" +:+ job)
  /\ (startswith (upload_path app) "/" = false ->
      endswith (upload_path app) "/" = false ->
      base = upload_path app)
  /\ (exists (b : bool) w tr,
        upload_to_ftp R app output_dir files s = (inr b, mkSt w (events s ++ tr))
        /\ Forall (ftp_event remote_dir (default [] files)) tr)
  /\ (exists (b : bool) w tr,
        upload_to_qiniu R app output_dir files s = (inr b, mkSt w (events s ++ tr))
        /\ Forall (qiniu_event output_dir (default [] files)) tr).
Proof.
  intros job base remote_dir.
  assert (Hlen : forall a b : string,
            String.length (a +:+ b) = String.length a + String.length b).
  { induction a as [|c a IH]; intros b; simpl; [reflexivity|]. rewrite IH. reflexivity. }
  assert (Hne : base +:+ "/" +:+ job <> job).
  { intros E. apply (f_equal String.length) in E. rewrite !Hlen in E.
    simpl in E. lia. }
  subst remote_dir. unfold ftp_remote_dir. fold base.
  destruct (mem base [""; "."; "v"]) eqn:Em.
  - apply mem_placeholder in Em.
    refine (conj _ (conj _ (conj _ (conj _ _)))).
    + tauto.
    + split; [tauto|]. intros E. symmetry in E. contradiction.
    + apply strip_slash_id.
    + pose proof (upload_to_ftp_events R app output_dir files s) as H.
      unfold ftp_remote_dir in H. fold base job in H.
      destruct (mem base [""; "."; "v"]) eqn:Em'; [exact H|].
      apply mem_placeholder in Em. rewrite Em in Em'. discriminate.
    + apply upload_to_qiniu_events.
  - assert (Hn : ~ (base = "" \/ base = "." \/ base = "v")).
    { intros H. apply mem_placeholder in H. rewrite H in Em. discriminate. }
    refine (conj _ (conj _ (conj _ (conj _ _)))).
    + split; [tauto|]. intros E. contradiction.
    + tauto.
    + apply strip_slash_id.
    + pose proof (upload_to_ftp_events R app output_dir files s) as H.
      unfold ftp_remote_dir in H. fold base job in H.
      rewrite Em in H. exact H.
    + apply upload_to_qiniu_events.
Qed.

(** The target for the upload path [/www/videos]. *)
Lemma remote_target_witness :
  strip_slash "/www/videos" = "www/videos"
  /\ ftp_remote_dir (upload_path ftp_app) (basename ("cache/" +:+ job))
     = "www/videos/" +:+ job.
Proof.
  destruct (remote_target unreachable ftp_app ("cache/" +:+ job) None
              (start unreachable 0)) as (_ & H & _).
  split; [reflexivity|].
  apply H. intros [E|[E|E]]; discriminate E.
Defined.

(** C6 as stated fails: a configured path with a leading slash is not
    used as it is, and a one-letter path other than ["v"] does not
    collapse. *)
Lemma remote_target_strips_slashes :
  ftp_remote_dir "/videos" "movie" <> "/videos" +:+ "/" +:+ "movie"
  /\ ftp_remote_dir "a" "movie" <> "movie".
Proof. split; vm_compute; discriminate. Qed.

(** C7, amended.  [set_default_cache_path] sets the per-user
    application-data directory when that directory exists or can be
    created; otherwise it sets the [cache] subdirectory of the current
    working directory when that one exists or can be created; and it
    raises exactly when the first choice fails and the fallback fails
    too ([os.getcwd] or [os.makedirs] raises inside the [except]
    branch). *)
Theorem default_cache_path_result (os : CachePath.Os) :
  let user := CachePath.user_cache_dir os in
  (forall p,
      CachePath.set_default_cache_path os = CachePath.PathSet p <->
      (CachePath.ensure_dir os user = true /\ p = user)
      \/ (CachePath.ensure_dir os user = false
          /\ exists cwd, CachePath.getcwd os = Some cwd
                         /\ CachePath.ensure_dir os (path_join cwd "cache") = true
                         /\ p = path_join cwd "cache"))
  /\ (CachePath.set_default_cache_path os = CachePath.Raised <->
      CachePath.ensure_dir os user = false
      /\ (CachePath.getcwd os = None
          \/ exists cwd, CachePath.getcwd os = Some cwd
                         /\ CachePath.ensure_dir os (path_join cwd "cache") = false)).
Proof.
  intros user. unfold CachePath.set_default_cache_path. fold user.
  destruct (CachePath.ensure_dir os user) eqn:E1.
  - split.
    + intros p. split.
      * intros H. injection H as <-. left. auto.
      * intros [[_ ->]|[H _]]; [reflexivity|discriminate].
    + split; [discriminate|intros [H _]; discriminate].
  - destruct (CachePath.getcwd os) as [cwd|] eqn:E2.
    + destruct (CachePath.ensure_dir os (path_join cwd "cache")) eqn:E3.
      * split.
        -- intros p. split.
           ++ intros H. injection H as <-. right. split; [reflexivity|].
              exists cwd. auto.
           ++ intros [[H _]|[_ (c & Hc & _ & ->)]]; [discriminate|].
              injection Hc as <-. reflexivity.
        -- split; [discriminate|].
           intros [_ [H|(c & Hc & Hf)]]; [discriminate|].
           injection Hc as <-. rewrite E3 in Hf. discriminate.
      * split.
        -- intros p. split; [discriminate|].
           intros [[H _]|[_ (c & Hc & Ht & _)]]; [discriminate|].
           injection Hc as <-. rewrite E3 in Ht. discriminate.
        -- split; [|reflexivity]. intros _. split; [reflexivity|].
           right. exists cwd. auto.
    + split.
      * intros p. split; [discriminate|].
        intros [[H _]|[_ (c & Hc & _)]]; discriminate.
      * split; [|reflexivity]. intros _. auto.
Qed.

(** C7 as stated fails: where neither directory exists nor can be
    created, no path is set and the exception of the fallback leaves the
    method. *)
Lemma default_cache_path_can_raise :
  ~ (exists p, CachePath.set_default_cache_path read_only_os = CachePath.PathSet p)
  /\ CachePath.set_default_cache_path read_only_os = CachePath.Raised.
Proof.
  split; [|reflexivity]. intros [p H]. vm_compute in H. discriminate.
Qed.

Lemma keep_alive_run_app sch1 sch2 s :
  KeepAlive.run (sch1 ++ sch2) s = KeepAlive.run sch2 (KeepAlive.run sch1 s).
Proof. unfold KeepAlive.run. apply fold_left_app. Qed.

Lemma keep_alive_closed_stays_closed schedule s :
  KeepAlive.session_open s = false ->
  KeepAlive.session_open (KeepAlive.run schedule s) = false
  /\ exists more,
       KeepAlive.activity (KeepAlive.run schedule s) = KeepAlive.activity s ++ more
       /\ length more = KeepAlive.wakes schedule
       /\ Forall (fun a => snd a = KeepAlive.NoopSwallowed) more.
Proof.
  revert s. induction schedule as [|a rest IH]; intros s Hs.
  - split; [exact Hs|]. exists []. rewrite app_nil_r.
    repeat split. apply List.Forall_nil.
  - destruct a.
    + assert (Hstep : KeepAlive.step s KeepAlive.Wake =
                KeepAlive.mkState false (KeepAlive.slept s + 30)
                  (KeepAlive.activity s ++
                     [(KeepAlive.slept s + 30, KeepAlive.NoopSwallowed)])).
      { unfold KeepAlive.step, KeepAlive.ftp_keep_alive_turn, KeepAlive.keep_alive.
        cbn. rewrite Hs. reflexivity. }
      change (KeepAlive.run (KeepAlive.Wake :: rest) s)
        with (KeepAlive.run rest (KeepAlive.step s KeepAlive.Wake)).
      rewrite Hstep.
      destruct (IH (KeepAlive.mkState false (KeepAlive.slept s + 30)
                      (KeepAlive.activity s ++
                         [(KeepAlive.slept s + 30, KeepAlive.NoopSwallowed)]))
                  eq_refl) as (Ho & more & -> & Hlen & Hall).
      split; [exact Ho|].
      exists ((KeepAlive.slept s + 30, KeepAlive.NoopSwallowed) :: more).
      cbn [KeepAlive.activity]. rewrite <- app_assoc.
      repeat split.
      * cbn. rewrite Hlen. reflexivity.
      * apply List.Forall_cons; [reflexivity|exact Hall].
    + change (KeepAlive.run (KeepAlive.Quit :: rest) s)
        with (KeepAlive.run rest (KeepAlive.step s KeepAlive.Quit)).
      destruct (IH (KeepAlive.step s KeepAlive.Quit) eq_refl)
        as (Ho & more & Hact & Hlen & Hall).
      split; [exact Ho|]. exists more. repeat split; assumption.
Qed.

(** C8, amended.  The keep-alive thread is never cancelled: under every
    schedule each of its wake-ups calls [keep_alive], before and after
    the session is closed, and one more wake-up always adds one more
    call.  After [quit] the calls go on; their [NOOP] raises and the
    exception is swallowed. *)
Theorem keep_alive_never_cancelled (before after : list KeepAlive.Action) :
  let closed := KeepAlive.run (before ++ [KeepAlive.Quit]) KeepAlive.started in
  let final := KeepAlive.run after closed in
  length (KeepAlive.activity closed) = KeepAlive.wakes before
  /\ (exists more,
        KeepAlive.activity final = KeepAlive.activity closed ++ more
        /\ length more = KeepAlive.wakes after
        /\ Forall (fun a => snd a = KeepAlive.NoopSwallowed) more)
  /\ length (KeepAlive.activity (KeepAlive.step final KeepAlive.Wake))
     = S (length (KeepAlive.activity final)).
Proof.
  intros closed final.
  assert (Hlen : forall sch s,
            length (KeepAlive.activity (KeepAlive.run sch s))
            = length (KeepAlive.activity s) + KeepAlive.wakes sch).
  { induction sch as [|a rest IH]; intros s.
    - cbn. lia.
    - change (KeepAlive.run (a :: rest) s)
        with (KeepAlive.run rest (KeepAlive.step s a)).
      rewrite IH. destruct a.
      + unfold KeepAlive.step, KeepAlive.ftp_keep_alive_turn, KeepAlive.keep_alive.
        cbn [KeepAlive.session_open KeepAlive.slept KeepAlive.activity].
        destruct (KeepAlive.session_open s);
          cbn [KeepAlive.activity KeepAlive.wakes List.filter length];
          rewrite length_app; cbn [length]; unfold KeepAlive.wakes; lia.
      + cbn. unfold KeepAlive.wakes. lia. }
  assert (Hclosed : KeepAlive.session_open closed = false).
  { subst closed. rewrite keep_alive_run_app. reflexivity. }
  refine (conj _ (conj _ _)).
  - subst closed. rewrite Hlen. cbn [KeepAlive.started KeepAlive.activity length].
    unfold KeepAlive.wakes. rewrite List.filter_app, length_app. cbn. lia.
  - apply (keep_alive_closed_stays_closed after closed Hclosed).
  - unfold KeepAlive.step, KeepAlive.ftp_keep_alive_turn, KeepAlive.keep_alive.
    cbn [KeepAlive.session_open KeepAlive.slept KeepAlive.activity].
    destruct (KeepAlive.session_open final);
      cbn [KeepAlive.activity]; rewrite length_app; cbn [length]; lia.
Qed.

(** C8 as stated fails: thirty seconds after [quit] the thread wakes up
    and calls [keep_alive] once more. *)
Lemma keep_alive_after_quit :
  ~ (KeepAlive.activity
       (KeepAlive.run [KeepAlive.Quit; KeepAlive.Wake] KeepAlive.started)
     = KeepAlive.activity (KeepAlive.run [KeepAlive.Quit] KeepAlive.started))
  /\ KeepAlive.activity
       (KeepAlive.run [KeepAlive.Quit; KeepAlive.Wake] KeepAlive.started)
     = [(30, KeepAlive.NoopSwallowed)].
Proof. split; [vm_compute; discriminate|reflexivity]. Qed.

Lemma has_key_false (d : Config.Document) (key : string) :
  Config.has_key d key = false -> d !! key = None.
Proof.
  unfold Config.has_key. intros H. apply bool_decide_eq_false in H.
  apply eq_None_not_Some. exact H.
Qed.

Ltac load_config_cases tk_boolean d :=
  unfold Config.load_config in *; cbv zeta in *;
  destruct (Config.is_qiniu (default (Config.JString "ftp") (d !! "storage_type")))
    eqn:Eqiniu;
  [|let v := fresh "v" in
    let Essl := fresh "Essl" in
    let b := fresh "b" in
    let Eb := fresh "Eb" in
    destruct (d !! "use_ssl") as [v|] eqn:Essl;
    [destruct (Config.set_boolean tk_boolean v) as [b|] eqn:Eb|]];
  cbn [fst snd negb Config.value_of Config.key_of Config.overwritten_for
       segment_duration quality_crf server_ip server_port username password
       upload_path use_ssl qiniu_access_key qiniu_secret_key
       qiniu_bucket_name qiniu_domain use_qiniu cache_path] in *.

(** C9, amended.  Loading a parsed document leaves every setting other
    than the storage type unchanged when its key is absent; a setting
    that changes takes the value the document holds for it.  The storage
    type is always overwritten: it becomes qiniu when the document says
    so and FTP otherwise, also when the key [storage_type] is absent.  A
    file that is missing, unreadable, not JSON or not a JSON object
    leaves all settings as they were and ends in a warning or an error
    box.  A JSON object can end in the error box too, and then it has
    been applied in part: this happens exactly when FTP is selected
    and [use_ssl] holds a value that cannot be read as a boolean, or
    qiniu is selected and [qiniu_access_key] holds a value that cannot
    be sliced; the text settings of the selected storage type and the
    basic settings have taken the document's values all the same. *)
Theorem load_config_frame (tk_string : Config.Json -> string)
    (tk_boolean : Config.Json -> option bool)
    (file : Config.ConfigFile) (app : App) :
  let loaded := fst (Config.load_config tk_string tk_boolean file app) in
  let report := snd (Config.load_config tk_string tk_boolean file app) in
  (forall d f,
      file = Config.Parsed d -> f <> Config.FUseQiniu ->
      Config.has_key d (Config.key_of f) = false ->
      Config.value_of f loaded = Config.value_of f app)
  /\ (forall d f,
        file = Config.Parsed d -> f <> Config.FUseQiniu ->
        Config.value_of f loaded <> Config.value_of f app ->
        Config.document_value tk_string tk_boolean d f
        = Some (Config.value_of f loaded))
  /\ (forall d,
        file = Config.Parsed d ->
        use_qiniu loaded
        = Config.is_qiniu (default (Config.JString "ftp") (d !! "storage_type")))
  /\ ((forall d, file <> Config.Parsed d) ->
      loaded = app /\ report <> Config.ShowInfoLoaded)
  /\ (forall d,
        file = Config.Parsed d ->
        (report = Config.ShowErrorOther <->
         (use_qiniu loaded = true
          /\ exists v, d !! "qiniu_access_key" = Some v
                       /\ Config.sliceable v = false)
         \/ (use_qiniu loaded = false
             /\ exists v, d !! "use_ssl" = Some v
                          /\ Config.set_boolean tk_boolean v = None))
        /\ (report <> Config.ShowErrorOther -> report = Config.ShowInfoLoaded)
        /\ (forall f v,
              f <> Config.FUseSsl -> f <> Config.FUseQiniu ->
              Config.overwritten_for f (use_qiniu loaded) = true ->
              d !! Config.key_of f = Some v ->
              Config.value_of f loaded
              = Config.VString (Config.set_string tk_string v))).
Proof.
  intros loaded report. subst loaded report.
  refine (conj _ (conj _ (conj _ (conj _ _)))).
  - intros d f -> Hf Hk. apply has_key_false in Hk.
    destruct f; try contradiction; load_config_cases tk_boolean d;
      try rewrite Hk; try reflexivity; congruence.
  - intros d f -> Hf Hch.
    destruct f; try contradiction; load_config_cases tk_boolean d;
      cbn [Config.document_value Config.key_of];
      try (contradiction Hch; reflexivity);
      try (rewrite Essl, Eb; reflexivity);
      match goal with
      | |- context [d !! ?k] =>
          destruct (d !! k); cbn [Config.apply_key fmap option_fmap option_map] in *
      end;
      try reflexivity; contradiction Hch; reflexivity.
  - intros d ->. load_config_cases tk_boolean d; reflexivity.
  - intros Hnot. destruct file as [| | | |d];
      try (split; [reflexivity|discriminate]).
    contradiction (Hnot d). reflexivity.
  - intros d ->. refine (conj _ (conj _ _)).
    + load_config_cases tk_boolean d.
      * destruct (d !! "qiniu_access_key") as [v|] eqn:Ek;
          cbn [default from_option id].
        -- destruct (Config.sliceable v) eqn:Es; cbv iota; split.
           ++ discriminate.
           ++ intros [(_ & v' & Hv & Hs)|(H & _)]; [|discriminate].
              injection Hv as <-. rewrite Es in Hs. discriminate.
           ++ intros _. left. split; [reflexivity|]. exists v. auto.
           ++ reflexivity.
        -- cbn [Config.sliceable]. cbv iota. split; [discriminate|].
           intros [(_ & v' & Hv & _)|(H & _)]; discriminate.
      * split; [discriminate|].
        intros [(H & _)|(_ & v' & Hv & Hb)]; [discriminate|].
        injection Hv as <-. rewrite Eb in Hb. discriminate.
      * split; [|reflexivity]. intros _. right. split; [reflexivity|].
        exists v. auto.
      * split; [discriminate|].
        intros [(H & _)|(_ & v' & Hv & _)]; discriminate.
    + load_config_cases tk_boolean d; try (intros _; reflexivity);
        try (intros H; contradiction H; reflexivity).
      destruct (Config.sliceable _); [reflexivity|].
      intros H. contradiction H. reflexivity.
    + intros f v Hssl Hq.
      destruct f; try contradiction; load_config_cases tk_boolean d;
        intros Ho Hv; try discriminate; rewrite Hv; reflexivity.
Qed.

(** The frame at a document that only names the bucket, loaded over the
    qiniu settings, and at a document whose [use_ssl] is no boolean,
    loaded over the FTP settings. *)
Lemma load_config_frame_witness :
  let load := Config.load_config sample_tk_string sample_tk_boolean in
  Config.value_of Config.FCachePath
    (fst (load (Config.Parsed bucket_document) qiniu_app))
  = Config.VString "cache"
  /\ use_qiniu (fst (load (Config.Parsed bucket_document) qiniu_app)) = true
  /\ fst (load Config.Malformed qiniu_app) = qiniu_app
  /\ snd (load (Config.Parsed handwritten_document) ftp_app)
     = Config.ShowErrorOther
  /\ Config.value_of Config.FServerIp
       (fst (load (Config.Parsed handwritten_document) ftp_app))
     = Config.VString "198.51.100.7".
Proof.
  intros load. subst load.
  destruct (load_config_frame sample_tk_string sample_tk_boolean
              (Config.Parsed bucket_document) qiniu_app)
    as (H1 & _ & H3 & _).
  destruct (load_config_frame sample_tk_string sample_tk_boolean
              Config.Malformed qiniu_app) as (_ & _ & _ & H4 & _).
  destruct (load_config_frame sample_tk_string sample_tk_boolean
              (Config.Parsed handwritten_document) ftp_app)
    as (_ & _ & _ & _ & H5).
  destruct (H5 handwritten_document eq_refl) as (Herr & _ & Happlied).
  refine (conj _ (conj _ (conj _ (conj _ _)))).
  - apply (H1 bucket_document Config.FCachePath eq_refl).
    + discriminate.
    + vm_compute. reflexivity.
  - rewrite (H3 bucket_document eq_refl). vm_compute. reflexivity.
  - apply H4. intros d. discriminate.
  - apply Herr. right. split; [vm_compute; reflexivity|].
    exists (Config.JString "maybe"). split; vm_compute; reflexivity.
  - apply (Happlied Config.FServerIp (Config.JString "198.51.100.7"));
      try discriminate; vm_compute; reflexivity.
Defined.

(** C9 as stated fails: loading a document without the key
    [storage_type] switches the storage type from qiniu to FTP. *)
Lemma load_config_resets_storage_type :
  Config.has_key empty_document (Config.key_of Config.FUseQiniu) = false
  /\ Config.value_of Config.FUseQiniu
       (fst (Config.load_config sample_tk_string sample_tk_boolean
               (Config.Parsed empty_document) qiniu_app))
     <> Config.value_of Config.FUseQiniu qiniu_app.
Proof. split; [vm_compute; reflexivity|vm_compute; discriminate]. Qed.

(** The claim's last clause fails as well for a document that is a
    JSON object with a value of the wrong type: it is reported as an
    error after the server address has been overwritten. *)
Lemma load_config_error_after_change :
  let load := Config.load_config sample_tk_string sample_tk_boolean in
  snd (load (Config.Parsed handwritten_document) ftp_app) = Config.ShowErrorOther
  /\ server_ip (fst (load (Config.Parsed handwritten_document) ftp_app))
     <> server_ip ftp_app.
Proof. split; [vm_compute; reflexivity|vm_compute; discriminate]. Qed.

(** * Further properties of the upload functions *)

Lemma attempted_le_transfers tr : attempted tr <= length (transfers tr).
Proof.
  unfold attempted, transfers. induction tr as [|e tr IH]; [reflexivity|].
  cbn [List.filter].
  destruct e; cbn [is_first_attempt is_transfer]; cbn [length]; try lia;
    destruct (Nat.eqb _ 1); cbn [length]; lia.
Qed.

Lemma some_stored (blocks : list (list Event * bool)) :
  (0 <? length (List.filter snd blocks)) = existsb snd blocks.
Proof.
  induction blocks as [|[tr b] rest IH]; [reflexivity|].
  cbn [List.filter existsb snd]. destruct b; cbn [length orb]; auto.
Qed.

Lemma stored_all_or_some (blocks : list (list Event * bool)) :
  ((length (List.filter snd blocks) =? length blocks)
   || (0 <? length (List.filter snd blocks)))
  = (forallb snd blocks || existsb snd blocks).
Proof.
  rewrite some_stored. destruct blocks as [|[tr b] rest]; [reflexivity|].
  cbn [List.filter forallb existsb snd length].
  destruct b; cbn [andb orb length].
  - rewrite !orb_true_r. reflexivity.
  - pose proof (List.filter_length_le snd rest) as Hle.
    destruct (Nat.eqb_spec (length (List.filter snd rest)) (S (length rest)));
      [lia|reflexivity].
Qed.

Lemma qiniu_file_loop_all_accepted (R : Remote) video_name output_dir names n s :
  (forall key local_file w,
      exists w', qiniu_attempt R key local_file w = (inr true, w')) ->
  exists w,
    qiniu_file_loop R video_name output_dir names n s
    = (inr (n + length (List.filter eligible names)),
       mkSt w (events s ++
                 map (fun f => EvPut (video_name +:+ "/" +:+ f) 1 true)
                     (List.filter eligible names))).
Proof.
  intros Hok. revert n s. induction names as [|f rest IH]; intros n s.
  - exists (world s). cbn. rewrite app_nil_r, Nat.add_0_r, St_eta. reflexivity.
  - cbn [qiniu_file_loop List.filter]. destruct (eligible f).
    + unfold bind at 1. unfold max_retries. cbn [seq].
      rewrite qiniu_retry_step.
      destruct (Hok (video_name +:+ "/" +:+ f) (path_join output_dir f) (world s))
        as (w1 & ->).
      cbn [put_failed].
      destruct (IH (S n) (mkSt w1 (events s ++
                       [EvPut (video_name +:+ "/" +:+ f) 1 true])))
        as (w2 & ->).
      exists w2. cbn [events length map]. rewrite <- app_assoc.
      rewrite Nat.add_succ_r. reflexivity.
    + apply IH.
Qed.

(** X1.  When every file can be measured, the SDK accepts every put and
    the clock advances during each put, [upload_to_qiniu] returns
    [True] after exactly one attempt per eligible file, in listing
    order, without a wait. *)
Theorem upload_to_qiniu_all_accepted (R : Remote) app output_dir names s :
  QINIU_AVAILABLE R = true -> qiniu_configured app = true ->
  (forall local_file w, exists size, getsize R local_file w = inr size) ->
  (forall key local_file w,
      exists w', put_file_v2 R key local_file w = (inr (Some key), w')
                 /\ time_time R w' <> time_time R w) ->
  exists w,
    upload_to_qiniu R app output_dir (Some names) s
    = (inr true,
       mkSt w (events s ++
                 map (fun f => EvPut (qiniu_key output_dir f) 1 true)
                     (List.filter eligible names))).
Proof.
  intros Hav Hcfg Hsize Hput.
  assert (Hok : forall key local_file w,
            exists w', qiniu_attempt R key local_file w = (inr true, w')).
  { intros key local_file w.
    destruct (Hsize local_file w) as (size & Hs).
    destruct (Hput key local_file w) as (w' & Hp & Ht).
    exists w'. apply (qiniu_attempt_accepted R key local_file w size w' Hs Hp).
    unfold speed_raises. apply Nat.eqb_neq in Ht. rewrite Ht.
    apply andb_false_r. }
  unfold upload_to_qiniu, catch.
  rewrite Hav, Hcfg. cbn [negb listdir]. unfold bind at 1, ret at 1.
  unfold bind at 1.
  destruct (qiniu_file_loop_all_accepted R (basename output_dir) output_dir
              names 0 s Hok) as (w & ->).
  cbn [Nat.add]. rewrite Nat.eqb_refl. exists w. reflexivity.
Qed.

Lemma upload_to_qiniu_all_accepted_witness :
  exists w,
    upload_to_qiniu
      (scripted true true (fun key => inr (Some key)) (fun _ => inr tt))
      qiniu_app ("cache/" +:+ job) (Some (names movie_dir))
      (mkSt (0 : World (scripted true true (fun key => inr (Some key))
                          (fun _ => inr tt))) [])
    = (inr true,
       mkSt w [EvPut (job +:+ "/segment_000.ts") 1 true;
               EvPut (job +:+ "/segment_001.ts") 1 true;
               EvPut (job +:+ "/playlist.m3u8") 1 true]).
Proof.
  apply (upload_to_qiniu_all_accepted
           (scripted true true (fun key => inr (Some key)) (fun _ => inr tt))
           qiniu_app ("cache/" +:+ job) (names movie_dir)
           (mkSt (0 : World (scripted true true (fun key => inr (Some key))
                               (fun _ => inr tt))) [])
           eq_refl eq_refl).
  - intros local_file w. exists 4096. reflexivity.
  - intros key local_file w. exists (S w). split; [reflexivity|].
    cbn. lia.
Defined.

(** X2.  [upload_to_qiniu] never raises, and what it does is settled
    file by file: its trace is made of one block per eligible file of
    the listing, in listing order, and the block of a file holds one,
    two or three attempts on the key of that file, numbered from one,
    of which only the last can have succeeded, with a wait of two
    seconds between two attempts.  It returns [False] exactly when there
    is an eligible file and no block ends in a success. *)
Theorem upload_to_qiniu_put_bounds (R : Remote) app output_dir names s :
  QINIU_AVAILABLE R = true -> qiniu_configured app = true ->
  exists (b : bool) w blocks,
    upload_to_qiniu R app output_dir (Some names) s
      = (inr b, mkSt w (events s ++ concat (map fst blocks)))
    /\ Forall2 (fun f block =>
                  In block (qiniu_file_traces (qiniu_key output_dir f)))
         (List.filter eligible names) blocks
    /\ b = (forallb snd blocks || existsb snd blocks).
Proof.
  intros Hav Hcfg. unfold upload_to_qiniu, catch.
  rewrite Hav, Hcfg. cbn [negb listdir]. unfold bind at 1, ret at 1.
  unfold bind at 1.
  destruct (qiniu_file_loop_traces R (basename output_dir) output_dir names 0 s)
    as (w & blocks & -> & Hall).
  cbn [Nat.add]. rewrite (Forall2_length _ _ _ Hall).
  exists (forallb snd blocks || existsb snd blocks), w, blocks.
  rewrite <- stored_all_or_some.
  split; [|split; [exact Hall|reflexivity]].
  destruct (length (List.filter snd blocks) =? length blocks); reflexivity.
Qed.

Lemma upload_to_qiniu_put_bounds_witness :
  exists (b : bool) w blocks,
    upload_to_qiniu rejects_segment_001 qiniu_app ("cache/" +:+ job)
      (Some (names movie_dir)) (start rejects_segment_001 0)
      = (inr b, mkSt w ([] ++ concat (map fst blocks)))
    /\ Forall2 (fun f block =>
                  In block (qiniu_file_traces (qiniu_key ("cache/" +:+ job) f)))
         (List.filter eligible (names movie_dir)) blocks
    /\ b = (forallb snd blocks || existsb snd blocks).
Proof.
  exact (upload_to_qiniu_put_bounds rejects_segment_001 qiniu_app
           ("cache/" +:+ job) (names movie_dir) (start rejects_segment_001 0)
           eq_refl eq_refl).
Defined.

(** X3.  A retry can save a file: when the first qiniu attempt fails
    (its body raises, or the answer is rejected) and the second ends
    with [upload_success = True], the file is attempted exactly twice,
    two seconds apart, and counted as uploaded; when the first FTP
    attempt raises with the timeout signature and the second ends with
    [upload_success = True], the file is attempted exactly twice, five
    seconds apart, and counted. *)
Theorem second_attempt_recovers (R : Remote) video_name output_dir remote_dir
    filename rest n s :
  eligible filename = true ->
  let key := video_name +:+ "/" +:+ filename in
  let local_file := path_join output_dir filename in
  (forall r1 w1 w2,
      qiniu_attempt R key local_file (world s) = (r1, w1) ->
      put_failed r1 = true ->
      qiniu_attempt R key local_file w1 = (inr true, w2) ->
      qiniu_file_loop R video_name output_dir (filename :: rest) n s
      = qiniu_file_loop R video_name output_dir rest (S n)
          (mkSt w2 (events s ++
             [EvPut key 1 false; EvSleep 2; EvPut key 2 true])))
  /\ (forall remote_file s1 e w1 w2,
        choose_remote_file R remote_dir filename s = (inr remote_file, s1) ->
        ftp_attempt R remote_file local_file (world s1) = (inl e, w1) ->
        str_in "10060" (text e) = true ->
        ftp_attempt R remote_file local_file w1 = (inr tt, w2) ->
        ftp_file_loop R output_dir remote_dir (filename :: rest) n s
        = ftp_file_loop R output_dir remote_dir rest (S n)
            (mkSt w2 (events s ++
               [EvStor remote_file 1 false; EvSleep 5;
                EvStor remote_file 2 true]))).
Proof.
  intros Ef key local_file. split.
  - intros r1 w1 w2 H1 F1 H2. cbn [qiniu_file_loop]. rewrite Ef.
    unfold bind at 1. fold key local_file. unfold max_retries. cbn [seq].
    rewrite qiniu_retry_step, H1, F1.
    unfold max_retries. cbn [Nat.ltb Nat.leb].
    rewrite qiniu_retry_step. cbn [world events]. rewrite H2.
    cbn [put_failed]. rewrite <- app_assoc. reflexivity.
  - intros rf s1 e w1 w2 Hc H1 Ht H2. cbn [ftp_file_loop]. rewrite Ef.
    unfold bind at 1. rewrite Hc. unfold bind at 1. fold local_file.
    assert (Hsame : events s1 = events s).
    { pose proof (quiet_silent R _
                    (quiet_choose_remote_file R remote_dir filename) s) as Hq.
      rewrite Hc in Hq. exact Hq. }
    unfold max_retries. cbn [seq].
    rewrite ftp_retry_step, H1. cbn zeta. rewrite Ht.
    rewrite ftp_retry_step. cbn [world events]. rewrite H2.
    rewrite Hsame, <- app_assoc. reflexivity.
Qed.

(** X4.  The return value of [upload_to_ftp] does not depend on the
    files: once the session is set up, the remote directory is made and
    the job directory is listed, it returns [True] as soon as [quit]
    returns, whatever number of files the loop stored (none included). *)
Theorem upload_to_ftp_ignores_file_outcomes (R : Remote) app output_dir names
    s s1 s2 n s3 w4 :
  connect_ftp R app s = (inr true, s1) ->
  create_remote_directory R
    (ftp_remote_dir (upload_path app) (basename output_dir)) s1
    = (inr true, s2) ->
  ftp_file_loop R output_dir
    (ftp_remote_dir (upload_path app) (basename output_dir)) names 0 s2
    = (inr n, s3) ->
  ftp_quit R (world s3) = (inr tt, w4) ->
  upload_to_ftp R app output_dir (Some names) s
  = (inr true, mkSt w4 (events s3 ++ [EvQuit])).
Proof. apply upload_to_ftp_reaches_quit. Qed.

Lemma ftp_file_event_not_quit remote_dir names e :
  ftp_file_event remote_dir names e -> e <> EvQuit.
Proof.
  intros (f & _ & _ & [[(n & b & ->)| ->]|[(n & b & ->)| ->]]); discriminate.
Qed.

(** X5.  [upload_to_ftp] never raises, and it closes the session with
    [quit] exactly on the path that returns [True]: when it returns
    [False] (no session, remote directory not made, listing failed,
    [quit] itself raised) the trace has no completed [quit]. *)
Theorem upload_to_ftp_quits_iff_true (R : Remote) app output_dir files s :
  exists (b : bool) w tr,
    upload_to_ftp R app output_dir files s = (inr b, mkSt w (events s ++ tr))
    /\ (In EvQuit tr <-> b = true).
Proof.
  set (rd := ftp_remote_dir (upload_path app) (basename output_dir)).
  unfold upload_to_ftp, catch. unfold bind at 1.
  destruct (connect_ftp_events R app s) as (c & w1 & tr1 & -> & Htr1).
  assert (Hq1 : ~ In EvQuit tr1).
  { destruct Htr1 as [-> | ->]; cbn; intuition discriminate. }
  destruct c; cbn [negb].
  2:{ exists false, w1, tr1. split; [reflexivity|].
      split; [intros H; contradiction|discriminate]. }
  fold rd. unfold bind at 1.
  destruct (quiet_create_remote_directory R rd (mkSt w1 (events s ++ tr1)))
    as (d & w2 & ->).
  cbn [events]. destruct d; cbn [negb].
  2:{ exists false, w2, tr1. split; [reflexivity|].
      split; [intros H; contradiction|discriminate]. }
  destruct files as [names|]; cbn [listdir].
  2:{ exists false, w2, tr1. split; [reflexivity|].
      split; [intros H; contradiction|discriminate]. }
  unfold bind at 1, ret at 1. unfold bind at 1.
  destruct (ftp_file_loop_events R output_dir rd names 0
              (mkSt w2 (events s ++ tr1)))
    as (n & w3 & tr3 & -> & Htr3).
  cbn [events]. unfold bind at 1, call at 1. cbn [world events].
  assert (Hq3 : ~ In EvQuit (tr1 ++ tr3)).
  { intros H. apply in_app_or in H as [H|H]; [contradiction|].
    rewrite List.Forall_forall in Htr3.
    exact (ftp_file_event_not_quit _ _ _ (Htr3 _ H) eq_refl). }
  destruct (ftp_quit R w3) as [[e|[]] w4].
  - exists false, w4, (tr1 ++ tr3). rewrite app_assoc.
    split; [reflexivity|]. split; [intros H; contradiction|discriminate].
  - exists true, w4, ((tr1 ++ tr3) ++ [EvQuit]).
    unfold bind, emit, ret. cbn [world events]. rewrite !app_assoc.
    split; [reflexivity|]. split; [reflexivity|].
    intros _. apply in_or_app. right. left. reflexivity.
Qed.

(** X6.  With the FTP backend [process_video] deletes the job directory
    even when no file reached the server: whenever the session is set
    up, the remote directory is made and [quit] returns, the upload
    counts as done and [cleanup_local_files] runs, whatever the file
    loop stored. *)
Theorem process_video_ftp_cleans_whatever_was_stored (R : Remote) app root item
    names s s1 s2 n s3 w4 :
  use_qiniu app = false ->
  job_files root item = Some names ->
  let output_dir := path_join (cache_path app) item in
  let remote_dir := ftp_remote_dir (upload_path app) (basename output_dir) in
  connect_ftp R app s = (inr true, s1) ->
  create_remote_directory R remote_dir s1 = (inr true, s2) ->
  ftp_file_loop R output_dir remote_dir names 0 s2 = (inr n, s3) ->
  ftp_quit R (world s3) = (inr tt, w4) ->
  process_video R app root item true s
  = (fst (cleanup_local_files root item),
     mkSt w4 ((events s3 ++ [EvQuit]) ++ [EvCleanup output_dir])).
Proof.
  intros Hftp Hfiles output_dir remote_dir Hc Hd Hl Hq.
  unfold process_video, upload_to_server, catch. fold output_dir.
  rewrite Hftp, Hfiles.
  rewrite (upload_to_ftp_reaches_quit R app output_dir names s s1 s2 n s3 w4
             Hc Hd Hl Hq).
  reflexivity.
Qed.

(** * Re-uploading *)

Import Reupload.

Lemma cache_dirs_none root :
  cache_dirs root = None <-> exists item r, In (item, Directory r None) root.
Proof.
  induction root as [|[i it] rest IH]; cbn [cache_dirs].
  - split; [discriminate|intros (item & r & [])].
  - destruct it as [|r0 [l|]].
    + rewrite IH. split; intros (item & r & H); exists item, r;
        [right; exact H|destruct H as [H|H]; [discriminate|exact H]].
    + destruct (cache_dirs rest) as [dirs|] eqn:E.
      * split.
        -- destruct (truthy (ts_files (names l)) && truthy (m3u8_files (names l)));
             discriminate.
        -- intros (item & r & [H|H]); [discriminate|].
           destruct IH as [_ IH].
           discriminate (IH (ex_intro _ item (ex_intro _ r H))).
      * split; [|reflexivity]. intros _. destruct IH as [IH _].
        destruct (IH eq_refl) as (item & r & H). exists item, r. right. exact H.
    + split; [|reflexivity]. intros _. exists i, r0. left. reflexivity.
Qed.

Lemma cache_dirs_in root dirs item l :
  cache_dirs root = Some dirs -> In (item, l) dirs ->
  exists r, In (item, Directory r (Some l)) root.
Proof.
  revert dirs. induction root as [|[i it] rest IH]; intros dirs; cbn [cache_dirs].
  - intros H. injection H as <-. intros [].
  - assert (Hrest : forall ds, cache_dirs rest = Some ds -> In (item, l) ds ->
                               exists r, In (item, Directory r (Some l))
                                           ((i, it) :: rest)).
    { intros ds E Hin. destruct (IH ds E Hin) as (r & H). exists r. right. exact H. }
    destruct it as [|r0 [l'|]].
    + intros H Hin. eapply Hrest; eauto.
    + destruct (cache_dirs rest) as [ds|]; [|discriminate].
      destruct (truthy (ts_files (names l')) && truthy (m3u8_files (names l'))).
      * intros H. injection H as <-. intros [Heq|Hin].
        -- injection Heq as -> ->. exists r0. left. reflexivity.
        -- eapply Hrest; eauto.
      * intros H. injection H as <-. intros Hin. eapply Hrest; eauto.
    + discriminate.
Qed.

(** The directories [process_reupload] collects are those the status
    scan lists, as long as every directory can be listed. *)
Lemma cache_dirs_scanned root dirs :
  cache_dirs root = Some dirs -> map fst dirs = scanned root.
Proof.
  revert dirs. induction root as [|[i it] rest IH]; intros dirs; cbn [cache_dirs].
  - intros H. injection H as <-. reflexivity.
  - rewrite scanned_cons. destruct it as [|r [l|]].
    + apply IH.
    + destruct (cache_dirs rest) as [ds|]; [|discriminate].
      destruct (truthy (ts_files (names l)) && truthy (m3u8_files (names l)));
        intros H; injection H as <-; cbn [map fst]; rewrite (IH ds eq_refl);
        reflexivity.
    + discriminate.
Qed.

Lemma upload_directory_to_server_events (R : Remote) app directory files s :
  exists (b : bool) w tr,
    upload_directory_to_server R app directory files s
      = (inr b, mkSt w (events s ++ tr))
    /\ Forall (fun e => is_cleanup e = false) tr.
Proof. apply upload_to_server_events. Qed.

Lemma reupload_loop_events (R : Remote) app dirs s :
  exists w tr,
    reupload_loop R app dirs s = (inr tt, mkSt w (events s ++ tr))
    /\ Forall (fun e => is_cleanup e = false) tr.
Proof.
  revert s. induction dirs as [|[item l] rest IH]; intros s.
  - exists (world s), []. rewrite app_nil_r, St_eta.
    split; [reflexivity|apply List.Forall_nil].
  - cbn [reupload_loop]. unfold bind at 1. destruct (has_playlist l).
    + unfold bind at 1.
      destruct (upload_directory_to_server_events R app
                  (path_join (cache_path app) item) (Some (names l)) s)
        as (b & w1 & tr1 & -> & H1).
      unfold pass at 1, ret at 1.
      destruct (IH (mkSt w1 (events s ++ tr1))) as (w2 & tr2 & -> & H2).
      exists w2, (tr1 ++ tr2). cbn [events]. rewrite app_assoc.
      split; [reflexivity|]. apply Forall_app. auto.
    + unfold pass at 1, ret at 1. apply IH.
Qed.

(** X7.  Re-uploading never deletes anything and never raises:
    [process_reupload] and [_upload_specified_directory] end normally
    and leave no cleanup in the trace, also when every file of every
    directory was stored. *)
Theorem reupload_keeps_the_cache (R : Remote) app root directory d s :
  (exists w tr,
      process_reupload R app root s = (inr tt, mkSt w (events s ++ tr))
      /\ existsb is_cleanup tr = false)
  /\ (exists w tr,
        _upload_specified_directory R app directory d s
          = (inr tt, mkSt w (events s ++ tr))
        /\ existsb is_cleanup tr = false).
Proof.
  split.
  - unfold process_reupload, catch.
    destruct (cache_dirs root) as [[|p dirs]|].
    + exists (world s), []. rewrite app_nil_r, St_eta. auto.
    + destruct (reupload_loop_events R app (p :: dirs) s) as (w & tr & -> & H).
      exists w, tr. split; [reflexivity|apply no_cleanup_in, H].
    + exists (world s), []. rewrite app_nil_r, St_eta. auto.
  - unfold _upload_specified_directory, catch. unfold bind at 1.
    destruct (upload_directory_to_server_events R app directory
                match d with
                | Some (Directory _ (Some l)) => Some (names l)
                | _ => None
                end s) as (b & w & tr & -> & H).
    exists w, tr. split; [reflexivity|apply no_cleanup_in, H].
Qed.

Lemma reupload_loop_without_playlist (R : Remote) app dirs s :
  Forall (fun d => has_playlist (snd d) = false) dirs ->
  reupload_loop R app dirs s = (inr tt, s).
Proof.
  induction 1 as [|[item l] rest Hl _ IH]; [reflexivity|].
  cbn [reupload_loop]. cbn [snd] in Hl. rewrite Hl.
  unfold bind at 1, pass at 1, ret at 1. exact IH.
Qed.

(** X8.  [process_reupload] only uploads a directory that holds an entry
    named [playlist.m3u8]: when no directory of the cache has one,
    nothing at all is done (no connection, no transfer), even though the
    status scan lists every directory with some other [.m3u8] name. *)
Theorem reupload_needs_playlist_m3u8 (R : Remote) app root s :
  (forall item r l,
      In (item, Directory r (Some l)) root -> has_playlist l = false) ->
  process_reupload R app root s = (inr tt, s).
Proof.
  intros Hno. unfold process_reupload, catch.
  destruct (cache_dirs root) as [[|p dirs]|] eqn:E; try reflexivity.
  rewrite reupload_loop_without_playlist; [reflexivity|].
  apply List.Forall_forall. intros [item l] Hin. cbn [snd].
  destruct (cache_dirs_in _ _ _ _ E Hin) as (r & H).
  apply (Hno item r l H).
Qed.

Lemma scanned_app (before after : cache_root) :
  scanned (before ++ after) = scanned before ++ scanned after.
Proof.
  induction before as [|[i it] rest IH]; [reflexivity|].
  change (((i, it) :: rest) ++ after) with ((i, it) :: (rest ++ after)).
  rewrite !scanned_cons, IH. destruct it as [|r [l|]]; try reflexivity.
  destruct (truthy (ts_files (names l)) && truthy (m3u8_files (names l)));
    reflexivity.
Qed.

(** X9.  One directory that cannot be listed stops the whole re-upload,
    wherever it stands in the cache: [process_reupload] then does
    nothing at all, while the status scan only skips that directory and
    lists exactly what it lists without it. *)
Theorem reupload_stops_at_unreadable_directory (R : Remote) app
    (before after : cache_root) item r s :
  let root := before ++ (item, Directory r None) :: after in
  process_reupload R app root s = (inr tt, s)
  /\ scanned root = scanned (before ++ after).
Proof.
  intros root. split.
  - unfold process_reupload, catch.
    assert (E : cache_dirs root = None).
    { apply cache_dirs_none. exists item, r. apply in_elt. }
    rewrite E. reflexivity.
  - subst root. rewrite !scanned_app, scanned_cons. reflexivity.
Qed.

(** X10.  The re-upload buttons ask for the FTP settings whatever the
    storage type: with qiniu selected and configured but an FTP field
    left empty, [start_process] starts the work while
    [reupload_from_cache] and [load_specified_cache] refuse with the
    incomplete-settings error. *)
Theorem reupload_requires_ftp_settings app has_cache_files directory d :
  use_qiniu app = true -> qiniu_configured app = true ->
  ftp_configured app = false ->
  start_process app false true = Launched
  /\ reupload_from_cache app false true = ErrIncompleteSettings
  /\ (reupload_from_cache app false has_cache_files = Launched -> False)
  /\ load_specified_cache app false directory d = ErrIncompleteSettings.
Proof.
  intros Hq Hc Hf. unfold start_process, reupload_from_cache, load_specified_cache.
  rewrite Hq, Hc, Hf. cbn. repeat split.
  destruct has_cache_files; discriminate.
Qed.

Lemma lookup_item_in root item it :
  lookup_item root item = Some it -> In (item, it) root.
Proof.
  unfold lookup_item.
  destruct (List.find (fun e => String.eqb (fst e) item) root) as [[i x]|] eqn:E;
    [|discriminate].
  intros H. injection H as <-. apply find_some in E as [Hin Heq].
  cbn in Heq. apply String.eqb_eq in Heq. subst i. exact Hin.
Qed.

Lemma in_lookup_item root item it :
  List.NoDup (map fst root) -> In (item, it) root -> lookup_item root item = Some it.
Proof.
  unfold lookup_item. induction root as [|[i x] rest IH]; intros Hnd Hin.
  - destruct Hin.
  - cbn [map fst] in Hnd. apply List.NoDup_cons_iff in Hnd as [Hni Hnd].
    cbn [List.find fst]. destruct (String.eqb_spec i item) as [->|Hne].
    + destruct Hin as [Heq|Hin]; [injection Heq as ->; reflexivity|].
      contradiction Hni. apply in_map_iff. exists (item, it). auto.
    + destruct Hin as [Heq|Hin]; [injection Heq as -> _; contradiction|].
      apply IH; assumption.
Qed.

(** X11.  The two ways to a re-upload agree on what a cached video is:
    in a cache directory without repeated names, the status scan lists a
    directory exactly when [validate_cache_directory] accepts it. *)
Theorem scan_agrees_with_validation (root : cache_root) (item : string) :
  List.NoDup (map fst root) ->
  (In item (scanned root) <->
   validate_cache_directory (lookup_item root item) = Some true).
Proof.
  intros Hnd. rewrite scanned_spec. split.
  - intros (r & l & Hin & Hts & Hm).
    rewrite (in_lookup_item root item _ Hnd Hin). apply validate_spec. auto.
  - intros H. destruct (lookup_item root item) as [[|r [l|]]|] eqn:E;
      try discriminate.
    exists r, l. split; [apply lookup_item_in, E|]. apply (validate_spec r), H.
Qed.

(** * Saving and loading the configuration *)

Import Config ConfigSave.

Lemma app_eta (app : App) :
  {| segment_duration := segment_duration app;
     quality_crf := quality_crf app;
     server_ip := server_ip app;
     server_port := server_port app;
     username := username app;
     password := password app;
     upload_path := upload_path app;
     use_ssl := use_ssl app;
     qiniu_access_key := qiniu_access_key app;
     qiniu_secret_key := qiniu_secret_key app;
     qiniu_bucket_name := qiniu_bucket_name app;
     qiniu_domain := qiniu_domain app;
     use_qiniu := use_qiniu app;
     cache_path := cache_path app |} = app.
Proof. destruct app; reflexivity. Qed.

(** What loading a saved document gives, setting by setting. *)
Lemma load_saved (tk_string : Json -> string) (tk_boolean : Json -> option bool)
    (strip : string -> string) now app d app0 :
  save_config strip now app = Some d ->
  load_config tk_string tk_boolean (Parsed d) app0 =
  ({| segment_duration := strip (segment_duration app);
      quality_crf := strip (quality_crf app);
      server_ip := if use_qiniu app then server_ip app0 else strip (server_ip app);
      server_port := if use_qiniu app then server_port app0
                     else strip (server_port app);
      username := if use_qiniu app then username app0 else strip (username app);
      password := if use_qiniu app then password app0 else strip (password app);
      upload_path := if use_qiniu app then upload_path app0
                     else strip (upload_path app);
      use_ssl := if use_qiniu app then use_ssl app0 else use_ssl app;
      qiniu_access_key := if use_qiniu app then strip (qiniu_access_key app)
                          else qiniu_access_key app0;
      qiniu_secret_key := if use_qiniu app then strip (qiniu_secret_key app)
                          else qiniu_secret_key app0;
      qiniu_bucket_name := if use_qiniu app then strip (qiniu_bucket_name app)
                           else qiniu_bucket_name app0;
      qiniu_domain := if use_qiniu app then strip (qiniu_domain app)
                      else qiniu_domain app0;
      use_qiniu := use_qiniu app;
      cache_path := strip (cache_path app) |},
   ShowInfoLoaded).
Proof.
  unfold save_config. destruct (use_qiniu app) eqn:Hq.
  - destruct (negb _); [discriminate|]. intros H. injection H as <-.
    unfold load_config, basic_keys. cbv beta zeta.
    repeat (rewrite ?lookup_insert_eq;
            rewrite ?lookup_insert_ne by discriminate).
    rewrite ?lookup_empty. reflexivity.
  - destruct (negb _); [discriminate|]. intros H. injection H as <-.
    unfold load_config, basic_keys. cbv beta zeta.
    repeat (rewrite ?lookup_insert_eq;
            rewrite ?lookup_insert_ne by discriminate).
    rewrite ?lookup_empty. reflexivity.
Qed.

(** X12.  Saving and loading restore a configuration: after [save_config]
    wrote a document, [load_config] of that document into any settings
    gives the saved storage type, the saved segment duration, quality
    and cache path, and the saved settings of that storage type, each
    with surrounding white space stripped; the settings of the other
    storage type stay as they were before the load. *)
Theorem save_then_load (tk_string : Json -> string)
    (tk_boolean : Json -> option bool) (strip : string -> string)
    now app d app0 :
  save_config strip now app = Some d ->
  let loaded := fst (load_config tk_string tk_boolean (Parsed d) app0) in
  snd (load_config tk_string tk_boolean (Parsed d) app0) = ShowInfoLoaded
  /\ use_qiniu loaded = use_qiniu app
  /\ segment_duration loaded = strip (segment_duration app)
  /\ quality_crf loaded = strip (quality_crf app)
  /\ cache_path loaded = strip (cache_path app)
  /\ (use_qiniu app = true ->
      qiniu_access_key loaded = strip (qiniu_access_key app)
      /\ qiniu_secret_key loaded = strip (qiniu_secret_key app)
      /\ qiniu_bucket_name loaded = strip (qiniu_bucket_name app)
      /\ qiniu_domain loaded = strip (qiniu_domain app)
      /\ server_ip loaded = server_ip app0
      /\ server_port loaded = server_port app0
      /\ username loaded = username app0
      /\ password loaded = password app0
      /\ upload_path loaded = upload_path app0
      /\ use_ssl loaded = use_ssl app0)
  /\ (use_qiniu app = false ->
      server_ip loaded = strip (server_ip app)
      /\ server_port loaded = strip (server_port app)
      /\ username loaded = strip (username app)
      /\ password loaded = strip (password app)
      /\ upload_path loaded = strip (upload_path app)
      /\ use_ssl loaded = use_ssl app
      /\ qiniu_access_key loaded = qiniu_access_key app0
      /\ qiniu_secret_key loaded = qiniu_secret_key app0
      /\ qiniu_bucket_name loaded = qiniu_bucket_name app0
      /\ qiniu_domain loaded = qiniu_domain app0).
Proof.
  intros Hs loaded. subst loaded.
  rewrite (load_saved tk_string tk_boolean strip now app d app0 Hs).
  cbn [fst snd segment_duration quality_crf server_ip server_port username
       password upload_path use_ssl qiniu_access_key qiniu_secret_key
       qiniu_bucket_name qiniu_domain use_qiniu cache_path].
  refine (conj eq_refl (conj eq_refl (conj eq_refl (conj eq_refl
            (conj eq_refl (conj _ _)))))); intros ->; repeat split.
Qed.

(** X13.  When no text setting has surrounding white space, saving the
    settings and loading the saved document back into them changes
    nothing. *)
Theorem save_then_load_same (tk_string : Json -> string)
    (tk_boolean : Json -> option bool) (strip : string -> string) now app d :
  trimmed strip app ->
  save_config strip now app = Some d ->
  load_config tk_string tk_boolean (Parsed d) app = (app, ShowInfoLoaded).
Proof.
  intros (H1 & H2 & H3 & H4 & H5 & H6 & H7 & H8 & H9 & H10 & H11 & H12) Hs.
  rewrite (load_saved tk_string tk_boolean strip now app d app Hs).
  rewrite H1, H2, H3, H4, H5, H6, H7, H8, H9, H10, H11, H12.
  destruct (use_qiniu app) eqn:Hq; rewrite <- Hq at 1; rewrite app_eta;
    reflexivity.
Qed.

Lemma apply_key_twice tk_string (o : option Json) (old : string) :
  apply_key tk_string o (apply_key tk_string o old) = apply_key tk_string o old.
Proof. destruct o; reflexivity. Qed.

(** X14.  Loading is idempotent: loading the same file a second time
    changes nothing more and ends in the same message box, also when
    that is the error box. *)
Theorem load_config_idempotent (tk_string : Json -> string)
    (tk_boolean : Json -> option bool) (file : ConfigFile) (app : App) :
  load_config tk_string tk_boolean file
    (fst (load_config tk_string tk_boolean file app))
  = load_config tk_string tk_boolean file app.
Proof.
  destruct file as [| | | |d]; try reflexivity.
  unfold load_config. cbv zeta.
  destruct (is_qiniu (default (JString "ftp") (d !! "storage_type")));
    [|destruct (d !! "use_ssl") as [v|];
      [destruct (set_boolean tk_boolean v) as [b|]|]];
    cbn [fst negb segment_duration quality_crf server_ip server_port username
         password upload_path use_ssl qiniu_access_key qiniu_secret_key
         qiniu_bucket_name qiniu_domain use_qiniu cache_path];
    rewrite ?apply_key_twice; reflexivity.
Qed.

(** X15.  A document only touches the settings of its own storage type:
    loading a document that selects FTP leaves the four qiniu settings
    as they were, and loading one that selects qiniu leaves the six FTP
    settings as they were, also when the document holds keys for
    them. *)
Theorem load_config_ignores_other_backend (tk_string : Json -> string)
    (tk_boolean : Json -> option bool) (d : Document) (app : App) :
  let loaded := fst (load_config tk_string tk_boolean (Parsed d) app) in
  (use_qiniu loaded = false ->
   qiniu_access_key loaded = qiniu_access_key app
   /\ qiniu_secret_key loaded = qiniu_secret_key app
   /\ qiniu_bucket_name loaded = qiniu_bucket_name app
   /\ qiniu_domain loaded = qiniu_domain app)
  /\ (use_qiniu loaded = true ->
      server_ip loaded = server_ip app
      /\ server_port loaded = server_port app
      /\ username loaded = username app
      /\ password loaded = password app
      /\ upload_path loaded = upload_path app
      /\ use_ssl loaded = use_ssl app).
Proof.
  intros loaded. subst loaded. unfold load_config. cbv zeta.
  destruct (is_qiniu (default (JString "ftp") (d !! "storage_type")));
    [|destruct (d !! "use_ssl") as [v|];
      [destruct (set_boolean tk_boolean v) as [b|]|]];
    cbn [fst negb segment_duration quality_crf server_ip server_port username
         password upload_path use_ssl qiniu_access_key qiniu_secret_key
         qiniu_bucket_name qiniu_domain use_qiniu cache_path];
    split; intros H; try discriminate; repeat split.
Qed.

(** * Uploading other files *)

Import OtherFiles.

Lemma file_url_stable cdn_domain bucket_name key key' :
  file_url (snd (file_url cdn_domain bucket_name key)) bucket_name key'
  = file_url cdn_domain bucket_name key'
    \/ (nonempty cdn_domain = true
        /\ startswith cdn_domain "http" = false
        /\ file_url (snd (file_url cdn_domain bucket_name key)) bucket_name key'
           = (fst (file_url cdn_domain bucket_name key'),
              "https://" +:+ cdn_domain)).
Proof.
  unfold file_url. destruct (nonempty cdn_domain) eqn:En; cbn [snd fst].
  - destruct (startswith cdn_domain "http") eqn:Eh; cbn [negb].
    + left. rewrite En, Eh. reflexivity.
    + right. repeat split.
  - left. rewrite En. reflexivity.
Qed.

Lemma file_url_fst_stable cdn_domain bucket_name key key' :
  fst (file_url (snd (file_url cdn_domain bucket_name key)) bucket_name key')
  = fst (file_url cdn_domain bucket_name key').
Proof.
  destruct (file_url_stable cdn_domain bucket_name key key') as [->|(_ & _ & ->)];
    reflexivity.
Qed.

Lemma url_info_no_size filename url key : url_info filename url key !! "size" = None.
Proof.
  unfold url_info.
  repeat (rewrite lookup_insert_ne by discriminate). apply lookup_empty.
Qed.

(** The loop of the upload: what it appends to [uploaded_urls] and what
    it leaves in the trace. *)
Lemma other_files_loop_run (R : Remote) bucket cdn0 selected :
  forall filename cdn urls s,
    (forall key, fst (file_url cdn bucket key) = fst (file_url cdn0 bucket key)) ->
    exists new (fin : bool) w tr,
      other_files_loop R bucket selected filename cdn urls s
        = (inr (urls ++ new, fin), mkSt w (events s ++ tr))
      /\ Forall (fun u => exists name,
                   In name (map tuple_name selected)
                   /\ u = url_info name
                            (fst (file_url cdn0 bucket ("uploads/" +:+ name)))
                            ("uploads/" +:+ name)) new
      /\ length new = succeeded tr
      /\ Forall (fun e => exists name b,
                   In name (map tuple_name selected)
                   /\ e = EvPut ("uploads/" +:+ name) 1 b) tr
      /\ (forallb is_dict selected = true ->
          fin = true /\ length tr = length selected).
Proof.
  induction selected as [|f rest IH]; intros filename cdn urls s Hinv.
  - exists [], true, (world s), []. rewrite !app_nil_r, St_eta.
    repeat split; auto.
  - assert (Hw : forall new tr,
      Forall (fun u => exists name,
                 In name (map tuple_name rest)
                 /\ u = url_info name
                          (fst (file_url cdn0 bucket ("uploads/" +:+ name)))
                          ("uploads/" +:+ name)) new ->
      Forall (fun e => exists name b,
                 In name (map tuple_name rest)
                 /\ e = EvPut ("uploads/" +:+ name) 1 b) tr ->
      Forall (fun u => exists name,
                 In name (map tuple_name (f :: rest))
                 /\ u = url_info name
                          (fst (file_url cdn0 bucket ("uploads/" +:+ name)))
                          ("uploads/" +:+ name)) new
      /\ Forall (fun e => exists name b,
                   In name (map tuple_name (f :: rest))
                   /\ e = EvPut ("uploads/" +:+ name) 1 b) tr).
    { intros new tr Hn Ht. split.
      - eapply List.Forall_impl; [|exact Hn].
        intros u (name & Hin & Hu). exists name. split; [right|]; auto.
      - eapply List.Forall_impl; [|exact Ht].
        intros e (name & b & Hin & He). exists name, b. split; [right|]; auto. }
    destruct f as [name local_file size|file size filepath].
    + cbn [other_files_loop]. unfold bind at 1, attempt_, call.
      destruct (put_file_v2 R ("uploads/" +:+ name) local_file (world s))
        as [r w1].
      unfold bind at 1, emit. cbn [world events].
      set (stored := match r with
                     | inr (Some k) => String.eqb k ("uploads/" +:+ name)
                     | _ => false
                     end).
      destruct stored eqn:Est.
      * destruct (file_url cdn bucket ("uploads/" +:+ name)) as [url cdn'] eqn:Eu.
        assert (Hinv' : forall key,
                  fst (file_url cdn' bucket key) = fst (file_url cdn0 bucket key)).
        { intros key. rewrite <- Hinv.
          replace cdn' with (snd (file_url cdn bucket ("uploads/" +:+ name)))
            by (rewrite Eu; reflexivity).
          apply file_url_fst_stable. }
        destruct (IH (Some name) cdn'
                    (urls ++ [url_info name url ("uploads/" +:+ name)])
                    (mkSt w1 (events s ++ [EvPut ("uploads/" +:+ name) 1 true]))
                    Hinv')
          as (new & fin & w2 & tr & -> & Hn & Hl & Ht & Hd).
        destruct (Hw new tr Hn Ht) as [Hn' Ht'].
        exists (url_info name url ("uploads/" +:+ name) :: new), fin, w2,
          (EvPut ("uploads/" +:+ name) 1 true :: tr).
        cbn [events]. rewrite <- !app_assoc. split; [reflexivity|].
        split.
        { apply List.Forall_cons; [|exact Hn'].
          exists name. split; [left; reflexivity|].
          rewrite <- Hinv, Eu. reflexivity. }
        split.
        { cbn [length]. rewrite Hl. unfold succeeded. reflexivity. }
        split.
        { apply List.Forall_cons; [|exact Ht'].
          exists name, true. split; [left; reflexivity|reflexivity]. }
        cbn [forallb is_dict andb length]. intros Hall.
        destruct (Hd Hall) as [-> ->]. auto.
      * destruct (IH (Some name) cdn urls
                    (mkSt w1 (events s ++ [EvPut ("uploads/" +:+ name) 1 false]))
                    Hinv)
          as (new & fin & w2 & tr & -> & Hn & Hl & Ht & Hd).
        destruct (Hw new tr Hn Ht) as [Hn' Ht'].
        exists new, fin, w2, (EvPut ("uploads/" +:+ name) 1 false :: tr).
        cbn [events]. rewrite <- !app_assoc. split; [reflexivity|].
        split; [exact Hn'|]. split.
        { rewrite Hl. unfold succeeded. reflexivity. }
        split.
        { apply List.Forall_cons; [|exact Ht'].
          exists name, false. split; [left; reflexivity|reflexivity]. }
        cbn [forallb is_dict andb length]. intros Hall.
        destruct (Hd Hall) as [-> ->]. auto.
    + cbn [other_files_loop]. destruct filename as [bound|].
      * destruct (IH (Some bound) cdn urls s Hinv)
          as (new & fin & w2 & tr & -> & Hn & Hl & Ht & Hd).
        destruct (Hw new tr Hn Ht) as [Hn' Ht'].
        exists new, fin, w2, tr. repeat split; auto; discriminate.
      * exists [], false, (world s), []. rewrite !app_nil_r, St_eta.
        repeat split; auto; discriminate.
Qed.

(** The loop on a selection made of dictionaries: one put per file,
    and one address per stored put. *)
Lemma other_files_loop_dicts (R : Remote) bucket cdn0 selected :
  forallb is_dict selected = true ->
  forall filename cdn urls s,
    (forall key, fst (file_url cdn bucket key) = fst (file_url cdn0 bucket key)) ->
    exists flags w,
      length flags = length selected
      /\ other_files_loop R bucket selected filename cdn urls s
         = (inr (urls ++
                   map (fun f =>
                          url_info (tuple_name f)
                            (fst (file_url cdn0 bucket
                                    ("uploads/" +:+ tuple_name f)))
                            ("uploads/" +:+ tuple_name f))
                       (map fst (List.filter snd (combine selected flags))),
                 true),
            mkSt w (events s ++
                      map (fun fb => EvPut ("uploads/" +:+ tuple_name (fst fb))
                                       1 (snd fb))
                          (combine selected flags))).
Proof.
  induction selected as [|f rest IH]; intros Hall filename cdn urls s Hinv.
  - exists [], (world s). cbn. rewrite !app_nil_r, St_eta. auto.
  - cbn [forallb] in Hall. apply andb_true_iff in Hall as [Hf Hrest].
    destruct f as [name local_file size|file size filepath]; [|discriminate].
    cbn [other_files_loop]. unfold bind at 1, attempt_, call.
    destruct (put_file_v2 R ("uploads/" +:+ name) local_file (world s))
      as [r w1].
    unfold bind at 1, emit. cbn [world events].
    set (stored := match r with
                   | inr (Some k) => String.eqb k ("uploads/" +:+ name)
                   | _ => false
                   end).
    destruct stored eqn:Est.
    + destruct (file_url cdn bucket ("uploads/" +:+ name)) as [url cdn'] eqn:Eu.
      assert (Hinv' : forall key,
                fst (file_url cdn' bucket key) = fst (file_url cdn0 bucket key)).
      { intros key. rewrite <- Hinv.
        replace cdn' with (snd (file_url cdn bucket ("uploads/" +:+ name)))
          by (rewrite Eu; reflexivity).
        apply file_url_fst_stable. }
      destruct (IH Hrest (Some name) cdn'
                  (urls ++ [url_info name url ("uploads/" +:+ name)])
                  (mkSt w1 (events s ++ [EvPut ("uploads/" +:+ name) 1 true]))
                  Hinv')
        as (flags & w2 & Hlen & ->).
      exists (true :: flags), w2. split; [cbn [length]; rewrite Hlen; reflexivity|].
      cbn [combine List.filter snd fst map events tuple_name].
      rewrite <- !app_assoc. cbn [List.app].
      assert (Hurl : url = fst (file_url cdn0 bucket ("uploads/" +:+ name))).
      { rewrite <- Hinv, Eu. reflexivity. }
      rewrite Hurl. reflexivity.
    + destruct (IH Hrest (Some name) cdn urls
                  (mkSt w1 (events s ++ [EvPut ("uploads/" +:+ name) 1 false]))
                  Hinv)
        as (flags & w2 & Hlen & ->).
      exists (false :: flags), w2. split; [cbn [length]; rewrite Hlen; reflexivity|].
      cbn [combine List.filter snd fst map events tuple_name].
      rewrite <- !app_assoc. reflexivity.
Qed.

(** X16.  Other files are uploaded with a single attempt each and get an
    address that depends only on the configured domain, the bucket and
    the file name: for a selection made of dictionaries the run reaches
    its end after exactly one put per selected file, in the order of the
    selection, under the key [uploads/<name>] (no retry, no wait); the
    addresses it lists are those of the files whose put was stored, in
    the same order, and each is the one [file_url] gives for the
    stripped domain, although the loop rewrites its [cdn_domain] on the
    way. *)
Theorem other_files_one_attempt_each (R : Remote) (strip : string -> string)
    app selected old_urls s :
  use_qiniu app = true -> qiniu_configured app = true ->
  QINIU_AVAILABLE R = true ->
  selected <> [] -> forallb is_dict selected = true ->
  exists flags w,
    length flags = length selected
    /\ upload_other_files R strip app selected old_urls s
       = (inr (mkResult Finished app
                 (map (fun f =>
                         url_info (tuple_name f)
                           (fst (file_url (strip (qiniu_domain app))
                                   (qiniu_bucket_name app)
                                   ("uploads/" +:+ tuple_name f)))
                           ("uploads/" +:+ tuple_name f))
                      (map fst (List.filter snd (combine selected flags))))),
          mkSt w (events s ++
                    map (fun fb => EvPut ("uploads/" +:+ tuple_name (fst fb))
                                     1 (snd fb))
                        (combine selected flags))).
Proof.
  intros Hq Hc Hav Hne Hall. unfold upload_other_files.
  destruct selected as [|f rest]; [contradiction|].
  rewrite Hq, Hc, Hav. cbn [negb]. unfold bind at 1.
  destruct (other_files_loop_dicts R (qiniu_bucket_name app)
              (strip (qiniu_domain app)) (f :: rest) Hall None
              (strip (qiniu_domain app)) [] s (fun _ => eq_refl))
    as (flags & w & Hlen & ->).
  exists flags, w. split; [exact Hlen|]. reflexivity.
Qed.

(** The three shapes of an address. *)
Lemma file_url_shapes cdn_domain bucket_name key :
  (cdn_domain = "" ->
   fst (file_url cdn_domain bucket_name key)
   = "https://" +:+ bucket_name +:+ ".s3-cn-north-1.qiniucs.com/" +:+ key)
  /\ (cdn_domain <> "" -> startswith cdn_domain "http" = true ->
      fst (file_url cdn_domain bucket_name key) = cdn_domain +:+ "/" +:+ key)
  /\ (cdn_domain <> "" -> startswith cdn_domain "http" = false ->
      fst (file_url cdn_domain bucket_name key)
      = "https://" +:+ cdn_domain +:+ "/" +:+ key).
Proof.
  assert (Happ : forall a b c : string, (a +:+ b) +:+ c = a +:+ b +:+ c).
  { induction a as [|x a IH]; intros b c; [reflexivity|].
    change (String x ((a +:+ b) +:+ c) = String x (a +:+ b +:+ c)).
    rewrite IH. reflexivity. }
  unfold file_url, nonempty. refine (conj _ (conj _ _)).
  - intros ->. reflexivity.
  - intros Hne Hh. destruct (String.eqb_spec cdn_domain ""); [contradiction|].
    cbn [negb]. rewrite Hh. reflexivity.
  - intros Hne Hh. destruct (String.eqb_spec cdn_domain ""); [contradiction|].
    cbn [negb]. rewrite Hh. cbn [negb fst]. apply Happ.
Qed.

Lemma insert_by_name_tuples f sorted :
  is_dict f = false -> forallb (fun g => negb (is_dict g)) sorted = true ->
  forallb (fun g => negb (is_dict g)) (insert_by_name f sorted) = true.
Proof.
  intros Hf. induction sorted as [|g rest IH]; cbn [insert_by_name forallb].
  - rewrite Hf. reflexivity.
  - intros H. apply andb_true_iff in H as [Hg Hr].
    destruct (String.leb (tuple_name f) (tuple_name g)); cbn [forallb].
    + rewrite Hf, Hg, Hr. reflexivity.
    + rewrite Hg, (IH Hr). reflexivity.
Qed.

Lemma refresh_files_list_tuples other_files_path d :
  forallb (fun g => negb (is_dict g)) (refresh_files_list other_files_path d)
  = true.
Proof.
  unfold refresh_files_list. destruct (nonempty other_files_path); [|reflexivity].
  destruct d as [entries|]; [|reflexivity].
  unfold sort_by_name.
  induction entries as [|[file [size|]] rest IH]; cbn [folder_tuples fold_right].
  - reflexivity.
  - apply insert_by_name_tuples; [reflexivity|exact IH].
  - exact IH.
Qed.

(** X17.  After [refresh_files_list] nothing can be uploaded: it fills
    [selected_files] with tuples, on which the upload loop stops at the
    first element, so [upload_other_files] never reaches its end, makes
    no put and lists no address, whatever the folder holds. *)
Theorem refreshed_list_is_never_uploaded (R : Remote) (strip : string -> string)
    app other_files_path d old_urls s :
  exists res,
    upload_other_files R strip app (refresh_files_list other_files_path d)
      old_urls s = (inr res, s)
    /\ ending res <> Finished
    /\ (uploaded_urls res = [] \/ uploaded_urls res = old_urls).
Proof.
  pose proof (refresh_files_list_tuples other_files_path d) as Ht.
  unfold upload_other_files.
  destruct (refresh_files_list other_files_path d) as [|f rest].
  - eexists. split; [reflexivity|]. split; [discriminate|auto].
  - destruct (use_qiniu app); cbn [negb];
      [|eexists; split; [reflexivity|]; split; [discriminate|auto]].
    destruct (qiniu_configured app); cbn [negb];
      [|eexists; split; [reflexivity|]; split; [discriminate|auto]].
    destruct (QINIU_AVAILABLE R); cbn [negb];
      [|eexists; split; [reflexivity|]; split; [discriminate|auto]].
    cbn [forallb] in Ht. apply andb_true_iff in Ht as [Hf _].
    destruct f as [n p z|n z p]; [discriminate|].
    eexists. split; [reflexivity|]. split; [discriminate|auto].
Qed.

Lemma url_rows_key_error urls :
  urls <> [] -> Forall (fun u => u !! "size" = None) urls ->
  view_uploaded_urls urls = RowRaised "KeyError".
Proof.
  intros Hne Hall. destruct urls as [|u rest]; [contradiction|].
  apply List.Forall_inv in Hall. unfold view_uploaded_urls. cbn [url_rows].
  rewrite Hall. reflexivity.
Qed.

(** X18.  The link viewer cannot show what the upload lists: every
    entry the upload appends has the keys [filename], [url] and [key]
    but no [size], so after any upload that listed at least one address
    [view_uploaded_urls] raises [KeyError] on its first row. *)
Theorem view_uploaded_urls_raises (R : Remote) (strip : string -> string)
    app selected s res s' :
  upload_other_files R strip app selected [] s = (inr res, s') ->
  uploaded_urls res <> [] ->
  view_uploaded_urls (uploaded_urls res) = RowRaised "KeyError".
Proof.
  intros Hrun Hne. apply url_rows_key_error; [exact Hne|].
  revert Hrun. unfold upload_other_files.
  destruct selected as [|f rest].
  { intros H. injection H as <- _. apply List.Forall_nil. }
  destruct (use_qiniu app); cbn [negb];
    [|intros H; injection H as <- _; apply List.Forall_nil].
  destruct (qiniu_configured app); cbn [negb];
    [|intros H; injection H as <- _; apply List.Forall_nil].
  destruct (QINIU_AVAILABLE R); cbn [negb];
    [|intros H; injection H as <- _; apply List.Forall_nil].
  unfold bind at 1.
  destruct (other_files_loop_run R (qiniu_bucket_name app)
              (strip (qiniu_domain app)) (f :: rest) None
              (strip (qiniu_domain app)) [] s (fun _ => eq_refl))
    as (new & fin & w & tr & -> & Hn & _).
  intros H. injection H as <- _. cbn [uploaded_urls fst].
  eapply List.Forall_impl; [|exact Hn].
  intros u (name & _ & ->). apply url_info_no_size.
Qed.

(** * The cleanup *)

Lemma lookup_item_remove_other root item other :
  other <> item ->
  lookup_item (remove_item root item) other = lookup_item root other.
Proof.
  intros Hne. unfold lookup_item, remove_item.
  induction root as [|[i it] rest IH]; [reflexivity|].
  cbn [List.filter fst]. destruct (String.eqb_spec i item) as [->|Hi]; cbn [negb].
  - cbn [List.find fst]. destruct (String.eqb_spec item other) as [E|_];
      [congruence|exact IH].
  - cbn [List.find fst]. destruct (String.eqb i other); [reflexivity|exact IH].
Qed.

Lemma lookup_item_remove_same root item :
  lookup_item (remove_item root item) item = None.
Proof.
  unfold lookup_item, remove_item.
  induction root as [|[i it] rest IH]; [reflexivity|].
  cbn [List.filter fst]. destruct (String.eqb_spec i item) as [->|Hi]; cbn [negb].
  - exact IH.
  - cbn [List.find fst]. destruct (String.eqb_spec i item); [contradiction|exact IH].
Qed.

Lemma lookup_item_replace_other root item r l other :
  other <> item ->
  lookup_item (replace_item root item r l) other = lookup_item root other.
Proof.
  intros Hne. unfold lookup_item, replace_item.
  induction root as [|[i it] rest IH]; [reflexivity|].
  cbn [map fst List.find]. destruct (String.eqb_spec i item) as [->|Hi].
  - cbn [fst]. destruct (String.eqb_spec item other) as [E|_];
      [congruence|exact IH].
  - cbn [fst]. destruct (String.eqb i other); [reflexivity|exact IH].
Qed.

Lemma lookup_item_replace_same root item r l it :
  lookup_item root item = Some it ->
  lookup_item (replace_item root item r l) item = Some (Directory r (Some l)).
Proof.
  unfold lookup_item, replace_item.
  induction root as [|[i x] rest IH]; [discriminate|].
  cbn [map fst List.find]. destruct (String.eqb_spec i item) as [->|Hi].
  - cbn [fst snd]. rewrite String.eqb_refl. reflexivity.
  - cbn [fst]. destruct (String.eqb_spec i item); [contradiction|exact IH].
Qed.

(** X19.  [cleanup_local_files] touches one job directory only: every
    other entry of the cache is found as before, whether the cleanup
    ends with its warning or not. *)
Theorem cleanup_leaves_other_directories (root : cache_root) (item other : string) :
  other <> item ->
  lookup_item (fst (cleanup_local_files root item)) other = lookup_item root other.
Proof.
  intros Hne. unfold cleanup_local_files.
  destruct (lookup_item root item) as [[|r [l|]]|]; try reflexivity.
  destruct (remove_files l) as [kept raised].
  destruct raised; cbn [fst].
  - apply lookup_item_replace_other, Hne.
  - destruct kept; [destruct r|]; cbn [fst].
    + apply lookup_item_remove_other, Hne.
    + apply lookup_item_replace_other, Hne.
    + apply lookup_item_replace_other, Hne.
Qed.

Lemma cleanup_leaves_other_directories_witness :
  lookup_item
    (fst (cleanup_local_files
            (("other", Directory true (Some two_playlists)) :: movie_root) job))
    "other"
  = Some (Directory true (Some two_playlists)).
Proof.
  rewrite (cleanup_leaves_other_directories
             (("other", Directory true (Some two_playlists)) :: movie_root)
             job "other"); [reflexivity|discriminate].
Defined.

Lemma remove_files_spec l :
  (snd (remove_files l) = false ->
   fst (remove_files l)
   = List.filter (fun e => match snd e with SubDirectory => true | _ => false end) l)
  /\ (snd (remove_files l) = true -> fst (remove_files l) <> [])
  /\ (fst (remove_files l) = [] <-> Forall (fun e => snd e = RegularFile true) l)
  /\ (forall n, In (n, SubDirectory) l -> In (n, SubDirectory) (fst (remove_files l)))
  /\ (forall e, In e (fst (remove_files l)) -> In e l).
Proof.
  induction l as [|[n k] rest (IH1 & IH2 & IH3 & IH4 & IH5)].
  - cbn. repeat split; auto; try discriminate; try apply List.Forall_nil.
  - destruct k as [[|]|]; cbn [remove_files].
    + refine (conj _ (conj _ (conj _ (conj _ _)))).
      * intros H. cbn [List.filter snd]. apply IH1, H.
      * exact IH2.
      * rewrite IH3. split.
        -- intros H. apply List.Forall_cons; [reflexivity|exact H].
        -- intros H. apply List.Forall_inv_tail in H. exact H.
      * intros m [H|H]; [discriminate|apply IH4, H].
      * intros e H. right. apply IH5, H.
    + cbn [fst snd]. refine (conj _ (conj _ (conj _ (conj _ _)))).
      * discriminate.
      * discriminate.
      * split; [discriminate|]. intros H. apply List.Forall_inv in H. discriminate.
      * intros m H. exact H.
      * intros e H. exact H.
    + destruct (remove_files rest) as [kept raised] eqn:E. cbn [fst snd] in *.
      refine (conj _ (conj _ (conj _ (conj _ _)))).
      * intros H. cbn [List.filter snd]. rewrite (IH1 H). reflexivity.
      * discriminate.
      * split; [discriminate|]. intros H. apply List.Forall_inv in H. discriminate.
      * intros m [H|H]; [left; exact H|right; apply IH4, H].
      * intros e [H|H]; [left; exact H|right; apply IH5, H].
Qed.

(** X20.  [cleanup_local_files] ends without its warning exactly when
    the job directory can be listed, holds nothing but regular files
    that can be removed, and can itself be removed once it is empty;
    then the directory is gone.  When it ends with the warning on a
    directory that can be listed, the directory stays, with every
    subdirectory it had and nothing it did not have; it stays empty
    only when every file was removed and [os.rmdir] failed. *)
Theorem cleanup_succeeds_iff_only_removable_files (root : cache_root)
    (item : string) :
  (snd (cleanup_local_files root item) = false <->
   exists l, lookup_item root item = Some (Directory true (Some l))
             /\ Forall (fun e => snd e = RegularFile true) l)
  /\ (snd (cleanup_local_files root item) = false ->
      lookup_item (fst (cleanup_local_files root item)) item = None)
  /\ (forall r l,
        lookup_item root item = Some (Directory r (Some l)) ->
        snd (cleanup_local_files root item) = true ->
        exists kept,
          lookup_item (fst (cleanup_local_files root item)) item
          = Some (Directory r (Some kept))
          /\ (kept = [] <->
              r = false /\ Forall (fun e => snd e = RegularFile true) l)
          /\ (forall n, In (n, SubDirectory) l -> In (n, SubDirectory) kept)
          /\ (forall e, In e kept -> In e l)).
Proof.
  unfold cleanup_local_files.
  destruct (lookup_item root item) as [[|r [l|]]|] eqn:E.
  - refine (conj _ (conj _ _)); [split| |]; try discriminate.
    intros (l & H & _). discriminate.
  - destruct (remove_files_spec l) as (H1 & H2 & H3 & H4 & H5).
    destruct (remove_files l) as [kept raised]. cbn [fst snd] in *.
    refine (conj _ (conj _ _)).
    + split.
      * intros Hs. destruct raised; [discriminate|].
        destruct kept; [|discriminate]. destruct r; [|discriminate].
        exists l. split; [reflexivity|]. apply H3. reflexivity.
      * intros (l' & Hl & Hall). injection Hl as -> <-.
        apply H3 in Hall. subst kept.
        destruct raised; [|reflexivity].
        contradiction (H2 eq_refl). reflexivity.
    + intros Hs. destruct raised; [discriminate|].
      destruct kept; [|discriminate]. destruct r; [|discriminate].
      apply lookup_item_remove_same.
    + intros r' l' Hl Hs. injection Hl as <- <-. exists kept.
      refine (conj _ (conj _ (conj H4 H5))).
      * destruct raised; [eapply lookup_item_replace_same; eauto|].
        destruct kept; [destruct r; [discriminate|]|];
          eapply lookup_item_replace_same; eauto.
      * rewrite H3. split.
        -- intros Hall. split; [|exact Hall].
           apply H3 in Hall. subst kept.
           destruct raised; [contradiction (H2 eq_refl); reflexivity|].
           destruct r; [discriminate|reflexivity].
        -- intros [_ Hall]. exact Hall.
  - refine (conj _ (conj _ _)); [split| |]; try discriminate.
    intros (l & H & _). discriminate.
  - refine (conj _ (conj _ _)); [split| |]; try discriminate.
    intros (l & H & _). discriminate.
Qed.

(** * The remote directory *)

Lemma call_ok (R : Remote) {A} (op : World R -> outcome (World R) A) s a w :
  op (world s) = (inr a, w) -> call R op s = (inr a, mkSt w (events s)).
Proof. intros H. unfold call. rewrite H. reflexivity. Qed.

Lemma create_parts_tolerates_existing (R : Remote) parts i all s :
  (forall p w, exists w', ftp_cwd R p w = (inr tt, w')) ->
  (forall p w e w', ftp_mkd R p w = (inl e, w') -> error_perm e = true) ->
  exists w, create_parts R parts i all s = (inr tt, mkSt w (events s)).
Proof.
  intros Hcwd Hmkd. revert i s.
  induction parts as [|part rest IH]; intros i s; cbn [create_parts].
  - exists (world s). rewrite St_eta. reflexivity.
  - unfold bind at 1. destruct (nonempty part).
    + unfold bind at 1. unfold catch at 1, call at 1.
      destruct (ftp_mkd R ("/" +:+ join_slash (firstn (S i) all)) (world s))
        as [[e|[]] w1] eqn:Em.
      * rewrite (Hmkd _ _ _ _ Em). unfold pass at 1, ret at 1.
        unfold catch at 1.
        destruct (Hcwd ("/" +:+ join_slash (firstn (S i) all)) w1) as (w2 & Hc).
        rewrite (call_ok R _ (mkSt w1 (events s)) tt w2 Hc).
        cbn [events]. exact (IH (S i) (mkSt w2 (events s))).
      * unfold catch at 1.
        destruct (Hcwd ("/" +:+ join_slash (firstn (S i) all)) w1) as (w2 & Hc).
        rewrite (call_ok R _ (mkSt w1 (events s)) tt w2 Hc).
        cbn [events]. exact (IH (S i) (mkSt w2 (events s))).
    + unfold pass at 1, ret at 1. apply IH.
Qed.

(** X21.  A directory that is already there is no failure for
    [create_remote_directory]: on a server where every [cwd] and [pwd]
    succeeds it returns [True] whatever [mkd] answers, as long as the
    errors of [mkd] are permission errors ([550] included). *)
Theorem create_remote_directory_tolerates_existing (R : Remote) remote_dir s :
  (forall p w, exists w', ftp_cwd R p w = (inr tt, w')) ->
  (forall w, exists d w', ftp_pwd R w = (inr d, w')) ->
  (forall p w e w', ftp_mkd R p w = (inl e, w') -> error_perm e = true) ->
  exists w, create_remote_directory R remote_dir s = (inr true, mkSt w (events s)).
Proof.
  intros Hcwd Hpwd Hmkd. unfold create_remote_directory.
  unfold catch at 1. unfold bind at 1. unfold catch at 1.
  destruct (Hcwd "/" (world s)) as (w0 & H0).
  rewrite (call_ok R _ s tt w0 H0). unfold bind at 1.
  destruct (create_parts_tolerates_existing R
              (split_slash (strip_slash remote_dir)) 0
              (split_slash (strip_slash remote_dir)) (mkSt w0 (events s))
              Hcwd Hmkd) as (w1 & ->).
  cbn [events]. unfold catch at 1. unfold bind at 1.
  destruct (Hcwd ("/" +:+ strip_slash remote_dir) w1) as (w2 & H2).
  rewrite (call_ok R _ (mkSt w1 (events s)) tt w2 H2).
  cbn [events]. unfold bind at 1.
  destruct (Hpwd w2) as (d & w3 & H3).
  rewrite (call_ok R _ (mkSt w2 (events s)) d w3 H3).
  exists w3. reflexivity.
Qed.

(** X22.  A failure of [mkd] that is not a permission error (a lost
    connection, say) makes [create_remote_directory] give up at once
    with [False], for every path with a non-empty first segment. *)
Theorem create_remote_directory_gives_up (R : Remote) remote_dir part rest s :
  split_slash (strip_slash remote_dir) = part :: rest ->
  nonempty part = true ->
  (forall p w, exists e w', ftp_mkd R p w = (inl e, w') /\ error_perm e = false) ->
  exists w, create_remote_directory R remote_dir s = (inr false, mkSt w (events s)).
Proof.
  intros Hsplit Hpart Hmkd. unfold create_remote_directory.
  unfold catch at 1. unfold bind at 1.
  assert (H0 : exists r w0,
            catch R (call R (ftp_cwd R "/")) (fun _ => pass R) s
            = (inr r, mkSt w0 (events s))).
  { unfold catch, call, pass, ret.
    destruct (ftp_cwd R "/" (world s)) as [[e|[]] w0]; eauto. }
  destruct H0 as ([] & w0 & ->). rewrite Hsplit.
  unfold bind at 1. cbn [create_parts]. rewrite Hpart.
  unfold bind at 1. unfold bind at 1. unfold catch at 1, call at 1.
  cbn [world events].
  destruct (Hmkd ("/" +:+ join_slash (firstn 1 (part :: rest))) w0)
    as (e & w1 & -> & He).
  rewrite He. unfold raise. exists w1. reflexivity.
Qed.

(** * The FTP file loop *)

(** X23.  The FTP file loop never raises, and what it does is settled
    file by file: its trace is made of one block per eligible file of
    the listing, in listing order; the block of a file holds one, two
    or three [STOR] attempts, numbered from one, on the bare name of
    that file or on [remote_dir/<name>], of which only the last can
    have succeeded, each but the last followed by a wait of five
    seconds; and [files_uploaded] grows by the number of blocks that
    end in a success. *)
Theorem ftp_file_loop_bounds (R : Remote) output_dir remote_dir names n s :
  exists w blocks,
    ftp_file_loop R output_dir remote_dir names n s
      = (inr (n + length (List.filter snd blocks)),
         mkSt w (events s ++ concat (map fst blocks)))
    /\ Forall2 (fun f block =>
                  In block (ftp_file_traces f)
                  \/ In block (ftp_file_traces (remote_dir +:+ "/" +:+ f)))
         (List.filter eligible names) blocks
    /\ length (List.filter snd blocks) <= length (List.filter eligible names).
Proof.
  destruct (ftp_file_loop_traces R output_dir remote_dir names n s)
    as (w & blocks & Hrun & Hall).
  exists w, blocks. split; [exact Hrun|]. split; [exact Hall|].
  rewrite (Forall2_length _ _ _ Hall). apply List.filter_length_le.
Qed.

(** * An upload that takes no time *)

Lemma all_puts_fail_always (R : Remote) key local_file n w :
  (forall w, put_failed (fst (qiniu_attempt R key local_file w)) = true) ->
  all_puts_fail R key local_file n w = true.
Proof.
  intros H. revert w. induction n as [|n IH]; intros w; [reflexivity|].
  cbn [all_puts_fail]. specialize (H w).
  destruct (qiniu_attempt R key local_file w) as [r w']. cbn [fst] in H.
  rewrite H, IH. reflexivity.
Qed.

Lemma ftp_retry_never_stores (R : Remote) remote_dir remote_file local_file
    attempts s :
  (forall w, exists e w', ftp_attempt R remote_file local_file w = (inl e, w')) ->
  exists w tr,
    ftp_retry_loop R remote_dir remote_file local_file attempts s
      = (inr false, mkSt w (events s ++ tr))
    /\ succeeded tr = 0.
Proof.
  intros Hfail. revert s. induction attempts as [|attempt rest IH]; intros s.
  - exists (world s), []. rewrite app_nil_r, St_eta. split; reflexivity.
  - rewrite ftp_retry_step.
    destruct (Hfail (world s)) as (e & w & ->). cbn zeta.
    destruct (str_in "10060" (text e)).
    + destruct (IH (mkSt w (events s ++ [EvStor remote_file attempt false;
                                         EvSleep 5])))
        as (w' & tr & -> & Hs).
      exists w', ([EvStor remote_file attempt false; EvSleep 5] ++ tr).
      cbn [events]. rewrite <- app_assoc. split; [reflexivity|].
      rewrite succeeded_app, Hs. reflexivity.
    + destruct (str_in "553" (text e)).
      * destruct (after_553 R remote_dir local_file
                    (mkSt w (events s ++ [EvStor remote_file attempt false])))
          as (w' & ->).
        exists w', [EvStor remote_file attempt false]. split; reflexivity.
      * exists w, [EvStor remote_file attempt false]. split; reflexivity.
Qed.

(** X26.  An upload that takes no measurable time is not counted.  With
    files that are not empty and a clock whose reading does not change,
    the speed cannot be computed, so no attempt ends with
    [upload_success = True], whatever the SDK or the server answers:
    the qiniu loop makes three attempts on every eligible file and
    counts none, [upload_to_qiniu] returns [False] as soon as there is
    an eligible file, and the FTP loop counts no file either. *)
Theorem zero_upload_time_counts_nothing (R : Remote) app video_name output_dir
    remote_dir names n s :
  (forall local_file w, exists size, getsize R local_file w = inr (S size)) ->
  (forall w w', time_time R w' = time_time R w) ->
  (exists w,
      qiniu_file_loop R video_name output_dir names n s
      = (inr n,
         mkSt w (events s ++
                   flat_map (fun f =>
                               let key := video_name +:+ "/" +:+ f in
                               [EvPut key 1 false; EvSleep 2;
                                EvPut key 2 false; EvSleep 2;
                                EvPut key 3 false])
                            (List.filter eligible names))))
  /\ (QINIU_AVAILABLE R = true -> qiniu_configured app = true ->
      List.filter eligible names <> [] ->
      exists st, upload_to_qiniu R app output_dir (Some names) s = (inr false, st))
  /\ (exists w tr,
        ftp_file_loop R output_dir remote_dir names n s
        = (inr n, mkSt w (events s ++ tr))
        /\ succeeded tr = 0).
Proof.
  intros Hsize Hclock.
  assert (Hraise : forall size w w',
            speed_raises (S size) (time_time R w) (time_time R w') = true).
  { intros size w w'. unfold speed_raises. rewrite (Hclock w w').
    rewrite Nat.eqb_refl. reflexivity. }
  assert (Hq : forall key local_file w,
            put_failed (fst (qiniu_attempt R key local_file w)) = true).
  { intros key local_file w. unfold qiniu_attempt.
    destruct (Hsize local_file w) as (size & ->).
    destruct (put_file_v2 R key local_file w) as [[e|[k|]] w']; try reflexivity.
    destruct (String.eqb k key); [|reflexivity].
    rewrite Hraise. reflexivity. }
  assert (Hf : forall remote_file local_file w,
            exists e w', ftp_attempt R remote_file local_file w = (inl e, w')).
  { intros remote_file local_file w. unfold ftp_attempt.
    destruct (Hsize local_file w) as (size & ->).
    destruct (ftp_stor R remote_file local_file w) as [[e|[]] w'].
    - exists e, w'. reflexivity.
    - rewrite Hraise. exists ZeroDivisionError, w'. reflexivity. }
  assert (Hloop : forall vn names n s,
            exists w,
              qiniu_file_loop R vn output_dir names n s
              = (inr n,
                 mkSt w (events s ++
                           flat_map (fun f =>
                                       let key := vn +:+ "/" +:+ f in
                                       [EvPut key 1 false; EvSleep 2;
                                        EvPut key 2 false; EvSleep 2;
                                        EvPut key 3 false])
                                    (List.filter eligible names)))).
  { clear n s names. intros vn names.
    induction names as [|f rest IH]; intros n s.
    - exists (world s). cbn. rewrite app_nil_r, St_eta. reflexivity.
    - cbn [qiniu_file_loop List.filter]. destruct (eligible f); [|apply IH].
      unfold bind at 1.
      destruct (qiniu_all_fail R (vn +:+ "/" +:+ f) (path_join output_dir f) s
                  (all_puts_fail_always R _ _ _ _ (Hq _ _)))
        as (w1 & ->).
      destruct (IH n (mkSt w1 (events s ++
                        [EvPut (vn +:+ "/" +:+ f) 1 false; EvSleep 2;
                         EvPut (vn +:+ "/" +:+ f) 2 false; EvSleep 2;
                         EvPut (vn +:+ "/" +:+ f) 3 false])))
        as (w2 & ->).
      exists w2. cbn [events flat_map]. rewrite <- app_assoc. reflexivity. }
  refine (conj (Hloop video_name names n s) (conj _ _)).
  - intros Hav Hcfg Hne. unfold upload_to_qiniu, catch.
    rewrite Hav, Hcfg. cbn [negb listdir]. unfold bind at 1, ret at 1.
    unfold bind at 1.
    destruct (Hloop (basename output_dir) names 0 s) as (w & ->).
    destruct (List.filter eligible names) as [|f l]; [contradiction|].
    cbn [length Nat.eqb Nat.ltb Nat.leb]. eexists. reflexivity.
  - revert n s. induction names as [|f rest IH]; intros n s.
    + exists (world s), []. rewrite app_nil_r, St_eta. split; reflexivity.
    + cbn [ftp_file_loop]. destruct (eligible f); [|apply IH].
      unfold bind at 1.
      destruct (quiet_choose_remote_file R remote_dir f s) as (rf & w0 & ->).
      unfold bind at 1.
      destruct (ftp_retry_never_stores R remote_dir rf (path_join output_dir f)
                  (seq 1 max_retries) (mkSt w0 (events s)) (Hf _ _))
        as (w1 & tr1 & -> & Hs1).
      cbn [events].
      destruct (IH n (mkSt w1 (events s ++ tr1))) as (w2 & tr2 & -> & Hs2).
      exists w2, (tr1 ++ tr2). cbn [events]. rewrite app_assoc.
      split; [reflexivity|]. rewrite succeeded_app, Hs1, Hs2. reflexivity.
Qed.

(** * The keep-alive period *)

Lemma keep_alive_open_run n s :
  KeepAlive.session_open s = true ->
  KeepAlive.run (repeat KeepAlive.Wake n) s
  = KeepAlive.mkState true (KeepAlive.slept s + 30 * n)
      (KeepAlive.activity s
       ++ map (fun k => (KeepAlive.slept s + 30 * k, KeepAlive.NoopSent))
              (seq 1 n)).
Proof.
  revert s. induction n as [|n IH]; intros s Hs.
  - cbn [repeat KeepAlive.run fold_left seq map]. rewrite app_nil_r.
    rewrite Nat.mul_0_r, Nat.add_0_r. destruct s; cbn in *; subst; reflexivity.
  - cbn [repeat].
    change (KeepAlive.run (KeepAlive.Wake :: repeat KeepAlive.Wake n) s)
      with (KeepAlive.run (repeat KeepAlive.Wake n)
              (KeepAlive.step s KeepAlive.Wake)).
    assert (Hstep : KeepAlive.step s KeepAlive.Wake
                    = KeepAlive.mkState true (KeepAlive.slept s + 30)
                        (KeepAlive.activity s
                         ++ [(KeepAlive.slept s + 30, KeepAlive.NoopSent)])).
    { unfold KeepAlive.step, KeepAlive.ftp_keep_alive_turn, KeepAlive.keep_alive.
      cbn [KeepAlive.session_open KeepAlive.slept KeepAlive.activity].
      rewrite Hs. reflexivity. }
    rewrite Hstep, IH by reflexivity.
    cbn [KeepAlive.slept KeepAlive.activity].
    f_equal; [lia|]. rewrite <- app_assoc. f_equal.
    cbn [seq map]. rewrite <- (List.seq_shift n 1), List.map_map. cbn [app].
    replace (KeepAlive.slept s + 30 * 1) with (KeepAlive.slept s + 30) by lia.
    f_equal. apply List.map_ext. intros k.
    replace (KeepAlive.slept s + 30 + 30 * k)
      with (KeepAlive.slept s + 30 * S k) by lia.
    reflexivity.
Qed.

(** X24.  While the session is open the keep-alive thread sends one
    [NOOP] every thirty seconds: after [n] wake-ups it has sent exactly
    [n], at 30, 60, ..., 30 n seconds. *)
Theorem keep_alive_every_thirty_seconds (n : nat) :
  KeepAlive.activity (KeepAlive.run (repeat KeepAlive.Wake n) KeepAlive.started)
  = map (fun k => (30 * k, KeepAlive.NoopSent)) (seq 1 n).
Proof.
  rewrite keep_alive_open_run by reflexivity. reflexivity.
Qed.

(** * The name of the job directory *)

Import OutputDir.

Lemma split_slash_nonempty s : split_slash s <> [].
Proof.
  destruct s as [|c s]; cbn [split_slash]; [discriminate|].
  destruct (is_slash c); [discriminate|].
  destruct (split_slash s); discriminate.
Qed.

Lemma str_in_slash_cons c s :
  str_in "/" (String c s) = (is_slash c || str_in "/" s).
Proof.
  cbn [str_in String.prefix]. unfold is_slash.
  destruct (Ascii.ascii_dec "/" c) as [<-|Hne].
  - destruct s; reflexivity.
  - destruct (Ascii.eqb_spec c "/"); [congruence|reflexivity].
Qed.

Lemma no_slash_app a b :
  str_in "/" (a +:+ b) = (str_in "/" a || str_in "/" b).
Proof.
  induction a as [|c a IH].
  - cbn [String.append]. destruct b; reflexivity.
  - change (String c a +:+ b) with (String c (a +:+ b)).
    rewrite !str_in_slash_cons, IH, orb_assoc. reflexivity.
Qed.

Lemma split_slash_no_slash s : str_in "/" s = false -> split_slash s = [s].
Proof.
  induction s as [|c s IH]; [reflexivity|].
  rewrite str_in_slash_cons. intros H. apply orb_false_iff in H as [Hc Hs].
  cbn [split_slash]. rewrite Hc, (IH Hs). reflexivity.
Qed.

Lemma split_slash_app x b :
  split_slash (x +:+ "/" +:+ b) = split_slash x ++ split_slash b.
Proof.
  induction x as [|c x IH].
  - reflexivity.
  - change (String c x +:+ "/" +:+ b) with (String c (x +:+ "/" +:+ b)).
    cbn [split_slash]. rewrite IH. destruct (is_slash c); [reflexivity|].
    pose proof (split_slash_nonempty x) as Hx.
    destruct (split_slash x) as [|h t]; [contradiction|reflexivity].
Qed.

Lemma basename_after_slash x b :
  str_in "/" b = false -> basename (x +:+ "/" +:+ b) = b.
Proof.
  intros Hb. unfold basename.
  rewrite split_slash_app, (split_slash_no_slash b Hb), rev_app_distr.
  reflexivity.
Qed.

Lemma string_app_assoc (a b c : string) : (a +:+ b) +:+ c = a +:+ b +:+ c.
Proof.
  induction a as [|x a IH]; [reflexivity|].
  change (String x ((a +:+ b) +:+ c) = String x (a +:+ b +:+ c)).
  rewrite IH. reflexivity.
Qed.

Lemma basename_path_join a b :
  str_in "/" b = false -> basename (path_join a b) = b.
Proof.
  intros Hb. unfold path_join.
  destruct (String.eqb a "").
  - unfold basename. rewrite (split_slash_no_slash b Hb). reflexivity.
  - destruct (endswith a "/") eqn:Ea.
    + apply endswith_spec in Ea as (pre & ->).
      rewrite string_app_assoc. apply basename_after_slash, Hb.
    + apply basename_after_slash, Hb.
Qed.

Lemma split_slash_parts s : Forall (fun p => str_in "/" p = false) (split_slash s).
Proof.
  induction s as [|c s IH]; cbn [split_slash].
  - apply List.Forall_cons; [reflexivity|apply List.Forall_nil].
  - destruct (is_slash c) eqn:Ec.
    + apply List.Forall_cons; [reflexivity|exact IH].
    + destruct (split_slash s) as [|h t].
      * apply List.Forall_cons; [|apply List.Forall_nil].
        rewrite str_in_slash_cons, Ec. reflexivity.
      * apply List.Forall_cons.
        -- rewrite str_in_slash_cons, Ec. exact (List.Forall_inv IH).
        -- exact (List.Forall_inv_tail IH).
Qed.

Lemma basename_no_slash s : str_in "/" (basename s) = false.
Proof.
  unfold basename. pose proof (split_slash_parts s) as H.
  apply List.Forall_rev in H.
  destruct (rev (split_slash s)) as [|last before] eqn:E.
  - apply (f_equal (@rev string)) in E. rewrite rev_involutive in E.
    contradiction (split_slash_nonempty s).
  - exact (List.Forall_inv H).
Qed.

Lemma last_dot_split_app s root ext :
  last_dot_split s = Some (root, ext) -> s = root +:+ ext.
Proof.
  revert root ext. induction s as [|c s IH]; intros root ext; cbn [last_dot_split].
  - discriminate.
  - destruct (last_dot_split s) as [[r e]|].
    + intros H. injection H as <- <-.
      change (String c r +:+ e) with (String c (r +:+ e)).
      rewrite <- (IH r e eq_refl). reflexivity.
    + destruct (Ascii.eqb c "."); [|discriminate].
      intros H. injection H as <- <-. reflexivity.
Qed.

Lemma splitext_root_no_slash name :
  str_in "/" name = false -> str_in "/" (splitext_root name) = false.
Proof.
  intros Hn. unfold splitext_root.
  destruct (last_dot_split name) as [[root ext]|] eqn:E; [|exact Hn].
  destruct (all_dots root); [exact Hn|].
  apply last_dot_split_app in E. rewrite E, no_slash_app in Hn.
  apply orb_false_iff in Hn as [Hr _]. exact Hr.
Qed.

(** X25.  The job of a video is named after the video: the directory
    [create_output_directory] returns has the base name
    [<video name without extension>_<timestamp>], so that is the remote
    directory of an FTP upload and the prefix of every qiniu key
    ([<video name>_<timestamp>/<file name>]). *)
Theorem job_is_named_after_the_video cache_path video_file timestamp filename :
  str_in "/" timestamp = false ->
  let video_name := splitext_root (basename video_file) in
  let output_dir := create_output_directory cache_path video_file timestamp in
  basename output_dir = video_name +:+ "_" +:+ timestamp
  /\ qiniu_key output_dir filename
     = (video_name +:+ "_" +:+ timestamp) +:+ "/" +:+ filename
  /\ ftp_remote_dir "" (basename output_dir) = video_name +:+ "_" +:+ timestamp.
Proof.
  intros Ht video_name output_dir.
  assert (Hb : basename output_dir = video_name +:+ "_" +:+ timestamp).
  { subst output_dir. unfold create_output_directory. fold video_name.
    apply basename_path_join.
    rewrite !no_slash_app, Ht. subst video_name.
    rewrite (splitext_root_no_slash _ (basename_no_slash video_file)).
    reflexivity. }
  unfold qiniu_key. rewrite Hb. repeat split.
Qed.

Lemma job_is_named_after_the_video_witness :
  basename (create_output_directory "cache" "/home/me/holiday.2024.mp4"
              "20240101_120000")
  = "holiday.2024_20240101_120000".
Proof.
  destruct (job_is_named_after_the_video "cache" "/home/me/holiday.2024.mp4"
              "20240101_120000" "segment_000.ts" eq_refl) as (H & _).
  exact H.
Defined.

(** * The further properties at concrete runs *)

Import MoreRuns.

Lemma second_attempt_recovers_witness :
  qiniu_file_loop (flaky 1) job ("cache/" +:+ job) ["segment_000.ts"] 0
    (mkSt (0 : World (flaky 1)) [])
  = (inr 1, mkSt (2 : World (flaky 1))
              [EvPut (job +:+ "/segment_000.ts") 1 false; EvSleep 2;
               EvPut (job +:+ "/segment_000.ts") 2 true])
  /\ ftp_file_loop (flaky 2) ("cache/" +:+ job) ("videos/" +:+ job)
       ["segment_000.ts"] 0 (mkSt (0 : World (flaky 2)) [])
     = (inr 1, mkSt (3 : World (flaky 2))
                 [EvStor ("videos/" +:+ job +:+ "/segment_000.ts") 1 false;
                  EvSleep 5;
                  EvStor ("videos/" +:+ job +:+ "/segment_000.ts") 2 true]).
Proof.
  destruct (second_attempt_recovers (flaky 1) job ("cache/" +:+ job)
              ("videos/" +:+ job) "segment_000.ts" [] 0
              (mkSt (0 : World (flaky 1)) []) eq_refl) as (Hq & _).
  destruct (second_attempt_recovers (flaky 2) job ("cache/" +:+ job)
              ("videos/" +:+ job) "segment_000.ts" [] 0
              (mkSt (0 : World (flaky 2)) []) eq_refl) as (_ & Hf).
  split.
  - exact (Hq (inl (Exn false "timed out")) 1 2 eq_refl eq_refl eq_refl).
  - exact (Hf ("videos/" +:+ job +:+ "/segment_000.ts")
              (mkSt (1 : World (flaky 2)) [])
              (Exn false "[WinError 10060] connection attempt failed") 2 3
              eq_refl eq_refl eq_refl eq_refl).
Defined.

(** Every put is accepted, and none is counted: the clock stands
    still. *)
Lemma zero_upload_time_counts_nothing_witness :
  (exists w,
      qiniu_file_loop frozen_clock job ("cache/" +:+ job) ["segment_000.ts"] 0
        (mkSt (0 : World frozen_clock) [])
      = (inr 0,
         mkSt w [EvPut (job +:+ "/segment_000.ts") 1 false; EvSleep 2;
                 EvPut (job +:+ "/segment_000.ts") 2 false; EvSleep 2;
                 EvPut (job +:+ "/segment_000.ts") 3 false]))
  /\ (exists st,
        upload_to_qiniu frozen_clock qiniu_app ("cache/" +:+ job)
          (Some ["segment_000.ts"]) (mkSt (0 : World frozen_clock) [])
        = (inr false, st)).
Proof.
  destruct (zero_upload_time_counts_nothing frozen_clock qiniu_app job
              ("cache/" +:+ job) ("videos/" +:+ job) ["segment_000.ts"] 0
              (mkSt (0 : World frozen_clock) [])) as (Hloop & Hup & _).
  - intros local_file w. exists 4095. reflexivity.
  - intros w w'. reflexivity.
  - split; [exact Hloop|].
    apply Hup; [reflexivity|reflexivity|discriminate].
Defined.

(** Every [STOR] times out, and [upload_to_ftp] still returns [True]. *)
Lemma upload_to_ftp_ignores_file_outcomes_witness :
  let R := always_timeout in
  let output_dir := "cache/" +:+ job in
  let remote_dir := ftp_remote_dir (upload_path ftp_app) (basename output_dir) in
  let s1 := snd (connect_ftp R ftp_app (start R 0)) in
  let s2 := snd (create_remote_directory R remote_dir s1) in
  let s3 := snd (ftp_file_loop R output_dir remote_dir (names movie_dir) 0 s2) in
  let w4 := snd (ftp_quit R (world s3)) in
  upload_to_ftp R ftp_app output_dir (Some (names movie_dir)) (start R 0)
  = (inr true, mkSt w4 (events s3 ++ [EvQuit]))
  /\ succeeded (events s3) = 0.
Proof.
  intros R output_dir remote_dir s1 s2 s3 w4. split.
  - apply (upload_to_ftp_ignores_file_outcomes R ftp_app output_dir
             (names movie_dir) (start R 0) s1 s2 0 s3 w4);
      vm_compute; reflexivity.
  - vm_compute. reflexivity.
Defined.

(** Every [STOR] times out, and the job directory is deleted all the
    same. *)
Lemma process_video_ftp_cleans_witness :
  let R := always_timeout in
  let output_dir := path_join (cache_path ftp_app) job in
  let remote_dir := ftp_remote_dir (upload_path ftp_app) (basename output_dir) in
  let s1 := snd (connect_ftp R ftp_app (start R 0)) in
  let s2 := snd (create_remote_directory R remote_dir s1) in
  let s3 := snd (ftp_file_loop R output_dir remote_dir (names movie_dir) 0 s2) in
  let w4 := snd (ftp_quit R (world s3)) in
  process_video R ftp_app movie_root job true (start R 0)
  = ([], mkSt w4 ((events s3 ++ [EvQuit]) ++ [EvCleanup output_dir]))
  /\ succeeded (events s3) = 0.
Proof.
  intros R output_dir remote_dir s1 s2 s3 w4. split.
  - apply (process_video_ftp_cleans_whatever_was_stored R ftp_app movie_root
             job (names movie_dir) (start R 0) s1 s2 0 s3 w4);
      vm_compute; reflexivity.
  - vm_compute. reflexivity.
Defined.

Lemma reupload_needs_playlist_m3u8_witness :
  scanned index_root = ["clip"]
  /\ process_reupload rejects_segment_001 qiniu_app index_root
       (start rejects_segment_001 0)
     = (inr tt, start rejects_segment_001 0).
Proof.
  split; [reflexivity|].
  apply reupload_needs_playlist_m3u8.
  intros item r l [H|[]]. injection H as <- <- <-. reflexivity.
Defined.

Lemma reupload_requires_ftp_settings_witness :
  start_process qiniu_app false true = Launched
  /\ reupload_from_cache qiniu_app false true = ErrIncompleteSettings
  /\ load_specified_cache qiniu_app false ("cache/" +:+ job)
       (Some (Directory true (Some movie_dir))) = ErrIncompleteSettings.
Proof.
  destruct (reupload_requires_ftp_settings qiniu_app true ("cache/" +:+ job)
              (Some (Directory true (Some movie_dir))) eq_refl eq_refl eq_refl)
    as (H1 & H2 & _ & H4).
  exact (conj H1 (conj H2 H4)).
Defined.

Lemma scan_agrees_with_validation_witness :
  In job (scanned movie_root) <->
  validate_cache_directory (lookup_item movie_root job) = Some true.
Proof.
  apply scan_agrees_with_validation.
  apply List.NoDup_cons; [intros []|apply List.NoDup_nil].
Defined.

Lemma save_then_load_witness :
  let load := load_config sample_tk_string sample_tk_boolean in
  exists d,
    save_config lstrip_blank "2024-01-01 12:00:00" padded_app = Some d
    /\ qiniu_bucket_name (fst (load (Parsed d) ftp_app)) = "videos"
    /\ use_qiniu (fst (load (Parsed d) ftp_app)) = true
    /\ server_ip (fst (load (Parsed d) ftp_app)) = "192.0.2.1".
Proof.
  intros load. subst load.
  eexists. split; [reflexivity|].
  destruct (save_then_load sample_tk_string sample_tk_boolean lstrip_blank
              "2024-01-01 12:00:00" padded_app _
              ftp_app eq_refl) as (_ & Hq & _ & _ & _ & Hqiniu & _).
  destruct (Hqiniu eq_refl) as (_ & _ & Hb & _ & Hip & _).
  exact (conj Hb (conj Hq Hip)).
Defined.

Lemma save_then_load_same_witness :
  exists d,
    save_config lstrip_blank "2024-01-01 12:00:00" qiniu_app = Some d
    /\ load_config sample_tk_string sample_tk_boolean (Parsed d) qiniu_app
       = (qiniu_app, ShowInfoLoaded).
Proof.
  eexists. split; [reflexivity|].
  apply (save_then_load_same sample_tk_string sample_tk_boolean lstrip_blank
           "2024-01-01 12:00:00" qiniu_app).
  - repeat split.
  - reflexivity.
Defined.

Lemma other_files_one_attempt_each_witness :
  let R := scripted true true (fun key => inr (Some key)) (fun _ => inr tt) in
  let selected := load_files_from_folder "dir" other_folder in
  exists flags w,
    length flags = 2
    /\ upload_other_files R lstrip_blank padded_app selected []
         (mkSt (0 : World R) [])
       = (inr (mkResult Finished padded_app
                 (map (fun f =>
                         url_info (tuple_name f)
                           (fst (file_url "cdn.example.com" " videos"
                                   ("uploads/" +:+ tuple_name f)))
                           ("uploads/" +:+ tuple_name f))
                      (map fst (List.filter snd (combine selected flags))))),
          mkSt w ([] ++
                    map (fun fb => EvPut ("uploads/" +:+ tuple_name (fst fb))
                                     1 (snd fb))
                        (combine selected flags))).
Proof.
  intros R selected.
  exact (other_files_one_attempt_each R lstrip_blank padded_app selected []
           (mkSt (0 : World R) []) eq_refl eq_refl eq_refl
           ltac:(discriminate) eq_refl).
Defined.

Lemma view_uploaded_urls_raises_witness :
  let R := scripted true true (fun key => inr (Some key)) (fun _ => inr tt) in
  match fst (upload_other_files R lstrip_blank padded_app
               (load_files_from_folder "dir" other_folder) []
               (mkSt (0 : World R) [])) with
  | inr res =>
      length (uploaded_urls res) = 2
      /\ view_uploaded_urls (uploaded_urls res) = RowRaised "KeyError"
  | inl _ => False
  end.
Proof.
  intros R.
  destruct (upload_other_files R lstrip_blank padded_app
              (load_files_from_folder "dir" other_folder) []
              (mkSt (0 : World R) [])) as [[e|res] s'] eqn:Hrun; cbn [fst].
  - vm_compute in Hrun. discriminate.
  - assert (Hlen : length (uploaded_urls res) = 2).
    { pose proof Hrun as H. vm_compute in H. injection H as <- _. reflexivity. }
    split; [exact Hlen|].
    apply (view_uploaded_urls_raises R lstrip_blank padded_app
             (load_files_from_folder "dir" other_folder)
             (mkSt (0 : World R) []) res s' Hrun).
    intros E. rewrite E in Hlen. discriminate.
Defined.

Lemma create_remote_directory_tolerates_existing_witness :
  exists w,
    create_remote_directory (flaky 0) "/www/videos/"
      (mkSt (0 : World (flaky 0)) [])
    = (inr true, mkSt w []).
Proof.
  apply (create_remote_directory_tolerates_existing (flaky 0) "/www/videos/"
           (mkSt (0 : World (flaky 0)) [])).
  - intros p w. exists (S w). reflexivity.
  - intros w. exists "/", (S w). reflexivity.
  - intros p w e w' H. injection H as <- _. reflexivity.
Defined.

Lemma create_remote_directory_gives_up_witness :
  exists w,
    create_remote_directory drops_on_mkd "/www/videos/"
      (mkSt (0 : World drops_on_mkd) [])
    = (inr false, mkSt w []).
Proof.
  apply (create_remote_directory_gives_up drops_on_mkd "/www/videos/"
           "www" ["videos"] (mkSt (0 : World drops_on_mkd) []) eq_refl eq_refl).
  intros p w. exists (Exn false "timed out"), (S w). split; reflexivity.
Defined.
